(** * GeneratedMesh: the structured parallel mesh generator of stk_util

    A shallow embedding of
    [packages/stk/stk_util/stk_util/unit_test_support/GeneratedMesh.cpp]
    together with the properties of its partition planner, its geometry and
    topology generators and its option parser.

    Conventions of the embedding.
    - [size_t] values are integers in [0, 2^64); every [+], [-] and [*] on
      them is followed by [wrap] (reduction modulo [2^64]).  Since [wrap] is
      a ring morphism, a compound expression is wrapped once, at its root
      (see [wrap_add_idemp], [wrap_sub_idemp] and [wrap_mul_idemp]).
    - [static_cast<int>] of a [size_t] is [to_int], the two's complement
      reading of the low 32 bits.
    - a [std::vector] is a list; [operator[]] outside the bounds is
      undefined behaviour and is modelled by [None]; [assert] that fails is
      [None] as well.
    - [double] is kept abstract (class [Double]): the generator only
      combines doubles with [+], [*], [/], [cos] and [sin], and every
      statement below holds for any interpretation of these operations.
    - text written to [std::cerr] is collected as a list of [message]s. *)

From Stdlib Require Import ZArith Lia Ascii String.
From stdpp Require Import base option list list_numbers strings.

Local Open Scope Z_scope.

(** ** Machine integers *)

Definition SIZE_MOD : Z := 2 ^ 64.
Definition INT_MAX : Z := 2 ^ 31 - 1.
Definition INT_MIN : Z := - 2 ^ 31.
Definition LONG_MAX : Z := 2 ^ 63 - 1.
Definition LONG_MIN : Z := - 2 ^ 63.

(** Arithmetic of [size_t]: the result is reduced modulo [2^64]; this is also
    the conversion of an [int] or a [long] to [size_t]. *)
Definition wrap (z : Z) : Z := z mod SIZE_MOD.

(** [static_cast<int>(z)] for a [size_t] [z]. *)
Definition to_int (z : Z) : Z := (z + 2 ^ 31) mod 2 ^ 32 - 2 ^ 31.

(** ** Vectors *)

(** [v.resize(n)]: the first [n] elements are kept, new elements are
    value-initialised ([dflt]). *)
Definition resize {A} (n : Z) (dflt : A) (v : list A) : list A :=
  take (Z.to_nat n) v ++ replicate (Z.to_nat n - length v)%nat dflt.

(** [v[i] = x]. *)
Definition store {A} (v : list A) (i : Z) (x : A) : option (list A) :=
  if decide (0 <= i < Z.of_nat (length v)) then Some (<[Z.to_nat i := x]> v)
  else None.

(** [v[i]] as an rvalue. *)
Definition load {A} (v : list A) (i : Z) : option A :=
  if decide (0 <= i) then v !! Z.to_nat i else None.

(** ** Loops *)

(** [n] rounds of a loop whose counter starts at [i] and advances by
    [step]; the body may fail. *)
Fixpoint iterate {St} (n : nat) (i step : Z) (body : Z -> St -> option St)
    (s : St) : option St :=
  match n with
  | O => Some s
  | S n' =>
      match body i s with
      | Some s' => iterate n' (i + step) step body s'
      | None => None
      end
  end.

(** [for (size_t i = lo; i < hi; i++) body].  The counter never wraps: it
    stays below [hi], which is a [size_t]. *)
Definition for_range {St} (lo hi : Z) (body : Z -> St -> option St) (s : St)
    : option St :=
  iterate (Z.to_nat (hi - lo)) lo 1 body s.

(** [for (size_t i = 0; i < hi; i += 3) body].  The counter takes the
    multiples of 3 below [hi]; as [2^64 - 1] is a multiple of 3 the last
    increment does not wrap either. *)
Definition for_step3 {St} (hi : Z) (body : Z -> St -> option St) (s : St)
    : option St :=
  iterate (Z.to_nat ((hi + 2) / 3)) 0 3 body s.

(** ** The C library: [strtol] in base 10 *)

Definition is_space (c : ascii) : bool :=
  let n := Z.of_nat (nat_of_ascii c) in
  (n =? 32) || ((9 <=? n) && (n <=? 13)).

Definition digit_of (c : ascii) : option Z :=
  let n := Z.of_nat (nat_of_ascii c) in
  if (48 <=? n) && (n <=? 57) then Some (n - 48) else None.

Fixpoint skip_space (s : string) : string :=
  match s with
  | String c s' => if is_space c then skip_space s' else s
  | EmptyString => s
  end.

Fixpoint digits_value (acc : Z) (s : string) : Z :=
  match s with
  | String c s' =>
      match digit_of c with
      | Some d => digits_value (10 * acc + d) s'
      | None => acc
      end
  | EmptyString => acc
  end.

(** [std::strtol(s, NULL, 10)]: white space, an optional sign, the longest
    run of digits; the value saturates at the bounds of [long]. *)
Definition strtol (s : string) : Z :=
  match skip_space s with
  | String "-" s' => Z.max LONG_MIN (- digits_value 0 s')
  | String "+" s' => Z.min LONG_MAX (digits_value 0 s')
  | s' => Z.min LONG_MAX (digits_value 0 s')
  end.

(** ** Doubles *)

Class Double := {
  double : Type;
  d_of_Z : Z -> double;          (* literals and static_cast<double> *)
  d_add : double -> double -> double;
  d_sub : double -> double -> double;
  d_mul : double -> double -> double;
  d_div : double -> double -> double;
  d_neg : double -> double;
  d_cos : double -> double;
  d_sin : double -> double;
  d_atan2 : double -> double -> double;
  strtod : string -> double;
}.

(** ** The mesh *)

Inductive ShellLocation := MX | PX | MY | PY | MZ | PZ.

#[global] Instance ShellLocation_eq_dec : EqDecision ShellLocation.
Proof. solve_decision. Defined.

(** What the generator writes to [std::cerr]. *)
Inductive message :=
  | UnrecognizedShell (c : ascii)
  | UnrecognizedOption (o : string)
  | InvalidAxis (axis : string)
  | HelpText
  | MeshParameters (nodes elements blocks : Z) (rotated : bool).

Section Mesh.
Context `{Double}.

(** [stk::io::util::tokenize(s, recognize(separators))] is declared in
    [tokenize.hpp]; the generator only relies on it returning the tokens. *)
Variable tokenize : string -> string -> list string.

Record GeneratedMesh := {
  shellBlocks : list ShellLocation;
  rotmat : list (list double);
  faceNodes : list (list Z);
  numX : Z;
  numY : Z;
  numZ : Z;
  myNumZ : Z;
  myStartZ : Z;
  processorCount : Z;
  myProcessor : Z;
  offX : double;
  offY : double;
  offZ : double;
  sclX : double;
  sclY : double;
  sclZ : double;
  doRotation : bool;
}.

(** Assignments to the members. *)
Definition set_shellBlocks (v : list ShellLocation) (m : GeneratedMesh) :=
  {| shellBlocks := v; rotmat := rotmat m; faceNodes := faceNodes m;
     numX := numX m; numY := numY m; numZ := numZ m;
     myNumZ := myNumZ m; myStartZ := myStartZ m;
     processorCount := processorCount m; myProcessor := myProcessor m;
     offX := offX m; offY := offY m; offZ := offZ m;
     sclX := sclX m; sclY := sclY m; sclZ := sclZ m;
     doRotation := doRotation m |}.

Definition set_rotmat (v : list (list double)) (m : GeneratedMesh) :=
  {| shellBlocks := shellBlocks m; rotmat := v; faceNodes := faceNodes m;
     numX := numX m; numY := numY m; numZ := numZ m;
     myNumZ := myNumZ m; myStartZ := myStartZ m;
     processorCount := processorCount m; myProcessor := myProcessor m;
     offX := offX m; offY := offY m; offZ := offZ m;
     sclX := sclX m; sclY := sclY m; sclZ := sclZ m;
     doRotation := doRotation m |}.

Definition set_faceNodes (v : list (list Z)) (m : GeneratedMesh) :=
  {| shellBlocks := shellBlocks m; rotmat := rotmat m; faceNodes := v;
     numX := numX m; numY := numY m; numZ := numZ m;
     myNumZ := myNumZ m; myStartZ := myStartZ m;
     processorCount := processorCount m; myProcessor := myProcessor m;
     offX := offX m; offY := offY m; offZ := offZ m;
     sclX := sclX m; sclY := sclY m; sclZ := sclZ m;
     doRotation := doRotation m |}.

Definition set_intervals (nx ny nz : Z) (m : GeneratedMesh) :=
  {| shellBlocks := shellBlocks m; rotmat := rotmat m;
     faceNodes := faceNodes m;
     numX := nx; numY := ny; numZ := nz;
     myNumZ := myNumZ m; myStartZ := myStartZ m;
     processorCount := processorCount m; myProcessor := myProcessor m;
     offX := offX m; offY := offY m; offZ := offZ m;
     sclX := sclX m; sclY := sclY m; sclZ := sclZ m;
     doRotation := doRotation m |}.

Definition set_slab (my_num_z my_start_z : Z) (m : GeneratedMesh) :=
  {| shellBlocks := shellBlocks m; rotmat := rotmat m;
     faceNodes := faceNodes m;
     numX := numX m; numY := numY m; numZ := numZ m;
     myNumZ := my_num_z; myStartZ := my_start_z;
     processorCount := processorCount m; myProcessor := myProcessor m;
     offX := offX m; offY := offY m; offZ := offZ m;
     sclX := sclX m; sclY := sclY m; sclZ := sclZ m;
     doRotation := doRotation m |}.

Definition set_doRotation (b : bool) (m : GeneratedMesh) :=
  {| shellBlocks := shellBlocks m; rotmat := rotmat m;
     faceNodes := faceNodes m;
     numX := numX m; numY := numY m; numZ := numZ m;
     myNumZ := myNumZ m; myStartZ := myStartZ m;
     processorCount := processorCount m; myProcessor := myProcessor m;
     offX := offX m; offY := offY m; offZ := offZ m;
     sclX := sclX m; sclY := sclY m; sclZ := sclZ m;
     doRotation := b |}.

(** ** Small matrices: [a[i][j]] for constant, in-range indices *)

Definition mat_get {A} (dflt : A) (a : list (list A)) (i j : nat) : A :=
  default dflt (a !! i ≫= (.!! j)).

Definition mat_set {A} (a : list (list A)) (i j : nat) (v : A)
    : list (list A) :=
  alter (<[j := v]>) i a.

(** The contents of an array member before its first assignment. *)
Definition indeterminate {A} (rows cols : nat) (x : A) : list (list A) :=
  replicate rows (replicate cols x).

(** ** Construction *)

Definition initialize (m : GeneratedMesh) : option GeneratedMesh :=
  if decide (processorCount m <= numZ m) then
    let m :=
      if decide (1 < processorCount m) then
        let my_num_z := numZ m / processorCount m in
        let my_num_z :=
          if decide (myProcessor m < numZ m mod processorCount m)
          then wrap (my_num_z + 1) else my_num_z in
        let extra := numZ m mod processorCount m in
        let extra :=
          if decide (myProcessor m < extra) then myProcessor m else extra in
        let per_proc := numZ m / processorCount m in
        set_slab my_num_z (wrap (myProcessor m * per_proc + extra)) m
      else set_slab (numZ m) (myStartZ m) m in
    let rot :=
      foldl (fun a i =>
               mat_set (foldl (fun a j => mat_set a i j (d_of_Z 0)) a
                          [0; 1; 2]%nat) i i (d_of_Z 1))
            (rotmat m) [0; 1; 2]%nat in
    let m := set_rotmat rot m in
    Some (set_faceNodes
            [[1; 2; 6; 5]; [2; 3; 7; 6]; [3; 4; 8; 7];
             [4; 1; 5; 8]; [4; 3; 2; 1]; [5; 6; 7; 8]] m)
  else None.

(** The member initialisers of [GeneratedMesh(int num_x, int num_y,
    int num_z, int proc_count, int my_proc)]. *)
Definition member_init (num_x num_y num_z proc_count my_proc : Z)
    : GeneratedMesh :=
  {| shellBlocks := [];
     rotmat := indeterminate 3 3 (d_of_Z 0);
     faceNodes := indeterminate 6 4 0;
     numX := wrap num_x; numY := wrap num_y; numZ := wrap num_z;
     myNumZ := wrap num_z; myStartZ := 0;
     processorCount := wrap proc_count; myProcessor := wrap my_proc;
     offX := d_of_Z 0; offY := d_of_Z 0; offZ := d_of_Z 0;
     sclX := d_of_Z 1; sclY := d_of_Z 1; sclZ := d_of_Z 1;
     doRotation := false |}.

(** [GeneratedMesh(int num_x, int num_y, int num_z, int proc_count,
    int my_proc)]. *)
Definition GeneratedMesh_of_ints (num_x num_y num_z proc_count my_proc : Z)
    : option GeneratedMesh :=
  initialize (member_init num_x num_y num_z proc_count my_proc).

(** ** Mutators *)

Definition add_shell_block (loc : ShellLocation) (m : GeneratedMesh)
    : GeneratedMesh * Z :=
  let blocks := shellBlocks m ++ [loc] in
  (set_shellBlocks blocks m, Z.of_nat (length blocks)).

Definition set_scale (scl_x scl_y scl_z : double) (m : GeneratedMesh) :=
  {| shellBlocks := shellBlocks m; rotmat := rotmat m;
     faceNodes := faceNodes m;
     numX := numX m; numY := numY m; numZ := numZ m;
     myNumZ := myNumZ m; myStartZ := myStartZ m;
     processorCount := processorCount m; myProcessor := myProcessor m;
     offX := offX m; offY := offY m; offZ := offZ m;
     sclX := scl_x; sclY := scl_y; sclZ := scl_z;
     doRotation := doRotation m |}.

Definition set_offset (off_x off_y off_z : double) (m : GeneratedMesh) :=
  {| shellBlocks := shellBlocks m; rotmat := rotmat m;
     faceNodes := faceNodes m;
     numX := numX m; numY := numY m; numZ := numZ m;
     myNumZ := myNumZ m; myStartZ := myStartZ m;
     processorCount := processorCount m; myProcessor := myProcessor m;
     offX := off_x; offY := off_y; offZ := off_z;
     sclX := sclX m; sclY := sclY m; sclZ := sclZ m;
     doRotation := doRotation m |}.

Definition set_bbox (xmin ymin zmin xmax ymax zmax : double)
    (m : GeneratedMesh) : GeneratedMesh :=
  let x_range := d_sub xmax xmin in
  let y_range := d_sub ymax ymin in
  let z_range := d_sub zmax zmin in
  let m := set_scale (d_div x_range (d_of_Z (numX m)))
                     (d_div y_range (d_of_Z (numY m)))
                     (d_div z_range (d_of_Z (numZ m))) m in
  set_offset xmin ymin zmin m.

Definition set_rotation (axis : string) (angle_degrees : double)
    (m : GeneratedMesh) : GeneratedMesh * list message :=
  let degang :=
    d_div (d_atan2 (d_of_Z 0) (d_neg (d_of_Z 1))) (d_of_Z 180) in
  let m := set_doRotation true m in
  let ns : option (nat * nat * nat) :=
    if (axis =? "x")%string || (axis =? "X")%string then Some (1, 2, 0)%nat
    else if (axis =? "y")%string || (axis =? "Y")%string
         then Some (2, 0, 1)%nat
    else if (axis =? "z")%string || (axis =? "Z")%string
         then Some (0, 1, 2)%nat
    else None in
  match ns with
  | None => (m, [InvalidAxis axis])
  | Some (n1, n2, n3) =>
      let ang := d_mul angle_degrees degang in
      let cosang := d_cos ang in
      let sinang := d_sin ang in
      let z := d_of_Z 0 in
      let by0 := indeterminate 3 3 z in
      let by0 := mat_set by0 n1 n1 cosang in
      let by0 := mat_set by0 n2 n1 (d_neg sinang) in
      let by0 := mat_set by0 n1 n3 z in
      let by0 := mat_set by0 n1 n2 sinang in
      let by0 := mat_set by0 n2 n2 cosang in
      let by0 := mat_set by0 n2 n3 z in
      let by0 := mat_set by0 n3 n1 z in
      let by0 := mat_set by0 n3 n2 z in
      let by0 := mat_set by0 n3 n3 (d_of_Z 1) in
      let r := mat_get z (rotmat m) in
      let b := mat_get z by0 in
      let dot i j :=
        d_add (d_add (d_mul (r i 0%nat) (b 0%nat j))
                     (d_mul (r i 1%nat) (b 1%nat j)))
              (d_mul (r i 2%nat) (b 2%nat j)) in
      let res :=
        foldl (fun res i =>
                 let res := mat_set res i 0%nat (dot i 0%nat) in
                 let res := mat_set res i 1%nat (dot i 1%nat) in
                 mat_set res i 2%nat (dot i 2%nat))
              (indeterminate 3 3 z) [0; 1; 2]%nat in
      (set_rotmat res m, [])
  end.

(** ** Counts *)

Definition node_count (m : GeneratedMesh) : Z :=
  wrap ((numX m + 1) * (numY m + 1) * (numZ m + 1)).

Definition node_count_proc (m : GeneratedMesh) : Z :=
  wrap ((numX m + 1) * (numY m + 1) * (myNumZ m + 1)).

Definition block_count (m : GeneratedMesh) : Z :=
  wrap (Z.of_nat (length (shellBlocks m)) + 1).

Definition shell_element_count (m : GeneratedMesh) (loc : ShellLocation)
    : Z :=
  match loc with
  | MX | PX => wrap (numY m * numZ m)
  | MY | PY => wrap (numX m * numZ m)
  | MZ | PZ => wrap (numX m * numY m)
  end.

Definition shell_element_count_proc (m : GeneratedMesh)
    (loc : ShellLocation) : Z :=
  match loc with
  | MX | PX => wrap (numY m * myNumZ m)
  | MY | PY => wrap (numX m * myNumZ m)
  | MZ =>
      if decide (myProcessor m = 0) then wrap (numX m * numY m) else 0
  | PZ =>
      if decide (myProcessor m = wrap (processorCount m - 1))
      then wrap (numX m * numY m) else 0
  end.

(** [element_count(size_t block_number)]. *)
Definition element_count_block (m : GeneratedMesh) (block_number : Z)
    : option Z :=
  if decide (block_number <= block_count m) then
    if decide (block_number = 1) then
      Some (wrap (numX m * numY m * numZ m))
    else
      loc ← load (shellBlocks m) (wrap (block_number - 2));
      Some (shell_element_count m loc)
  else None.

(** [element_count_proc(size_t block_number)]. *)
Definition element_count_proc_block (m : GeneratedMesh) (block_number : Z)
    : option Z :=
  if decide (block_number <= block_count m) then
    if decide (block_number = 1) then
      Some (wrap (numX m * numY m * myNumZ m))
    else
      loc ← load (shellBlocks m) (wrap (block_number - 2));
      Some (shell_element_count_proc m loc)
  else None.

Definition element_count (m : GeneratedMesh) : option Z :=
  count ← element_count_block m 1;
  for_range 0 (Z.of_nat (length (shellBlocks m)))
    (fun i count =>
       e ← element_count_block m (wrap (i + 2));
       Some (wrap (count + e)))
    count.

Definition element_count_proc (m : GeneratedMesh) : option Z :=
  for_range 0 (block_count m)
    (fun i count =>
       e ← element_count_proc_block m (wrap (i + 1));
       Some (wrap (count + e)))
    0.

Definition topology_type (m : GeneratedMesh) (block_number : Z)
    : option (string * Z) :=
  if decide (block_number <= block_count m /\ 0 < block_number) then
    if decide (block_number = 1) then Some ("hex8"%string, 8)
    else Some ("shell4"%string, 4)
  else None.

(** ** Global identifier maps *)

Definition node_map (m : GeneratedMesh) (map : list Z) : option (list Z) :=
  let count := node_count_proc m in
  let map := resize count 0 map in
  let offset := wrap (myStartZ m * (numX m + 1) * (numY m + 1)) in
  for_range 0 count
    (fun i map => store map i (to_int (wrap (offset + i + 1))))
    map.

Definition node_communication_map (m : GeneratedMesh) (map proc : list Z)
    : option (list Z * list Z) :=
  let count := wrap ((numX m + 1) * (numY m + 1)) in
  let slab := count in
  let count :=
    if decide (myProcessor m <> 0 /\
               myProcessor m <> wrap (processorCount m - 1))
    then wrap (count * 2) else count in
  let map := resize count 0 map in
  let proc := resize count 0 proc in
  let j := 0 in
  let emit (offset neighbour : Z) :=
    fun (i : Z) '(j, map, proc) =>
      map ← store map j (to_int (wrap (offset + i + 1)));
      proc ← store proc j (to_int neighbour);
      Some (wrap (j + 1), map, proc) in
  st ←
    (if decide (myProcessor m <> 0) then
       let offset := wrap (myStartZ m * (numX m + 1) * (numY m + 1)) in
       for_range 0 slab (emit offset (wrap (myProcessor m - 1)))
         (j, map, proc)
     else Some (j, map, proc));
  '(_, map, proc) ←
    (if decide (myProcessor m <> wrap (processorCount m - 1)) then
       let offset :=
         wrap ((myStartZ m + myNumZ m) * (numX m + 1) * (numY m + 1)) in
       for_range 0 slab (emit offset (wrap (myProcessor m + 1))) st
     else Some st);
  Some (map, proc).

(** The offset of a shell block in the numbering of its elements. *)
Definition shell_offset (m : GeneratedMesh) (loc : ShellLocation) : Z :=
  match loc with
  | MX | PX => wrap (myStartZ m * numY m)
  | MY | PY => wrap (myStartZ m * numX m)
  | MZ | PZ => 0
  end.

(** [element_map(size_t block_number, std::vector<int> &map)]. *)
Definition element_map_block (m : GeneratedMesh) (block_number : Z)
    (map : list Z) : option (list Z) :=
  if decide (block_number <= block_count m /\ 0 < block_number) then
    count ← element_count_proc_block m block_number;
    let map := resize count 0 map in
    if decide (block_number = 1) then
      count ← element_count_proc_block m 1;
      let offset := wrap (myStartZ m * numX m * numY m) in
      for_range 0 count
        (fun i map => store map i (to_int (wrap (offset + i + 1))))
        map
    else
      start ← element_count_block m 1;
      '(_, map) ←
        for_range 0 (Z.of_nat (length (shellBlocks m)))
          (fun ib '(start, map) =>
             count ← element_count_proc_block m (wrap (ib + 2));
             if decide (block_number = wrap (ib + 2)) then
               loc ← load (shellBlocks m) ib;
               let offset := shell_offset m loc in
               map ←
                 for_range 0 count
                   (fun i map =>
                      store map i (to_int (wrap (start + offset + i + 1))))
                   map;
               Some (start, map)
             else
               e ← element_count_block m (wrap (ib + 2));
               Some (wrap (start + e), map))
          (start, map);
      Some map
  else None.

(** [element_map(std::vector<int> &map)]. *)
Definition element_map (m : GeneratedMesh) (map : list Z)
    : option (list Z) :=
  count ← element_count_proc m;
  let map := resize count 0 map in
  let k := 0 in
  count ← element_count_proc_block m 1;
  let offset := wrap (myStartZ m * numX m * numY m) in
  '(k, map) ←
    for_range 0 count
      (fun i '(k, map) =>
         map ← store map k (to_int (wrap (offset + i + 1)));
         Some (wrap (k + 1), map))
      (k, map);
  start ← element_count_block m 1;
  '(_, _, map) ←
    for_range 0 (Z.of_nat (length (shellBlocks m)))
      (fun ib '(start, k, map) =>
         count ← element_count_proc_block m (wrap (ib + 2));
         loc ← load (shellBlocks m) ib;
         let offset := shell_offset m loc in
         '(k, map) ←
           for_range 0 count
             (fun i '(k, map) =>
                map ← store map k (to_int (wrap (start + offset + i + 1)));
                Some (wrap (k + 1), map))
             (k, map);
         e ← element_count_block m (wrap (ib + 2));
         Some (wrap (start + e), k, map))
      (start, k, map);
  Some map.

(** ** Element/side pairs of a boundary surface *)

(** The body shared by the four side faces: [map[2*index] = elem;
    map[2*index+1] = face; ++index]. *)
Definition side_entry (elem face : Z) (st : Z * list Z)
    : option (Z * list Z) :=
  let '(index, map) := st in
  map ← store map (wrap (2 * index)) elem;
  map ← store map (wrap (2 * index + 1)) face;
  Some (wrap (index + 1), map).

Definition element_surface_map (m : GeneratedMesh) (loc : ShellLocation)
    (map : list Z) : option (list Z) :=
  let count := shell_element_count_proc m loc in
  let map := resize (wrap (2 * count)) 0 map in
  let nx := numX m in
  let ny := numY m in
  match loc with
  | MX =>
      '(_, map) ←
        for_range 0 (numZ m) (fun k =>
          for_range 0 ny (fun j =>
            let ielem := wrap (k * nx * ny + j * nx) in
            side_entry (to_int (wrap (ielem + 1))) 3))
          (0, map);
      Some map
  | PX =>
      let offset := wrap (nx - 1) in
      '(_, map) ←
        for_range 0 (numZ m) (fun k =>
          for_range 0 ny (fun j =>
            let ielem := wrap (offset + k * nx * ny + j * nx + 1) in
            side_entry (to_int ielem) 1))
          (0, map);
      Some map
  | MY =>
      '(_, map) ←
        for_range 0 (numZ m) (fun k =>
          for_range 0 nx (fun i =>
            let ielem := wrap (k * nx * ny + i + 1) in
            side_entry (to_int ielem) 0))
          (0, map);
      Some map
  | PY =>
      let offset := wrap ((ny - 1) * nx) in
      '(_, map) ←
        for_range 0 (numZ m) (fun k =>
          for_range 0 nx (fun i =>
            let ielem := wrap (offset + k * nx * ny + i) in
            side_entry (to_int (wrap (ielem + 1))) 2))
          (0, map);
      Some map
  | MZ =>
      for_range 0 ny (fun j =>
        for_range 0 nx (fun i map =>
          let ielem := wrap (j * nx + i) in
          let index := wrap (2 * ielem) in
          map ← store map index (to_int (wrap (ielem + 1)));
          store map (wrap (index + 1)) 4))
        map
  | PZ =>
      let offset := wrap ((numZ m - 1) * nx * ny) in
      for_range 0 ny (fun j =>
        for_range 0 nx (fun i map =>
          let ielem := wrap (offset + j * nx + i) in
          let index := wrap (2 * (ielem - offset)) in
          map ← store map index (to_int (wrap (ielem + 1)));
          store map (wrap (index + 1)) 5))
        map
  end.

(** ** Coordinates *)

(** [v[k++] = x]. *)
Definition put {A} (x : A) (st : Z * list A) : option (Z * list A) :=
  let '(k, v) := st in
  v ← store v k x;
  Some (wrap (k + 1), v).

(** [xn * rotmat[0][c] + yn * rotmat[1][c] + zn * rotmat[2][c]], the
    expression both variants of [coordinates] assign for column [c]. *)
Definition rotated (m : GeneratedMesh) (c : nat) (xn yn zn : double)
    : double :=
  let r := mat_get (d_of_Z 0) (rotmat m) in
  d_add (d_add (d_mul xn (r 0%nat c)) (d_mul yn (r 1%nat c)))
        (d_mul zn (r 2%nat c)).

(** [scl * static_cast<double>(n) + off]. *)
Definition affine (scl off : double) (n : Z) : double :=
  d_add (d_mul scl (d_of_Z n)) off.

(** [coordinates(std::vector<double> &coord)]: interleaved. *)
Definition coordinates (m : GeneratedMesh) (coord : list double)
    : option (list double) :=
  let count := node_count_proc m in
  let coord := resize (wrap (count * 3)) (d_of_Z 0) coord in
  '(_, coord) ←
    for_range (myStartZ m) (wrap (myStartZ m + myNumZ m + 1)) (fun mz =>
      for_range 0 (wrap (numY m + 1)) (fun i =>
        for_range 0 (wrap (numX m + 1)) (fun j st =>
          st ← put (affine (sclX m) (offX m) j) st;
          st ← put (affine (sclY m) (offY m) i) st;
          put (affine (sclZ m) (offZ m) mz) st)))
      (0, coord);
  if doRotation m then
    for_step3 (wrap (count * 3))
      (fun i coord =>
         xn ← load coord (wrap (i + 0));
         yn ← load coord (wrap (i + 1));
         zn ← load coord (wrap (i + 2));
         coord ← store coord (wrap (i + 0)) (rotated m 0 xn yn zn);
         coord ← store coord (wrap (i + 1)) (rotated m 1 xn yn zn);
         store coord (wrap (i + 2)) (rotated m 2 xn yn zn))
      coord
  else Some coord.

(** [coordinates(std::vector<double> &x, std::vector<double> &y,
    std::vector<double> &z)]: separated. *)
Definition coordinates_xyz (m : GeneratedMesh) (x y z : list double)
    : option (list double * list double * list double) :=
  let count := node_count_proc m in
  let x := resize count (d_of_Z 0) x in
  let y := resize count (d_of_Z 0) y in
  let z := resize count (d_of_Z 0) z in
  '(_, x, y, z) ←
    for_range (myStartZ m) (wrap (myStartZ m + myNumZ m + 1)) (fun mz =>
      for_range 0 (wrap (numY m + 1)) (fun i =>
        for_range 0 (wrap (numX m + 1)) (fun j '(k, x, y, z) =>
          x ← store x k (affine (sclX m) (offX m) j);
          y ← store y k (affine (sclY m) (offY m) i);
          z ← store z k (affine (sclZ m) (offZ m) mz);
          Some (wrap (k + 1), x, y, z))))
      (0, x, y, z);
  if doRotation m then
    for_range 0 count
      (fun i '(x, y, z) =>
         xn ← load x i;
         yn ← load y i;
         zn ← load z i;
         x ← store x i (rotated m 0 xn yn zn);
         y ← store y i (rotated m 1 xn yn zn);
         z ← store z i (rotated m 2 xn yn zn);
         Some (x, y, z))
      (x, y, z)
  else Some (x, y, z).

(** ** Connectivity *)

(** Four consecutive entries of a connectivity array. *)
Definition put4 (a b c d : Z) (st : Z * list Z) : option (Z * list Z) :=
  st ← put (to_int a) st;
  st ← put (to_int b) st;
  st ← put (to_int c) st;
  put (to_int d) st.

(** A loop nest [for (i = 0, k = 0; i < ni; i++)
    for (j = 0; j < nj; j++, k++) body]. *)
Definition for_grid {St} (ni nj : Z) (body : Z -> Z -> Z -> St -> option St)
    (s : St) : option St :=
  '(_, s) ←
    for_range 0 ni (fun i =>
      for_range 0 nj (fun j '(k, s) =>
        s ← body i j k s;
        Some (wrap (k + 1), s)))
      (0, s);
  Some s.

Definition connectivity (m : GeneratedMesh) (block_number : Z)
    (connect : list Z) : option (list Z) :=
  if decide (block_number <= block_count m) then
    let nx := numX m in
    let ny := numY m in
    let xp1yp1 := wrap ((nx + 1) * (ny + 1)) in
    if decide (block_number = 1) then
      count ← element_count_proc_block m block_number;
      let connect := resize (wrap (count * 8)) 0 connect in
      '(_, connect) ←
        for_range (myStartZ m) (wrap (myNumZ m + myStartZ m)) (fun mz =>
          for_grid ny nx (fun i j k st =>
            let base :=
              wrap (mz * xp1yp1 + k + i + 1 - myStartZ m * xp1yp1) in
            st ← put4 base (wrap (base + 1)) (wrap (base + nx + 2))
                      (wrap (base + nx + 1)) st;
            put4 (wrap (xp1yp1 + base)) (wrap (xp1yp1 + base + 1))
                 (wrap (xp1yp1 + base + nx + 2))
                 (wrap (xp1yp1 + base + nx + 1)) st))
          (0, connect);
      Some connect
    else
      loc ← load (shellBlocks m) (wrap (block_number - 2));
      count ← element_count_block m block_number;
      let connect := resize (wrap (count * 4)) 0 connect in
      let cnt := 0 in
      '(_, connect) ←
        match loc with
        | MX =>
            for_range 0 (myNumZ m) (fun i =>
              let layer_off := wrap (i * xp1yp1) in
              for_range 0 ny (fun j =>
                let base := wrap (layer_off + j * (nx + 1) + 1) in
                put4 base (wrap (base + xp1yp1))
                     (wrap (base + xp1yp1 + (nx + 1)))
                     (wrap (base + (nx + 1)))))
              (cnt, connect)
        | PX =>
            for_range 0 (myNumZ m) (fun i =>
              let layer_off := wrap (i * xp1yp1) in
              for_range 0 ny (fun j =>
                let base := wrap (layer_off + j * (nx + 1) + nx + 1) in
                put4 base (wrap (base + (nx + 1)))
                     (wrap (base + xp1yp1 + (nx + 1)))
                     (wrap (base + xp1yp1))))
              (cnt, connect)
        | MY =>
            for_range 0 (myNumZ m) (fun i =>
              let layer_off := wrap (i * xp1yp1) in
              for_range 0 nx (fun j =>
                let base := wrap (layer_off + j + 1) in
                put4 base (wrap (base + 1)) (wrap (base + xp1yp1 + 1))
                     (wrap (base + xp1yp1))))
              (cnt, connect)
        | PY =>
            for_range 0 (myNumZ m) (fun i =>
              let layer_off := wrap (i * xp1yp1) in
              for_range 0 nx (fun j =>
                let base := wrap (layer_off + (nx + 1) * ny + j + 1) in
                put4 base (wrap (base + xp1yp1))
                     (wrap (base + xp1yp1 + 1)) (wrap (base + 1))))
              (cnt, connect)
        | MZ =>
            if decide (myProcessor m = 0) then
              for_grid ny nx (fun i j k =>
                let base := wrap (i + k + 1) in
                put4 base (wrap (base + nx + 1)) (wrap (base + nx + 2))
                     (wrap (base + 1)))
                (cnt, connect)
            else Some (cnt, connect)
        | PZ =>
            if decide (myProcessor m = wrap (processorCount m - 1)) then
              for_grid ny nx (fun i j k =>
                let base :=
                  wrap (xp1yp1 * (numZ m - myStartZ m) + k + i + 1) in
                put4 base (wrap (base + 1)) (wrap (base + nx + 2))
                     (wrap (base + nx + 1)))
                (cnt, connect)
            else Some (cnt, connect)
        end;
      Some connect
  else None.

(** ** The option parser *)

Definition show_parameters (m : GeneratedMesh) : option (list message) :=
  if decide (myProcessor m = 0) then
    elements ← element_count m;
    Some [MeshParameters (node_count m) elements (block_count m)
            (doRotation m)]
  else Some [].

(** The argument of [shell:], one face code after the other. *)
Definition parse_shell (arg : string) (st : GeneratedMesh * list message)
    : GeneratedMesh * list message :=
  foldl (fun '(m, log) (c : ascii) =>
           match c with
           | "x"%char => ((add_shell_block MX m).1, log)
           | "X"%char => ((add_shell_block PX m).1, log)
           | "y"%char => ((add_shell_block MY m).1, log)
           | "Y"%char => ((add_shell_block PY m).1, log)
           | "z"%char => ((add_shell_block MZ m).1, log)
           | "Z"%char => ((add_shell_block PZ m).1, log)
           | _ => (m, log ++ [UnrecognizedShell c])
           end)
        st (list_ascii_of_string arg).

(** The argument of [zdecomp:], already split at the commas. *)
Definition parse_zdecomp (tokens : list string) (m : GeneratedMesh)
    : option GeneratedMesh :=
  if decide (Z.of_nat (length tokens) = processorCount m) then
    '(num_z, Zs) ←
      for_range 0 (processorCount m)
        (fun j '(num_z, Zs) =>
           t ← load tokens j;
           let Zs := Zs ++ [wrap (strtol t)] in
           zj ← load Zs j;
           Some (wrap (num_z + zj), Zs))
        (0, []);
    my_num_z ← load Zs (myProcessor m);
    my_start_z ←
      for_range 0 (myProcessor m)
        (fun j my_start_z =>
           zj ← load Zs j;
           Some (wrap (my_start_z + zj)))
        0;
    Some (set_slab my_num_z my_start_z
            (set_intervals (numX m) (numY m) num_z m))
  else None.

(** One round of the loop of [parse_options]; [opt] is the group split at
    the colon ([option] in the source). *)
Definition parse_option (opt : list string)
    (st : GeneratedMesh * list message)
    : option (GeneratedMesh * list message) :=
  let '(m, log) := st in
  key ← load opt 0;
  if (key =? "shell")%string then
    arg ← load opt 1;
    Some (parse_shell arg (m, log))
  else if (key =? "scale")%string then
    arg ← load opt 1;
    let tokens := tokenize arg "," in
    if decide (length tokens = 3%nat) then
      t0 ← load tokens 0; t1 ← load tokens 1; t2 ← load tokens 2;
      Some (set_scale (strtod t0) (strtod t1) (strtod t2) m, log)
    else None
  else if (key =? "offset")%string then
    arg ← load opt 1;
    let tokens := tokenize arg "," in
    if decide (length tokens = 3%nat) then
      t0 ← load tokens 0; t1 ← load tokens 1; t2 ← load tokens 2;
      Some (set_offset (strtod t0) (strtod t1) (strtod t2) m, log)
    else None
  else if (key =? "zdecomp")%string then
    arg ← load opt 1;
    m ← parse_zdecomp (tokenize arg ",") m;
    Some (m, log)
  else if (key =? "bbox")%string then
    arg ← load opt 1;
    let tokens := tokenize arg "," in
    if decide (length tokens = 6%nat) then
      t0 ← load tokens 0; t1 ← load tokens 1; t2 ← load tokens 2;
      t3 ← load tokens 3; t4 ← load tokens 4; t5 ← load tokens 5;
      Some (set_bbox (strtod t0) (strtod t1) (strtod t2)
                     (strtod t3) (strtod t4) (strtod t5) m, log)
    else None
  else if (key =? "rotate")%string then
    arg ← load opt 1;
    let tokens := tokenize arg "," in
    if decide (Z.of_nat (length tokens) mod 2 = 0) then
      iterate (length tokens / 2)%nat 0 2
        (fun ir '(m, log) =>
           axis ← load tokens ir;
           angle ← load tokens (ir + 1);
           let '(m, msgs) := set_rotation axis (strtod angle) m in
           Some (m, log ++ msgs))
        (m, log)
    else None
  else if (key =? "help")%string then Some (m, log ++ [HelpText])
  else if (key =? "show")%string then
    msgs ← show_parameters m;
    Some (m, log ++ msgs)
  else Some (m, log ++ [UnrecognizedOption key]).

Definition parse_options (groups : list string)
    (st : GeneratedMesh * list message)
    : option (GeneratedMesh * list message) :=
  for_range 1 (Z.of_nat (length groups))
    (fun i st =>
       group ← load groups i;
       parse_option (tokenize group ":") st)
    st.

(** [GeneratedMesh(const std::string &parameters, int proc_count,
    int my_proc)]. *)
Definition GeneratedMesh_of_string (parameters : string)
    (proc_count my_proc : Z) : option (GeneratedMesh * list message) :=
  let groups := tokenize parameters "|+" in
  group ← load groups 0;
  let tokens := tokenize group "x" in
  if decide (length tokens = 3%nat) then
    t0 ← load tokens 0; t1 ← load tokens 1; t2 ← load tokens 2;
    m ← initialize
          {| shellBlocks := [];
             rotmat := indeterminate 3 3 (d_of_Z 0);
             faceNodes := indeterminate 6 4 0;
             numX := wrap (strtol t0); numY := wrap (strtol t1);
             numZ := wrap (strtol t2);
             myNumZ := 0; myStartZ := 0;
             processorCount := wrap proc_count;
             myProcessor := wrap my_proc;
             offX := d_of_Z 0; offY := d_of_Z 0; offZ := d_of_Z 0;
             sclX := d_of_Z 1; sclY := d_of_Z 1; sclZ := d_of_Z 1;
             doRotation := false |};
    parse_options groups (m, [])
  else None.

End Mesh.

Arguments GeneratedMesh {_}.

(** ** Instances used to run the model *)

(** Doubles as the expressions that compute them: the free interpretation
    of the operations of [Double]. *)
Inductive dterm :=
  | DLit (z : Z)
  | DAdd (a b : dterm)
  | DSub (a b : dterm)
  | DMul (a b : dterm)
  | DDiv (a b : dterm)
  | DNeg (a : dterm)
  | DCos (a : dterm)
  | DSin (a : dterm)
  | DAtan2 (a b : dterm)
  | DParse (s : string).

Definition SymbolicDouble : Double :=
  {| double := dterm; d_of_Z := DLit; d_add := DAdd; d_sub := DSub;
     d_mul := DMul; d_div := DDiv; d_neg := DNeg; d_cos := DCos;
     d_sin := DSin; d_atan2 := DAtan2; strtod := DParse |}.

Definition is_separator (separators : string) (c : ascii) : bool :=
  existsb (Ascii.eqb c) (list_ascii_of_string separators).

Fixpoint split_tokens (separators : string) (cur : string) (s : string)
    : list string :=
  let flush := if (cur =? "")%string then [] else [cur] in
  match s with
  | EmptyString => flush
  | String c s' =>
      if is_separator separators c
      then flush ++ split_tokens separators "" s'
      else split_tokens separators (cur ++ String c "")%string s'
  end.

(** Modelled from the spec: [stk::io::util::tokenize] of [tokenize.hpp],
    which is not among the sources.  The specification string is a list of
    groups separated by [|], the intervals are separated by [x], a key and
    its argument by [:], and the values of an argument by commas; the
    tokens are the maximal runs of characters that are not separators. *)
Definition tokenize_model (s separators : string) : list string :=
  split_tokens separators "" s.

(** ** Vocabulary of the statements *)

(** The local nodes [(j, i, m)] of a rank in their order: layer after layer
    ([m], the global Z index, from [myStartZ] to [myStartZ + myNumZ]
    inclusive), row after row ([i], along Y), then along X ([j]). *)
Definition local_nodes `{Double} (m : GeneratedMesh) : list (Z * Z * Z) :=
  mz ← seqZ (myStartZ m) (myNumZ m + 1);
  i ← seqZ 0 (numY m + 1);
  j ← seqZ 0 (numX m + 1);
  [(j, i, mz)].

(** The coordinate of node [(j, i, m)] before any rotation. *)
Definition node_coordinate `{Double} (m : GeneratedMesh) (p : Z * Z * Z)
    : double * double * double :=
  let '(j, i, mz) := p in
  (d_add (d_mul (sclX m) (d_of_Z j)) (offX m),
   d_add (d_mul (sclY m) (d_of_Z i)) (offY m),
   d_add (d_mul (sclZ m) (d_of_Z mz)) (offZ m)).

(** A coordinate triple multiplied by the rotation matrix, [out = in . R]. *)
Definition rotate_node `{Double} (m : GeneratedMesh)
    (c : double * double * double) : double * double * double :=
  let '(x, y, z) := c in
  (rotated m 0 x y z, rotated m 1 x y z, rotated m 2 x y z).

(** The coordinate [coordinates] is to produce for a node. *)
Definition final_coordinate `{Double} (m : GeneratedMesh) (p : Z * Z * Z)
    : double * double * double :=
  if doRotation m then rotate_node m (node_coordinate m p)
  else node_coordinate m p.

(** Records of three values laid out one after the other. *)
Definition interleave {A} (cs : list (A * A * A)) : list A :=
  '(x, y, z) ← cs; [x; y; z].

(** The sizes of the coordinate arrays are representable. *)
Definition coordinates_fit `{Double} (m : GeneratedMesh) : Prop :=
  0 <= numX m /\ 0 <= numY m /\ 0 <= myNumZ m /\ 0 <= myStartZ m /\
  myStartZ m + myNumZ m + 1 < SIZE_MOD /\
  3 * ((numX m + 1) * (numY m + 1) * (myNumZ m + 1)) < SIZE_MOD.

(** A piece of code that appends: run with the write position at the end
    of [pre], it writes [out] over the next elements of the vector and
    leaves the write position after them. *)
Definition emits {A} (body : Z * list A -> option (Z * list A))
    (out : list A) : Prop :=
  forall pre rest,
    (length out <= length rest)%nat ->
    Z.of_nat (length pre + length rest) < SIZE_MOD ->
    exists rest',
      body (Z.of_nat (length pre), pre ++ rest)
      = Some (Z.of_nat (length pre + length out), pre ++ out ++ rest') /\
      length rest = (length out + length rest')%nat.

(** The same for code that appends to three vectors at one common
    position. *)
Definition emits3 {A}
    (body : Z * list A * list A * list A ->
            option (Z * list A * list A * list A))
    (out : list (A * A * A)) : Prop :=
  forall px py pz rx ry rz,
    length py = length px -> length pz = length px ->
    (length out <= length rx)%nat ->
    (length out <= length ry)%nat ->
    (length out <= length rz)%nat ->
    Z.of_nat (length px + length rx) < SIZE_MOD ->
    exists rx' ry' rz',
      body (Z.of_nat (length px), px ++ rx, py ++ ry, pz ++ rz)
      = Some (Z.of_nat (length px + length out),
              px ++ (out.*1.*1) ++ rx', py ++ (out.*1.*2) ++ ry',
              pz ++ (out.*2) ++ rz') /\
      length rx = (length out + length rx')%nat /\
      length ry = (length out + length ry')%nat /\
      length rz = (length out + length rz')%nat.

(** The global identifiers of the nodes of layer [layer] (a global Z
    index), row after row: node [(layer, i, j)] has identifier
    [layer * (numX+1) * (numY+1) + i * (numX+1) + j + 1]. *)
Definition layer_node_ids `{Double} (m : GeneratedMesh) (layer : Z)
    : list Z :=
  i ← seqZ 0 (numY m + 1);
  j ← seqZ 0 (numX m + 1);
  [layer * (numX m + 1) * (numY m + 1) + i * (numX m + 1) + j + 1].

(** The identifiers of all nodes of the rank fit an [int]. *)
Definition node_ids_fit `{Double} (m : GeneratedMesh) : Prop :=
  0 <= numX m /\ 0 <= numY m /\ 0 <= myNumZ m /\ 0 <= myStartZ m /\
  (numX m + 1) * (numY m + 1) * (myStartZ m + myNumZ m + 1) <= INT_MAX.

(** The rank is one of the [processorCount] ranks and the node identifiers
    and ranks fit an [int]. *)
Definition comm_fit `{Double} (m : GeneratedMesh) : Prop :=
  node_ids_fit m /\ 0 <= myProcessor m < processorCount m /\
  processorCount m <= INT_MAX.

Definition sum_Z (l : list Z) : Z := foldr Z.add 0 l.

(** The number of elements of a shell block in the whole mesh. *)
Definition shell_count (nx ny nz : Z) (loc : ShellLocation) : Z :=
  match loc with
  | MX | PX => ny * nz
  | MY | PY => nx * nz
  | MZ | PZ => nx * ny
  end.

(** The number of elements of the whole mesh: the hexahedra and the
    elements of every declared shell block. *)
Definition total_elements (nx ny nz : Z) (blocks : list ShellLocation)
    : Z :=
  nx * ny * nz + sum_Z (shell_count nx ny nz <$> blocks).

(** A mesh with positive interval counts, a slab within [0, numZ] and
    surface maps of representable size. *)
Definition surface_fit `{Double} (m : GeneratedMesh) : Prop :=
  0 < numX m /\ 0 < numY m /\ 0 < numZ m /\ 0 <= myNumZ m <= numZ m /\
  2 * (numX m * numZ m) < SIZE_MOD /\ 2 * (numY m * numZ m) < SIZE_MOD.

(** The members the options other than [zdecomp] leave alone. *)
Definition same_slab `{Double} (m m' : GeneratedMesh) : Prop :=
  processorCount m' = processorCount m /\ numZ m' = numZ m /\
  myNumZ m' = myNumZ m.

(** The slab of rank [r] in the uniform split of [nz] intervals over [P]
    ranks, as the specification gives it. *)
Definition uniform_start (nz P r : Z) : Z :=
  r * (nz / P) + Z.min (nz mod P) r.

Definition uniform_num (nz P r : Z) : Z :=
  nz / P + (if decide (r < nz mod P) then 1 else 0).

(** The mesh of rank [r] as the constructor leaves it, for running the
    generators on concrete meshes. *)
Definition constructed (nx ny nz P r : Z) : GeneratedMesh :=
  default (member_init (H:=SymbolicDouble) nx ny nz P r)
          (GeneratedMesh_of_ints nx ny nz P r).

(** The two ranks of a 2 x 2 x 4 mesh with shell blocks on the faces MX
    and PZ. *)
Definition example_ranks (r : Z) : GeneratedMesh :=
  (add_shell_block PZ (add_shell_block MX (constructed 2 2 4 2 r)).1).1.

(** [myStartZ] and [myNumZ] of rank [r] after the construction from
    integers. *)
Definition rank_slab `{Double} (nx ny nz P r : Z) : option (Z * Z) :=
  m ← GeneratedMesh_of_ints nx ny nz P r;
  Some (myStartZ m, myNumZ m).

(** ** Vocabulary of the element maps *)

(** The number of elements of a shell block on this rank. *)
Definition shell_count_proc `{Double} (m : GeneratedMesh)
    (loc : ShellLocation) : Z :=
  match loc with
  | MX | PX => numY m * myNumZ m
  | MY | PY => numX m * myNumZ m
  | MZ => if decide (myProcessor m = 0) then numX m * numY m else 0
  | PZ => if decide (myProcessor m = processorCount m - 1)
          then numX m * numY m else 0
  end.

(** The number of elements numbered before those of the shell block at
    position [ib] of [shellBlocks]: the hexahedra and the shell blocks
    declared before it. *)
Definition block_start `{Double} (m : GeneratedMesh) (ib : nat) : Z :=
  numX m * numY m * numZ m
  + sum_Z (shell_count (numX m) (numY m) (numZ m)
             <$> take ib (shellBlocks m)).

(** The position of the first shell element of this rank among the elements
    of its block. *)
Definition shell_first `{Double} (m : GeneratedMesh) (loc : ShellLocation)
    : Z :=
  match loc with
  | MX | PX => myStartZ m * numY m
  | MY | PY => myStartZ m * numX m
  | MZ | PZ => 0
  end.

(** The global identifiers of the elements of block [b] (numbered from 1,
    the hexahedra first) that this rank owns. *)
Definition block_element_ids `{Double} (m : GeneratedMesh) (b : Z)
    : list Z :=
  if decide (b = 1) then
    seqZ (myStartZ m * numX m * numY m + 1) (numX m * numY m * myNumZ m)
  else
    match shellBlocks m !! Z.to_nat (b - 2) with
    | Some loc =>
        seqZ (block_start m (Z.to_nat (b - 2)) + shell_first m loc + 1)
          (shell_count_proc m loc)
    | None => []
    end.

(** A rank of a mesh with positive interval counts whose slab lies within
    [0, numZ] and whose element identifiers fit an [int]. *)
Definition element_ids_fit `{Double} (m : GeneratedMesh) : Prop :=
  0 < numX m /\ 0 < numY m /\ 0 < numZ m /\
  0 <= myStartZ m /\ 0 <= myNumZ m /\ myStartZ m + myNumZ m <= numZ m /\
  0 < processorCount m <= INT_MAX /\
  total_elements (numX m) (numY m) (numZ m) (shellBlocks m) <= INT_MAX.

(** ** Vocabulary of the connectivity *)

(** The number (from 1) of the node in column [j], row [i] and layer [l] of
    a stack of layers of [(numX+1) * (numY+1)] nodes: the local number of a
    node when [l] counts the layers of the rank, its global identifier when
    [l] counts the layers of the mesh. *)
Definition grid_node_id `{Double} (m : GeneratedMesh) (p : Z * Z * Z) : Z :=
  let '(j, i, l) := p in
  l * ((numX m + 1) * (numY m + 1)) + i * (numX m + 1) + j + 1.

(** The corner nodes of the hexahedron [(j, i, l)]: the lower face counter
    clockwise, then the upper face. *)
Definition hex_corners (p : Z * Z * Z) : list (Z * Z * Z) :=
  let '(j, i, l) := p in
  [(j, i, l); (j + 1, i, l); (j + 1, i + 1, l); (j, i + 1, l);
   (j, i, l + 1); (j + 1, i, l + 1); (j + 1, i + 1, l + 1);
   (j, i + 1, l + 1)].

(** The hexahedra [(j, i, l)] of a rank in their order: layer after layer,
    row after row. *)
Definition local_hexes `{Double} (m : GeneratedMesh) : list (Z * Z * Z) :=
  l ← seqZ 0 (myNumZ m);
  i ← seqZ 0 (numY m);
  j ← seqZ 0 (numX m);
  [(j, i, l)].

(** The same hexahedra with the layers counted in the whole mesh. *)
Definition global_hexes `{Double} (m : GeneratedMesh) : list (Z * Z * Z) :=
  l ← seqZ (myStartZ m) (myNumZ m);
  i ← seqZ 0 (numY m);
  j ← seqZ 0 (numX m);
  [(j, i, l)].



(** The local node numbers of the rank fit an [int]. *)
Definition connectivity_fit `{Double} (m : GeneratedMesh) : Prop :=
  0 <= numX m /\ 0 <= numY m /\ 0 <= myNumZ m /\ 0 <= myStartZ m /\
  myStartZ m + myNumZ m < SIZE_MOD /\
  (numX m + 1) * (numY m + 1) * (myNumZ m + 1) <= INT_MAX /\
  Z.of_nat (length (shellBlocks m)) + 1 < SIZE_MOD.


(** ** Vocabulary of the surface maps *)

(** The global identifier of the hexahedron in column [j], row [i] and
    layer [l] of the mesh. *)
Definition hex_id `{Double} (m : GeneratedMesh) (p : Z * Z * Z) : Z :=
  let '(j, i, l) := p in l * numX m * numY m + i * numX m + j + 1.

(** The hexahedra of the whole mesh that touch a boundary, in the order of
    the surface map. *)
Definition surface_hexes `{Double} (m : GeneratedMesh) (loc : ShellLocation)
    : list (Z * Z * Z) :=
  match loc with
  | MX => l ← seqZ 0 (numZ m); i ← seqZ 0 (numY m); [(0, i, l)]
  | PX => l ← seqZ 0 (numZ m); i ← seqZ 0 (numY m); [(numX m - 1, i, l)]
  | MY => l ← seqZ 0 (numZ m); j ← seqZ 0 (numX m); [(j, 0, l)]
  | PY => l ← seqZ 0 (numZ m); j ← seqZ 0 (numX m); [(j, numY m - 1, l)]
  | MZ => i ← seqZ 0 (numY m); j ← seqZ 0 (numX m); [(j, i, 0)]
  | PZ => i ← seqZ 0 (numY m); j ← seqZ 0 (numX m); [(j, i, numZ m - 1)]
  end.

(** The local number (from 0) of the face of a hexahedron that lies on a
    boundary. *)
Definition surface_face (loc : ShellLocation) : Z :=
  match loc with
  | MX => 3 | PX => 1 | MY => 0 | PY => 2 | MZ => 4 | PZ => 5
  end.

(** The rank owns all the faces of a boundary of the mesh. *)
Definition owns_surface `{Double} (m : GeneratedMesh) (loc : ShellLocation)
    : Prop :=
  match loc with
  | MX | PX | MY | PY => myNumZ m = numZ m
  | MZ => myProcessor m = 0
  | PZ => myProcessor m = processorCount m - 1
  end.

(** A mesh with positive interval counts whose element identifiers fit an
    [int]. *)
Definition surface_ids_fit `{Double} (m : GeneratedMesh) : Prop :=
  0 < numX m /\ 0 < numY m /\ 0 < numZ m /\ 0 <= myNumZ m <= numZ m /\
  0 < processorCount m <= INT_MAX /\
  numX m * numY m * numZ m <= INT_MAX.

(** Records of two values laid out one after the other. *)
Definition flat_pairs {A} (ps : list (A * A)) : list A :=
  '(a, b) ← ps; [a; b].

(** A piece of code that appends pairs: run with the pair counter at the
    number of pairs of [pre], it writes the pairs [out] over the next
    elements of the vector and advances the counter past them. *)
Definition emits_pairs {A} (body : Z * list A -> option (Z * list A))
    (out : list (A * A)) : Prop :=
  forall pre rest,
    (2 * length out <= length rest)%nat ->
    Z.of_nat (2 * length pre + length rest) < SIZE_MOD ->
    exists rest',
      body (Z.of_nat (length pre), flat_pairs pre ++ rest)
      = Some (Z.of_nat (length pre + length out),
              flat_pairs pre ++ flat_pairs out ++ rest') /\
      length rest = (2 * length out + length rest')%nat.

(** ** Vocabulary of the node sharing *)

(** The entries of a communication map that are paired with rank [q]. *)
Definition shared_with (map proc : list Z) (q : Z) : list Z :=
  (filter (fun p : Z * Z => p.2 = q) (zip map proc)).*1.

(** ** Vocabulary of the option parser *)

(** The face a letter of the [shell:] argument stands for. *)
Definition shell_of_char (c : ascii) : option ShellLocation :=
  match c with
  | "x"%char => Some MX
  | "X"%char => Some PX
  | "y"%char => Some MY
  | "Y"%char => Some PY
  | "z"%char => Some MZ
  | "Z"%char => Some PZ
  | _ => None
  end.

(** The message for a letter that stands for no face. *)
Definition shell_error (c : ascii) : option message :=
  match shell_of_char c with
  | Some _ => None
  | None => Some (UnrecognizedShell c)
  end.

(** The members no option changes, and the block list, which only grows. *)
Definition same_grid `{Double} (m m' : GeneratedMesh) : Prop :=
  numX m' = numX m /\ numY m' = numY m /\
  processorCount m' = processorCount m /\ myProcessor m' = myProcessor m /\
  faceNodes m' = faceNodes m /\ shellBlocks m `prefix_of` shellBlocks m'.

(** ** Vocabulary of the rotations *)

(** The product of two 3 x 3 matrices, with the sums associated as
    [set_rotation] writes them. *)
Definition mat_mul `{Double} (a b : list (list double))
    : list (list double) :=
  let g := mat_get (d_of_Z 0) in
  (fun i =>
     (fun j =>
        d_add (d_add (d_mul (g a i 0%nat) (g b 0%nat j))
                     (d_mul (g a i 1%nat) (g b 1%nat j)))
              (d_mul (g a i 2%nat) (g b 2%nat j)))
       <$> [0; 1; 2]%nat)
    <$> [0; 1; 2]%nat.

(** The matrix of the rotation by [angle_degrees] about an axis, for the
    convention [row vector . matrix] of [coordinates]; no matrix for a name
    that is not an axis. *)
Definition axis_rotation `{Double} (axis : string) (angle_degrees : double)
    : option (list (list double)) :=
  let ang :=
    d_mul angle_degrees
      (d_div (d_atan2 (d_of_Z 0) (d_neg (d_of_Z 1))) (d_of_Z 180)) in
  let c := d_cos ang in
  let s := d_sin ang in
  let o := d_of_Z 0 in
  let i := d_of_Z 1 in
  if (axis =? "x")%string || (axis =? "X")%string
  then Some [[i; o; o]; [o; c; s]; [o; d_neg s; c]]
  else if (axis =? "y")%string || (axis =? "Y")%string
  then Some [[c; o; d_neg s]; [o; i; o]; [s; o; c]]
  else if (axis =? "z")%string || (axis =? "Z")%string
  then Some [[c; s; o]; [d_neg s; c; o]; [o; o; i]]
  else None.

(** One [axis, angle] pair of the [rotate:] option. *)
Definition apply_rotation `{Double} (st : GeneratedMesh * list message)
    (pair : string * string) : GeneratedMesh * list message :=
  let '(m, log) := st in
  let '(axis, angle) := pair in
  let '(m', msgs) := set_rotation axis (strtod angle) m in
  (m', log ++ msgs).

(** * Properties *)

(** ** Machine integers *)

Lemma SIZE_MOD_pos : 0 < SIZE_MOD.
Proof. reflexivity. Qed.

Lemma wrap_small z : 0 <= z < SIZE_MOD -> wrap z = z.
Proof. intros Hz. unfold wrap. apply Z.mod_small. exact Hz. Qed.

(** The convention of wrapping a compound expression only at its root. *)
Lemma wrap_add_idemp a b : wrap (wrap a + wrap b) = wrap (a + b).
Proof. unfold wrap. symmetry. apply Z.add_mod. discriminate. Qed.

Lemma wrap_mul_idemp a b : wrap (wrap a * wrap b) = wrap (a * b).
Proof. unfold wrap. symmetry. apply Z.mul_mod. discriminate. Qed.

Lemma wrap_sub_idemp a b : wrap (wrap a - wrap b) = wrap (a - b).
Proof. unfold wrap. symmetry. apply Zminus_mod. Qed.

Lemma to_int_small z : INT_MIN <= z <= INT_MAX -> to_int z = z.
Proof.
  unfold INT_MIN, INT_MAX, to_int. intros Hz.
  rewrite Z.mod_small by lia. lia.
Qed.

Lemma int_consts :
  INT_MIN < 0 /\ 0 < INT_MAX /\ INT_MAX < SIZE_MOD /\
  8 * INT_MAX + 8 < SIZE_MOD.
Proof. done. Qed.

Lemma int_in_size_t z : 0 <= z <= INT_MAX -> 0 <= z < SIZE_MOD.
Proof. unfold INT_MAX, SIZE_MOD. lia. Qed.

(** ** The partition planner *)

Section Uniform.
Variables nz P : Z.
Hypothesis HP : 0 < P <= nz.

Local Abbreviation start := (uniform_start nz P).
Local Abbreviation num := (uniform_num nz P).

Lemma uniform_div_mod :
  nz = P * (nz / P) + nz mod P /\ 0 <= nz mod P < P /\ 1 <= nz / P.
Proof.
  split; [apply Z.div_mod; lia|].
  split; [apply Z.mod_pos_bound; lia|].
  apply Z.div_le_lower_bound; lia.
Qed.

Lemma uniform_start_succ r : 0 <= r -> start (r + 1) = start r + num r.
Proof.
  intros Hr. unfold uniform_start, uniform_num.
  destruct (decide (r < nz mod P)); lia.
Qed.

Lemma uniform_start_last : start P = nz.
Proof.
  destruct uniform_div_mod as (Hd & Hm & _). unfold uniform_start.
  rewrite Z.min_l by lia. lia.
Qed.

Lemma uniform_start_mono r1 r2 : 0 <= r1 <= r2 -> start r1 <= start r2.
Proof.
  destruct uniform_div_mod as (_ & _ & Hq). intros Hr. unfold uniform_start.
  assert (r1 * (nz / P) <= r2 * (nz / P)) by nia. lia.
Qed.

Lemma uniform_owner_exists (n : nat) z :
  0 <= z < start (Z.of_nat n) ->
  exists r, 0 <= r < Z.of_nat n /\ start r <= z < start r + num r.
Proof.
  induction n as [|n IH]; intros Hz.
  - unfold uniform_start in Hz. simpl in Hz. lia.
  - destruct (decide (z < start (Z.of_nat n))) as [Hlt|Hge].
    + destruct IH as (r & Hr & Hin); [lia|]. exists r. split; [lia|done].
    + exists (Z.of_nat n). split; [lia|].
      rewrite <- uniform_start_succ by lia.
      replace (Z.of_nat n + 1) with (Z.of_nat (S n)) by lia. lia.
Qed.

Lemma uniform_owner_unique z r r' :
  0 <= r -> 0 <= r' ->
  start r <= z < start r + num r -> start r' <= z < start r' + num r' ->
  r' = r.
Proof.
  intros Hr Hr' Hz Hz'.
  rewrite <- uniform_start_succ in Hz, Hz' by lia.
  destruct (Z.lt_trichotomy r r') as [Hlt|[Heq|Hgt]]; [|done|].
  - pose proof (uniform_start_mono (r + 1) r'). lia.
  - pose proof (uniform_start_mono (r' + 1) r). lia.
Qed.

End Uniform.

Lemma rank_slab_uniform `{Double} (nx ny nz P r : Z) :
  0 <= nz < SIZE_MOD -> 0 < P <= nz -> 0 <= r < P ->
  rank_slab nx ny nz P r
  = Some (r * (nz / P) + Z.min (nz mod P) r,
          nz / P + (if decide (r < nz mod P) then 1 else 0)).
Proof.
  intros Hnz HP Hr.
  destruct (uniform_div_mod nz P HP) as (Hd & Hm & Hq).
  assert (Hq' : nz / P <= nz) by (apply Z.div_le_upper_bound; nia).
  unfold rank_slab, GeneratedMesh_of_ints, initialize, member_init. cbn.
  rewrite !(wrap_small nz), !(wrap_small P), !(wrap_small r) by lia.
  rewrite decide_True by lia.
  destruct (decide (1 < P)) as [HP1|HP1]; cbn.
  - f_equal. f_equal.
    + assert (Hrq : 0 <= r * (nz / P) <= P * (nz / P)) by nia.
      destruct (decide (r < nz mod P)); rewrite wrap_small by lia; lia.
    + assert (Hq1 : nz / P + 1 <= nz) by nia.
      destruct (decide (r < nz mod P)); [rewrite wrap_small by lia|]; lia.
  - assert (P = 1) by lia. subst P. assert (r = 0) by lia. subst r.
    rewrite Z.div_1_r, Z.mod_1_r. rewrite decide_False by lia.
    f_equal. f_equal; lia.
Qed.

(** C1.  A construction from positive interval counts and a processor count
    with [numZ >= processorCount] gives rank [r] the slab that starts at
    [r * per_proc + min (numZ % processorCount) r] and has
    [per_proc + (1 if r < numZ % processorCount else 0)] intervals, where
    [per_proc = numZ / processorCount]; these slabs start at 0, each one
    begins where the slab of the rank before ends, the last one ends at
    [numZ], and every interval of [0, numZ) lies in the slab of exactly one
    rank. *)
Theorem uniform_split_tiles `{Double} (nx ny nz P : Z) :
  0 < nx <= INT_MAX -> 0 < ny <= INT_MAX -> 0 < nz <= INT_MAX ->
  0 < P <= nz ->
  let per_proc := nz / P in
  let start r := r * per_proc + Z.min (nz mod P) r in
  let num r := per_proc + (if decide (r < nz mod P) then 1 else 0) in
  (forall r, 0 <= r < P ->
     rank_slab nx ny nz P r = Some (start r, num r)) /\
  start 0 = 0 /\
  (forall r, 0 <= r < P - 1 -> start (r + 1) = start r + num r) /\
  start (P - 1) + num (P - 1) = nz /\
  (forall z, 0 <= z < nz ->
     exists r, 0 <= r < P /\ start r <= z < start r + num r /\
       forall r', 0 <= r' < P ->
         start r' <= z < start r' + num r' -> r' = r).
Proof.
  intros Hnx Hny Hnz HP. cbv zeta beta.
  destruct (uniform_div_mod nz P HP) as (Hd & Hm & Hq).
  pose proof (uniform_start_succ nz P) as Hsucc.
  pose proof (uniform_start_last nz P HP) as Hlast.
  pose proof (uniform_owner_exists nz P (Z.to_nat P)) as Hex.
  pose proof (uniform_owner_unique nz P HP) as Huniq.
  unfold uniform_start, uniform_num in Hsucc, Hlast, Hex, Huniq.
  split; [|split; [|split; [|split]]].
  - intros r Hr. apply rank_slab_uniform; [|done..].
    apply int_in_size_t. lia.
  - lia.
  - intros r Hr. apply Hsucc. lia.
  - rewrite <- Hsucc by lia.
    replace (P - 1 + 1) with P by lia. exact Hlast.
  - intros z Hz.
    destruct (Hex z) as (r & Hr & Hin).
    { rewrite Z2Nat.id by lia. rewrite Hlast. lia. }
    exists r. split; [lia|]. split; [exact Hin|].
    intros r' Hr' Hin'.
    apply (Huniq z); [lia|lia|done|done].
Qed.

Lemma uniform_split_tiles_witness :
  rank_slab (H:=SymbolicDouble) 2 2 7 3 1 = Some (3, 2).
Proof.
  destruct (uniform_split_tiles (H:=SymbolicDouble) 2 2 7 3) as (Hs & _).
  - unfold INT_MAX. lia.
  - unfold INT_MAX. lia.
  - unfold INT_MAX. lia.
  - lia.
  - apply (Hs 1). lia.
Defined.

(** ** Vectors *)

Lemma length_resize {A} (n : Z) (d : A) (v : list A) :
  length (resize n d v) = Z.to_nat n.
Proof.
  unfold resize. rewrite length_app, length_take, length_replicate. lia.
Qed.

Lemma store_Some {A} (v : list A) (i : Z) (x : A) (v' : list A) :
  store v i x = Some v' ->
  0 <= i < Z.of_nat (length v) /\ length v' = length v.
Proof.
  unfold store. case_decide as Hi; [|discriminate].
  intros [= <-]. rewrite length_insert. done.
Qed.

Lemma store_None {A} (v : list A) (i : Z) (x : A) :
  store v i x = None <-> ~ (0 <= i < Z.of_nat (length v)).
Proof. unfold store. case_decide; split; intros; done. Qed.

Lemma store_app {A} (pre : list A) (a : A) (rest : list A) (x : A) :
  store (pre ++ a :: rest) (Z.of_nat (length pre)) x
  = Some (pre ++ x :: rest).
Proof.
  unfold store. rewrite decide_True.
  - rewrite Nat2Z.id. f_equal.
    rewrite insert_app_r_alt by lia. rewrite Nat.sub_diag. done.
  - rewrite length_app. simpl. lia.
Qed.

Lemma load_to_nat {A} (v : list A) (i : Z) :
  0 <= i -> load v i = v !! Z.to_nat i.
Proof. intros Hi. unfold load. by rewrite decide_True. Qed.

Lemma load_singleton_ne {A} (a : A) (i : Z) : i <> 0 -> load [a] i = None.
Proof.
  intros Hi. unfold load. case_decide; [|done].
  destruct (Z.to_nat i) as [|n] eqn:Hn; [lia|done].
Qed.

Lemma load_lookup {A} (v : list A) (i : nat) :
  load v (Z.of_nat i) = v !! i.
Proof. unfold load. rewrite decide_True by lia. by rewrite Nat2Z.id. Qed.

(** ** Loops *)

Lemma iterate_total {St} (Inv : Z -> St -> Prop) (body : Z -> St -> option St)
    (step : Z) (n : nat) :
  forall i s,
    Inv i s ->
    (forall k s, 0 <= k < Z.of_nat n -> Inv (i + k * step) s ->
       exists s', body (i + k * step) s = Some s' /\
                  Inv (i + (k + 1) * step) s') ->
    exists s', iterate n i step body s = Some s' /\
               Inv (i + Z.of_nat n * step) s'.
Proof.
  induction n as [|n IH]; intros i s Hs Hbody.
  - exists s. split; [done|]. by replace (i + Z.of_nat 0 * step) with i by lia.
  - destruct (Hbody 0 s) as (s1 & Hb & Hs1); [lia| |].
    { by replace (i + 0 * step) with i by lia. }
    replace (i + 0 * step) with i in Hb by lia.
    replace (i + (0 + 1) * step) with (i + step) in Hs1 by lia.
    destruct (IH (i + step) s1 Hs1) as (s2 & Hit & Hs2).
    { intros k s' Hk Hk'.
      replace (i + step + k * step) with (i + (k + 1) * step) in * by lia.
      replace (i + step + (k + 1) * step) with (i + (k + 1 + 1) * step)
        by lia.
      apply Hbody; [lia|done]. }
    exists s2. cbn. rewrite Hb. split; [done|].
    by replace (i + Z.of_nat (S n) * step)
      with (i + step + Z.of_nat n * step) by lia.
Qed.

Lemma iterate_partial {St} (Inv : Z -> St -> Prop) (body : Z -> St -> option St)
    (step : Z) (n : nat) :
  forall i s s',
    Inv i s ->
    (forall k s s', 0 <= k < Z.of_nat n -> Inv (i + k * step) s ->
       body (i + k * step) s = Some s' -> Inv (i + (k + 1) * step) s') ->
    iterate n i step body s = Some s' ->
    Inv (i + Z.of_nat n * step) s'.
Proof.
  induction n as [|n IH]; intros i s s' Hs Hbody Hit.
  - injection Hit as <-. by replace (i + Z.of_nat 0 * step) with i by lia.
  - cbn in Hit. destruct (body i s) as [s1|] eqn:Hb; [|discriminate].
    replace (i + Z.of_nat (S n) * step)
      with (i + step + Z.of_nat n * step) by lia.
    apply (IH (i + step) s1 s'); [| |done].
    + replace (i + step) with (i + (0 + 1) * step) by lia.
      apply (Hbody 0 s); [lia| |].
      * by replace (i + 0 * step) with i by lia.
      * by replace (i + 0 * step) with i by lia.
    + intros k t t' Hk Ht Hbt.
      replace (i + step + k * step) with (i + (k + 1) * step) in * by lia.
      replace (i + step + (k + 1) * step) with (i + (k + 1 + 1) * step)
        by lia.
      apply (Hbody (k + 1) t); [lia|done|done].
Qed.

Lemma for_range_total {St} (Inv : Z -> St -> Prop) (lo hi : Z)
    (body : Z -> St -> option St) (s : St) :
  lo <= hi -> Inv lo s ->
  (forall i s, lo <= i < hi -> Inv i s ->
     exists s', body i s = Some s' /\ Inv (i + 1) s') ->
  exists s', for_range lo hi body s = Some s' /\ Inv hi s'.
Proof.
  intros Hle Hs Hbody. unfold for_range.
  destruct (iterate_total Inv body 1 (Z.to_nat (hi - lo)) lo s Hs)
    as (s' & Hit & Hs').
  - intros k t Hk Ht.
    replace (lo + (k + 1) * 1) with (lo + k * 1 + 1) by lia.
    apply Hbody; [lia|done].
  - exists s'. split; [done|].
    assert (Heq : lo + Z.of_nat (Z.to_nat (hi - lo)) * 1 = hi) by lia.
    by rewrite Heq in Hs'.
Qed.

Lemma for_range_partial {St} (Inv : Z -> St -> Prop) (lo hi : Z)
    (body : Z -> St -> option St) (s s' : St) :
  lo <= hi -> Inv lo s ->
  (forall i s s', lo <= i < hi -> Inv i s -> body i s = Some s' ->
     Inv (i + 1) s') ->
  for_range lo hi body s = Some s' -> Inv hi s'.
Proof.
  intros Hle Hs Hbody Hit. unfold for_range in Hit.
  assert (Heq : lo + Z.of_nat (Z.to_nat (hi - lo)) * 1 = hi) by lia.
  rewrite <- Heq.
  apply (iterate_partial Inv body 1 (Z.to_nat (hi - lo)) lo s s');
    [done| |done].
  intros k t t' Hk Ht Hb.
  replace (lo + (k + 1) * 1) with (lo + k * 1 + 1) by lia.
  apply (Hbody _ t); [lia|done|done].
Qed.

Lemma for_range_single {St} (lo hi : Z) (body : Z -> St -> option St)
    (s : St) :
  hi = lo + 1 -> for_range lo hi body s = body lo s.
Proof.
  intros ->. unfold for_range.
  replace (Z.to_nat (lo + 1 - lo)) with 1%nat by lia.
  cbn. by destruct (body lo s).
Qed.

Lemma for_range_empty {St} (lo hi : Z) (body : Z -> St -> option St) (s : St) :
  hi <= lo -> for_range lo hi body s = Some s.
Proof.
  intros Hle. unfold for_range. by replace (Z.to_nat (hi - lo)) with 0%nat
    by lia.
Qed.

(** ** Code that appends to a vector *)

Lemma seqZ_of_to_nat (m n : Z) : seqZ m (Z.of_nat (Z.to_nat n)) = seqZ m n.
Proof. unfold seqZ. by rewrite Nat2Z.id. Qed.

Lemma seqZ_succ (m : Z) (n : nat) :
  seqZ m (Z.of_nat (S n)) = m :: seqZ (m + 1) (Z.of_nat n).
Proof.
  rewrite seqZ_cons by lia. f_equal. f_equal; lia.
Qed.

Lemma bind_bind {A B C} (f : A -> list B) (g : B -> list C) (l : list A) :
  (l ≫= f) ≫= g = l ≫= (fun a => f a ≫= g).
Proof.
  induction l as [|a l IH]; [done|].
  rewrite !bind_cons, bind_app, IH. done.
Qed.

Lemma bind_ext_in {A B} (f g : A -> list B) (l : list A) :
  (forall a, a ∈ l -> f a = g a) -> l ≫= f = l ≫= g.
Proof.
  induction l as [|a l IH]; intros Hfg; [done|].
  rewrite !bind_cons. f_equal.
  - apply Hfg. by left.
  - apply IH. intros b Hb. apply Hfg. by right.
Qed.

Lemma fmap_bind {A B C} (f : B -> C) (g : A -> list B) (l : list A) :
  f <$> (l ≫= g) = l ≫= (fun a => f <$> g a).
Proof.
  induction l as [|a l IH]; [done|].
  rewrite !bind_cons, fmap_app, IH. done.
Qed.

Lemma length_bind_const {A B} (f : A -> list B) (c : nat) (l : list A) :
  (forall a, a ∈ l -> length (f a) = c) ->
  length (l ≫= f) = (length l * c)%nat.
Proof.
  induction l as [|a l IH]; intros Hf; [done|].
  rewrite bind_cons, length_app, Hf by (by left).
  rewrite IH by (intros b Hb; apply Hf; by right). simpl. lia.
Qed.

Lemma emits_put {A} (x : A) : emits (put x) [x].
Proof.
  intros pre rest Hlen Hfit. destruct rest as [|a rest]; [simpl in Hlen; lia|].
  exists rest. split; [|done].
  unfold put. rewrite store_app. cbn.
  rewrite wrap_small by (simpl in Hfit; lia).
  do 2 f_equal. lia.
Qed.

Lemma emits_bind {A} (b1 b2 : Z * list A -> option (Z * list A))
    (o1 o2 : list A) :
  emits b1 o1 -> emits b2 o2 -> emits (fun st => b1 st ≫= b2) (o1 ++ o2).
Proof.
  intros H1 H2 pre rest Hlen Hfit. rewrite length_app in Hlen.
  destruct (H1 pre rest) as (rest1 & E1 & L1); [lia|done|].
  destruct (H2 (pre ++ o1) rest1) as (rest2 & E2 & L2).
  { lia. }
  { rewrite length_app. lia. }
  exists rest2. split.
  - rewrite E1. cbn. rewrite (assoc_L (++)). rewrite <- length_app, E2.
    rewrite !length_app. do 2 f_equal; [lia|].
    by rewrite <- !(assoc_L (++)).
  - rewrite length_app. lia.
Qed.

Lemma emits_skip {A} : emits (A:=A) Some [].
Proof.
  intros pre rest _ _. exists rest. split; [|done].
  simpl. do 2 f_equal. lia.
Qed.

Lemma emits_ext {A} (b1 b2 : Z * list A -> option (Z * list A))
    (out : list A) :
  (forall st, b1 st = b2 st) -> emits b1 out -> emits b2 out.
Proof.
  intros Hext H1 pre rest Hlen Hfit.
  destruct (H1 pre rest Hlen Hfit) as (rest' & E & L).
  exists rest'. by rewrite <- Hext.
Qed.

Lemma emits_iterate {A} (body : Z -> Z * list A -> option (Z * list A))
    (out : Z -> list A) (n : nat) :
  forall lo,
    (forall i, lo <= i < lo + Z.of_nat n -> emits (body i) (out i)) ->
    emits (iterate n lo 1 body) (seqZ lo (Z.of_nat n) ≫= out).
Proof.
  induction n as [|n IH]; intros lo Hbody.
  - apply emits_skip.
  - rewrite seqZ_succ, bind_cons.
    apply (emits_ext (fun st => body lo st ≫= iterate n (lo + 1) 1 body)).
    { intros st. cbn. by destruct (body lo st). }
    apply emits_bind.
    + apply Hbody. lia.
    + apply IH. intros i Hi. apply Hbody. lia.
Qed.

Lemma emits_for_range {A} (body : Z -> Z * list A -> option (Z * list A))
    (out : Z -> list A) (lo hi : Z) :
  (forall i, lo <= i < hi -> emits (body i) (out i)) ->
  emits (for_range lo hi body) (seqZ lo (hi - lo) ≫= out).
Proof.
  intros Hbody. unfold for_range. rewrite <- seqZ_of_to_nat.
  apply emits_iterate. intros i Hi. apply Hbody. lia.
Qed.

(** A vector of exactly the size of what is emitted ends up holding it. *)
Lemma emits_fill {A} (body : Z * list A -> option (Z * list A))
    (out v : list A) :
  emits body out -> length v = length out ->
  Z.of_nat (length v) < SIZE_MOD ->
  body (0, v) = Some (Z.of_nat (length out), out).
Proof.
  intros Hb Hlen Hfit.
  destruct (Hb [] v) as (rest' & E & L); [lia|simpl; lia|].
  change (Z.of_nat (length (@nil A))) with 0 in E.
  change (length (@nil A) + length out)%nat with (length out) in E.
  rewrite !app_nil_l in E. rewrite E.
  destruct rest'; [|simpl in L; lia]. by rewrite app_nil_r.
Qed.

Lemma emits_for_range_len {A}
    (body : Z -> Z * list A -> option (Z * list A))
    (out : Z -> list A) (lo hi len : Z) :
  len = hi - lo ->
  (forall i, lo <= i < hi -> emits (body i) (out i)) ->
  emits (for_range lo hi body) (seqZ lo len ≫= out).
Proof. intros ->. apply emits_for_range. Qed.

(** ** The geometry generator *)

Section Geometry.
Context `{Double}.
Implicit Types m : GeneratedMesh.

(** The unrotated coordinates in the order of the loop nest. *)
Lemma interleave_local_nodes m :
  interleave (node_coordinate m <$> local_nodes m)
  = mz ← seqZ (myStartZ m) (myNumZ m + 1);
    i ← seqZ 0 (numY m + 1);
    j ← seqZ 0 (numX m + 1);
    [affine (sclX m) (offX m) j; affine (sclY m) (offY m) i;
     affine (sclZ m) (offZ m) mz].
Proof.
  unfold interleave, local_nodes. rewrite list_fmap_bind, bind_bind.
  apply bind_ext_in. intros mz _. rewrite bind_bind.
  apply bind_ext_in. intros i _. rewrite bind_bind.
  apply bind_ext_in. intros j _. done.
Qed.

Lemma length_local_nodes m :
  0 <= numX m -> 0 <= numY m -> 0 <= myNumZ m ->
  Z.of_nat (length (local_nodes m))
  = (numX m + 1) * (numY m + 1) * (myNumZ m + 1).
Proof.
  intros Hx Hy Hz. unfold local_nodes.
  rewrite (length_bind_const _
             (Z.to_nat (numY m + 1) * Z.to_nat (numX m + 1))%nat).
  - rewrite length_seqZ. lia.
  - intros mz _.
    rewrite (length_bind_const _ (Z.to_nat (numX m + 1))).
    + by rewrite length_seqZ.
    + intros i _. rewrite (length_bind_const _ 1%nat).
      * rewrite length_seqZ. lia.
      * done.
Qed.

Lemma length_interleave {A} (cs : list (A * A * A)) :
  length (interleave cs) = (3 * length cs)%nat.
Proof.
  unfold interleave. rewrite (length_bind_const _ 3%nat); [lia|].
  by intros [[x y] z] _.
Qed.

Lemma coordinates_fit_wraps m :
  coordinates_fit m ->
  wrap (myStartZ m + myNumZ m + 1) = myStartZ m + myNumZ m + 1 /\
  wrap (numY m + 1) = numY m + 1 /\
  wrap (numX m + 1) = numX m + 1 /\
  node_count_proc m = (numX m + 1) * (numY m + 1) * (myNumZ m + 1) /\
  wrap (node_count_proc m * 3)
  = 3 * ((numX m + 1) * (numY m + 1) * (myNumZ m + 1)).
Proof.
  intros (Hx & Hy & Hz & Hs & Hsz & Hn). unfold node_count_proc.
  assert (0 <= (numX m + 1) * (numY m + 1)) by nia.
  assert (numX m + 1 <= (numX m + 1) * (numY m + 1)) by nia.
  assert (numY m + 1 <= (numX m + 1) * (numY m + 1)) by nia.
  assert ((numX m + 1) * (numY m + 1)
          <= (numX m + 1) * (numY m + 1) * (myNumZ m + 1)) by nia.
  rewrite !wrap_small by lia.
  repeat split; lia.
Qed.

Lemma coordinates_loops_emit m :
  coordinates_fit m ->
  emits
    (for_range (myStartZ m) (myStartZ m + myNumZ m + 1) (fun mz =>
       for_range 0 (numY m + 1) (fun i =>
         for_range 0 (numX m + 1) (fun j st =>
           st ← put (affine (sclX m) (offX m) j) st;
           st ← put (affine (sclY m) (offY m) i) st;
           put (affine (sclZ m) (offZ m) mz) st))))
    (interleave (node_coordinate m <$> local_nodes m)).
Proof.
  intros Hfit. rewrite interleave_local_nodes.
  apply emits_for_range_len; [lia|]. intros mz _.
  apply emits_for_range_len; [lia|]. intros i _.
  apply emits_for_range_len; [lia|]. intros j _.
  apply (emits_bind _ _ [_] [_; _]); [apply emits_put|].
  apply (emits_bind _ _ [_] [_]); apply emits_put.
Qed.

(** The interleaved variant before its rotation pass. *)
Lemma coordinates_unrotated_pass m (coord : list double) :
  coordinates_fit m ->
  for_range (myStartZ m) (wrap (myStartZ m + myNumZ m + 1)) (fun mz =>
    for_range 0 (wrap (numY m + 1)) (fun i =>
      for_range 0 (wrap (numX m + 1)) (fun j st =>
        st ← put (affine (sclX m) (offX m) j) st;
        st ← put (affine (sclY m) (offY m) i) st;
        put (affine (sclZ m) (offZ m) mz) st)))
    (0, resize (wrap (node_count_proc m * 3)) (d_of_Z 0) coord)
  = Some (3 * ((numX m + 1) * (numY m + 1) * (myNumZ m + 1)),
          interleave (node_coordinate m <$> local_nodes m)).
Proof.
  intros Hfit.
  destruct (coordinates_fit_wraps m Hfit) as (-> & -> & -> & _ & ->).
  pose proof Hfit as (Hx & Hy & Hz & Hs & Hsz & Hn).
  assert (Hlen : Z.of_nat (length (interleave
                   (node_coordinate m <$> local_nodes m)))
                 = 3 * ((numX m + 1) * (numY m + 1) * (myNumZ m + 1))).
  { rewrite length_interleave, length_fmap, Nat2Z.inj_mul.
    rewrite length_local_nodes by done. lia. }
  rewrite (emits_fill _ _ _ (coordinates_loops_emit m Hfit)).
  - by rewrite Hlen.
  - rewrite length_resize. lia.
  - rewrite length_resize. lia.
Qed.

End Geometry.

(** ** Code that appends to three vectors *)

Lemma emits3_skip {A} : emits3 (A:=A) Some [].
Proof.
  intros px py pz rx ry rz _ _ _ _ _ _. exists rx, ry, rz.
  split; [|done]. simpl. do 4 f_equal. lia.
Qed.

Lemma emits3_ext {A}
    (b1 b2 : Z * list A * list A * list A ->
             option (Z * list A * list A * list A))
    (out : list (A * A * A)) :
  (forall st, b1 st = b2 st) -> emits3 b1 out -> emits3 b2 out.
Proof.
  intros Hext H1 px py pz rx ry rz Hy Hz Lx Ly Lz Hfit.
  destruct (H1 px py pz rx ry rz Hy Hz Lx Ly Lz Hfit)
    as (rx' & ry' & rz' & E & L).
  exists rx', ry', rz'. by rewrite <- Hext.
Qed.

Lemma emits3_bind {A}
    (b1 b2 : Z * list A * list A * list A ->
             option (Z * list A * list A * list A))
    (o1 o2 : list (A * A * A)) :
  emits3 b1 o1 -> emits3 b2 o2 ->
  emits3 (fun st => b1 st ≫= b2) (o1 ++ o2).
Proof.
  intros H1 H2 px py pz rx ry rz Hy Hz Lx Ly Lz Hfit.
  rewrite length_app in Lx, Ly, Lz.
  destruct (H1 px py pz rx ry rz) as (rx1 & ry1 & rz1 & E1 & X1 & Y1 & Z1);
    [done|done|lia|lia|lia|done|].
  destruct (H2 (px ++ o1.*1.*1) (py ++ o1.*1.*2) (pz ++ o1.*2) rx1 ry1 rz1)
    as (rx2 & ry2 & rz2 & E2 & X2 & Y2 & Z2).
  { rewrite !length_app, !length_fmap. lia. }
  { rewrite !length_app, !length_fmap. lia. }
  { lia. }
  { lia. }
  { lia. }
  { rewrite !length_app, !length_fmap. lia. }
  exists rx2, ry2, rz2. split; [|rewrite length_app; lia].
  rewrite E1. cbn. rewrite !(assoc_L (++)).
  rewrite !length_app, !length_fmap in E2.
  rewrite E2. rewrite !fmap_app, !length_app.
  rewrite <- !(assoc_L (++)). do 4 f_equal. lia.
Qed.

Lemma emits3_iterate {A}
    (body : Z -> Z * list A * list A * list A ->
            option (Z * list A * list A * list A))
    (out : Z -> list (A * A * A)) (n : nat) :
  forall lo,
    (forall i, lo <= i < lo + Z.of_nat n -> emits3 (body i) (out i)) ->
    emits3 (iterate n lo 1 body) (seqZ lo (Z.of_nat n) ≫= out).
Proof.
  induction n as [|n IH]; intros lo Hbody.
  - apply emits3_skip.
  - rewrite seqZ_succ, bind_cons.
    apply (emits3_ext (fun st => body lo st ≫= iterate n (lo + 1) 1 body)).
    { intros st. cbn. by destruct (body lo st). }
    apply emits3_bind.
    + apply Hbody. lia.
    + apply IH. intros i Hi. apply Hbody. lia.
Qed.

Lemma emits3_for_range_len {A}
    (body : Z -> Z * list A * list A * list A ->
            option (Z * list A * list A * list A))
    (out : Z -> list (A * A * A)) (lo hi len : Z) :
  len = hi - lo ->
  (forall i, lo <= i < hi -> emits3 (body i) (out i)) ->
  emits3 (for_range lo hi body) (seqZ lo len ≫= out).
Proof.
  intros -> Hbody. unfold for_range. rewrite <- seqZ_of_to_nat.
  apply emits3_iterate. intros i Hi. apply Hbody. lia.
Qed.

Lemma emits3_fill {A}
    (body : Z * list A * list A * list A ->
            option (Z * list A * list A * list A))
    (out : list (A * A * A)) (x y z : list A) :
  emits3 body out ->
  length x = length out -> length y = length out -> length z = length out ->
  Z.of_nat (length out) < SIZE_MOD ->
  body (0, x, y, z)
  = Some (Z.of_nat (length out), out.*1.*1, out.*1.*2, out.*2).
Proof.
  intros Hb Hx Hy Hz Hfit.
  destruct (Hb [] [] [] x y z) as (rx & ry & rz & E & X & Y & Z');
    [done|done|lia|lia|lia|simpl; lia|].
  change (Z.of_nat (length (@nil A))) with 0 in E.
  change (length (@nil A) + length out)%nat with (length out) in E.
  rewrite !app_nil_l in E. rewrite E.
  destruct rx; [|simpl in X; lia]. destruct ry; [|simpl in Y; lia].
  destruct rz; [|simpl in Z'; lia]. by rewrite !app_nil_r.
Qed.

Lemma emits3_store {A} (a b c : A) :
  emits3 (fun '(k, x, y, z) =>
            x ← store x k a; y ← store y k b; z ← store z k c;
            Some (wrap (k + 1), x, y, z))
         [(a, b, c)].
Proof.
  intros px py pz rx ry rz Hy Hz Lx Ly Lz Hfit.
  destruct rx as [|x0 rx]; [simpl in Lx; lia|].
  destruct ry as [|y0 ry]; [simpl in Ly; lia|].
  destruct rz as [|z0 rz]; [simpl in Lz; lia|].
  exists rx, ry, rz. split; [|done].
  rewrite store_app. cbn. rewrite <- Hy, store_app. cbn.
  rewrite Hy, <- Hz, store_app. cbn. rewrite Hz.
  rewrite wrap_small by (simpl in Hfit; lia).
  do 4 f_equal. lia.
Qed.

Lemma load_at {A} (pre v : list A) (k : Z) (j : nat) (a : A) :
  k = Z.of_nat (length pre) + Z.of_nat j -> v !! j = Some a ->
  load (pre ++ v) k = Some a.
Proof.
  intros -> Hj. unfold load. rewrite decide_True by lia.
  rewrite lookup_app_r by lia. rewrite <- Hj. f_equal. lia.
Qed.

Lemma store_at {A} (pre v : list A) (k : Z) (j : nat) (x : A) :
  k = Z.of_nat (length pre) + Z.of_nat j -> (j < length v)%nat ->
  store (pre ++ v) k x = Some (pre ++ <[j := x]> v).
Proof.
  intros -> Hj. unfold store. rewrite decide_True.
  - rewrite insert_app_r_alt by lia. do 3 f_equal. lia.
  - rewrite length_app. lia.
Qed.

Lemma interleave_cons {A} (x y z : A) (cs : list (A * A * A)) :
  interleave ((x, y, z) :: cs) = x :: y :: z :: interleave cs.
Proof. done. Qed.

Lemma lookup_interleave {A} (cs : list (A * A * A)) (k : nat) (x y z : A) :
  cs !! k = Some (x, y, z) ->
  interleave cs !! (3 * k)%nat = Some x /\
  interleave cs !! (3 * k + 1)%nat = Some y /\
  interleave cs !! (3 * k + 2)%nat = Some z.
Proof.
  revert k. induction cs as [|[[a b] c] cs IH]; intros k Hk; [done|].
  rewrite interleave_cons. destruct k as [|k].
  - injection Hk as -> -> ->. done.
  - replace (3 * S k)%nat with (S (S (S (3 * k)))) by lia.
    cbn in Hk |- *. by apply IH.
Qed.

Section Rotation.
Context `{Double}.
Implicit Types m : GeneratedMesh.

(** The rotation pass of the interleaved variant. *)
Lemma rotation_pass_interleaved m (cs : list (double * double * double)) :
  forall pre,
    Z.of_nat (length pre) + 3 * Z.of_nat (length cs) < SIZE_MOD ->
    iterate (length cs) (Z.of_nat (length pre)) 3
      (fun i coord =>
         xn ← load coord (wrap (i + 0));
         yn ← load coord (wrap (i + 1));
         zn ← load coord (wrap (i + 2));
         coord ← store coord (wrap (i + 0)) (rotated m 0 xn yn zn);
         coord ← store coord (wrap (i + 1)) (rotated m 1 xn yn zn);
         store coord (wrap (i + 2)) (rotated m 2 xn yn zn))
      (pre ++ interleave cs)
    = Some (pre ++ interleave (rotate_node m <$> cs)).
Proof.
  induction cs as [|[[x y] z] cs IH]; intros pre Hfit; [done|].
  cbn [iterate length]. rewrite interleave_cons.
  rewrite !wrap_small by (simpl length in Hfit; lia).
  set (k := Z.of_nat (length pre)).
  rewrite (load_at pre _ (k + 0) 0 x), (load_at pre _ (k + 1) 1 y),
    (load_at pre _ (k + 2) 2 z) by (done || lia).
  cbn [mbind option_bind].
  rewrite (store_at pre _ (k + 0) 0) by (simpl; lia).
  cbn [mbind option_bind].
  rewrite (store_at pre _ (k + 1) 1) by (simpl; lia).
  cbn [mbind option_bind].
  rewrite (store_at pre _ (k + 2) 2) by (simpl; lia).
  subst k.
  cbn [insert list_insert].
  set (x' := rotated m 0 x y z). set (y' := rotated m 1 x y z).
  set (z' := rotated m 2 x y z).
  replace (Z.of_nat (length pre) + 3)
    with (Z.of_nat (length (pre ++ [x'; y'; z'])))
    by (rewrite length_app; simpl; lia).
  replace (pre ++ x' :: y' :: z' :: interleave cs)
    with ((pre ++ [x'; y'; z']) ++ interleave cs)
    by (by rewrite <- (assoc_L (++))).
  rewrite IH.
  - rewrite <- (assoc_L (++)). done.
  - rewrite length_app. simpl length in *. lia.
Qed.

(** The rotation pass of the separated variant. *)
Lemma rotation_pass_separated m (cs : list (double * double * double)) :
  forall px py pz,
    length py = length px -> length pz = length px ->
    iterate (length cs) (Z.of_nat (length px)) 1
      (fun i '(x, y, z) =>
         xn ← load x i;
         yn ← load y i;
         zn ← load z i;
         x ← store x i (rotated m 0 xn yn zn);
         y ← store y i (rotated m 1 xn yn zn);
         z ← store z i (rotated m 2 xn yn zn);
         Some (x, y, z))
      (px ++ cs.*1.*1, py ++ cs.*1.*2, pz ++ cs.*2)
    = Some (px ++ (rotate_node m <$> cs).*1.*1,
            py ++ (rotate_node m <$> cs).*1.*2,
            pz ++ (rotate_node m <$> cs).*2).
Proof.
  induction cs as [|[[x y] z] cs IH]; intros px py pz Hy Hz; [done|].
  cbn [iterate length fmap list_fmap fst snd].
  rewrite (load_at px _ _ 0 x), (load_at py _ _ 0 y),
    (load_at pz _ _ 0 z) by (done || lia).
  cbn [mbind option_bind].
  rewrite (store_at px _ _ 0) by (simpl; lia || lia).
  cbn [mbind option_bind].
  rewrite (store_at py _ _ 0) by (simpl; lia || lia).
  cbn [mbind option_bind].
  rewrite (store_at pz _ _ 0) by (simpl; lia || lia).
  cbn [mbind option_bind insert list_insert].
  set (x' := rotated m 0 x y z). set (y' := rotated m 1 x y z).
  set (z' := rotated m 2 x y z).
  rewrite (cons_middle x' px), (cons_middle y' py), (cons_middle z' pz).
  rewrite !(assoc_L (++)).
  replace (Z.of_nat (length px) + 1)
    with (Z.of_nat (length (px ++ [x'])))
    by (rewrite length_app; simpl; lia).
  fold (fmap (M:=list) (@fst (double * double) double)).
  fold (fmap (M:=list) (@snd (double * double) double)).
  fold (fmap (M:=list) (@fst double double)).
  fold (fmap (M:=list) (@snd double double)).
  rewrite IH by (rewrite !length_app; simpl; lia).
  rewrite <- !(assoc_L (++)). done.
Qed.

End Rotation.

Lemma lookup_bind_chunks {A B} (f : A -> list B) (c : nat) (l : list A)
    (i j : nat) (a : A) :
  (forall a', a' ∈ l -> length (f a') = c) ->
  l !! i = Some a -> (j < c)%nat ->
  (l ≫= f) !! (i * c + j)%nat = f a !! j.
Proof.
  revert i. induction l as [|a0 l IH]; intros i Hlen Hi Hj; [done|].
  rewrite bind_cons. destruct i as [|i].
  - injection Hi as ->. rewrite lookup_app_l; [done|].
    rewrite Hlen by (by left). lia.
  - rewrite lookup_app_r by (rewrite Hlen by (by left); lia).
    rewrite Hlen by (by left).
    replace (S i * c + j - c)%nat with (i * c + j)%nat by lia.
    apply IH; [|done|done]. intros a' Ha'. apply Hlen. by right.
Qed.

Section LocalNodes.
Context `{Double}.
Implicit Types m : GeneratedMesh.

(** The place of node [(mz, i, j)] among the local nodes. *)
Lemma lookup_local_nodes m (mz i j : Z) :
  0 <= numX m -> 0 <= numY m ->
  myStartZ m <= mz <= myStartZ m + myNumZ m ->
  0 <= i <= numY m -> 0 <= j <= numX m ->
  local_nodes m
    !! Z.to_nat (((mz - myStartZ m) * (numY m + 1) + i) * (numX m + 1) + j)
  = Some (j, i, mz).
Proof.
  intros Hx Hy Hmz Hi Hj. unfold local_nodes.
  set (a := Z.to_nat (mz - myStartZ m)). set (b := Z.to_nat i).
  set (d := Z.to_nat j).
  set (nx1 := Z.to_nat (numX m + 1)). set (ny1 := Z.to_nat (numY m + 1)).
  replace (Z.to_nat (((mz - myStartZ m) * (numY m + 1) + i)
                     * (numX m + 1) + j))
    with (a * (ny1 * nx1) + (b * nx1 + d))%nat.
  2: { assert (0 <= (mz - myStartZ m) * (numY m + 1)) by nia.
       assert (0 <= ((mz - myStartZ m) * (numY m + 1) + i)
                    * (numX m + 1)) by nia.
       rewrite (Z2Nat.inj_add (_ * (numX m + 1)) j),
         (Z2Nat.inj_mul (_ + i) (numX m + 1)),
         (Z2Nat.inj_add (_ * _) i),
         (Z2Nat.inj_mul (mz - myStartZ m) (numY m + 1)) by lia.
       subst a b d nx1 ny1. lia. }
  rewrite (lookup_bind_chunks _ (ny1 * nx1) _ a _ mz).
  - rewrite (lookup_bind_chunks _ nx1 _ b _ i).
    + replace d with (d * 1 + 0)%nat by lia.
      rewrite (lookup_bind_chunks _ 1 _ d _ j); [done|done| |lia].
      rewrite lookup_seqZ_lt by (subst d; lia). f_equal. subst d. lia.
    + intros i' _. rewrite (length_bind_const _ 1%nat) by done.
      rewrite length_seqZ. subst nx1. lia.
    + rewrite lookup_seqZ_lt by (subst b; lia). f_equal. subst b. lia.
    + subst d nx1. lia.
  - intros mz' _. rewrite (length_bind_const _ nx1).
    + rewrite length_seqZ. by subst ny1.
    + intros i' _. rewrite (length_bind_const _ 1%nat) by done.
      rewrite length_seqZ. subst nx1. lia.
  - rewrite lookup_seqZ_lt by (subst a; lia). f_equal. subst a. lia.
  - assert (b < ny1)%nat by (subst b ny1; lia).
    assert (d < nx1)%nat by (subst d nx1; lia). nia.
Qed.
End LocalNodes.

Lemma step3_rounds (n : Z) : (3 * n + 2) / 3 = n.
Proof.
  rewrite (Z.mul_comm 3 n), Z.div_add_l by lia.
  change (2 / 3) with 0. lia.
Qed.

Section Coordinates.
Context `{Double}.
Implicit Types m : GeneratedMesh.

Lemma final_coordinate_rotated m :
  doRotation m = true ->
  final_coordinate m <$> local_nodes m
  = rotate_node m <$> (node_coordinate m <$> local_nodes m).
Proof.
  intros Hrot. rewrite <- list_fmap_compose. apply list_fmap_ext.
  intros _ p _. unfold final_coordinate. by rewrite Hrot.
Qed.

Lemma final_coordinate_unrotated m :
  doRotation m = false ->
  final_coordinate m <$> local_nodes m = node_coordinate m <$> local_nodes m.
Proof.
  intros Hrot. apply list_fmap_ext.
  intros _ p _. unfold final_coordinate. by rewrite Hrot.
Qed.

(** What the interleaved variant returns. *)
Lemma coordinates_spec m (coord : list double) :
  coordinates_fit m ->
  coordinates m coord
  = Some (interleave (final_coordinate m <$> local_nodes m)).
Proof.
  intros Hfit. unfold coordinates. cbv zeta.
  rewrite coordinates_unrotated_pass by done. cbn [mbind option_bind].
  destruct (doRotation m) eqn:Hrot.
  - rewrite final_coordinate_rotated by done.
    destruct (coordinates_fit_wraps m Hfit) as (_ & _ & _ & _ & ->).
    pose proof Hfit as (Hx & Hy & Hz & _ & _ & Hn).
    pose proof (length_local_nodes m Hx Hy Hz) as Hlen.
    unfold for_step3. rewrite <- Hlen in Hn |- *.
    rewrite step3_rounds, Nat2Z.id.
    rewrite <- (length_fmap (node_coordinate m)).
    apply (rotation_pass_interleaved m _ []).
    rewrite length_fmap. simpl. lia.
  - by rewrite final_coordinate_unrotated.
Qed.

Lemma coordinates_xyz_loops_emit m :
  coordinates_fit m ->
  emits3
    (for_range (myStartZ m) (myStartZ m + myNumZ m + 1) (fun mz =>
       for_range 0 (numY m + 1) (fun i =>
         for_range 0 (numX m + 1) (fun j '(k, x, y, z) =>
           x ← store x k (affine (sclX m) (offX m) j);
           y ← store y k (affine (sclY m) (offY m) i);
           z ← store z k (affine (sclZ m) (offZ m) mz);
           Some (wrap (k + 1), x, y, z)))))
    (node_coordinate m <$> local_nodes m).
Proof.
  intros Hfit. unfold local_nodes. rewrite fmap_bind.
  apply emits3_for_range_len; [lia|]. intros mz _. rewrite fmap_bind.
  apply emits3_for_range_len; [lia|]. intros i _. rewrite fmap_bind.
  apply emits3_for_range_len; [lia|]. intros j _.
  apply emits3_store.
Qed.

(** What the separated variant returns. *)
Lemma coordinates_xyz_spec m (x y z : list double) :
  coordinates_fit m ->
  coordinates_xyz m x y z
  = Some ((final_coordinate m <$> local_nodes m).*1.*1,
          (final_coordinate m <$> local_nodes m).*1.*2,
          (final_coordinate m <$> local_nodes m).*2).
Proof.
  intros Hfit. unfold coordinates_xyz. cbv zeta.
  destruct (coordinates_fit_wraps m Hfit) as (-> & -> & -> & -> & _).
  pose proof Hfit as (Hx & Hy & Hz & _ & _ & Hn).
  pose proof (length_local_nodes m Hx Hy Hz) as Hlen.
  rewrite (emits3_fill _ _ _ _ _ (coordinates_xyz_loops_emit m Hfit));
    [|rewrite length_resize, length_fmap; lia..|rewrite length_fmap; lia].
  cbn [mbind option_bind].
  destruct (doRotation m) eqn:Hrot.
  - rewrite final_coordinate_rotated by done. unfold for_range.
    rewrite <- Hlen.
    replace (Z.to_nat (Z.of_nat (length (local_nodes m)) - 0))
      with (length (node_coordinate m <$> local_nodes m))
      by (rewrite length_fmap; lia).
    apply (rotation_pass_separated m _ [] [] []); done.
  - by rewrite final_coordinate_unrotated.
Qed.

(** C2.  Without rotation, [coordinates] returns the nodes layer after layer
    (global Z index [mz] from [myStartZ] to [myStartZ + myNumZ] inclusive),
    within a layer row after row ([i] from 0 to [numY]), within a row along
    X ([j] from 0 to [numX]); the three entries of node [(mz, i, j)], the
    local node [((mz - myStartZ) * (numY+1) + i) * (numX+1) + j], are
    [sclX * j + offX], [sclY * i + offY] and [sclZ * mz + offZ]. *)
Theorem coordinates_unrotated m (coord : list double) :
  coordinates_fit m -> doRotation m = false ->
  exists c,
    coordinates m coord = Some c /\
    c = (mz ← seqZ (myStartZ m) (myNumZ m + 1);
         i ← seqZ 0 (numY m + 1);
         j ← seqZ 0 (numX m + 1);
         [d_add (d_mul (sclX m) (d_of_Z j)) (offX m);
          d_add (d_mul (sclY m) (d_of_Z i)) (offY m);
          d_add (d_mul (sclZ m) (d_of_Z mz)) (offZ m)]) /\
    forall mz i j,
      myStartZ m <= mz <= myStartZ m + myNumZ m ->
      0 <= i <= numY m -> 0 <= j <= numX m ->
      let k := Z.to_nat (((mz - myStartZ m) * (numY m + 1) + i)
                         * (numX m + 1) + j) in
      c !! (3 * k)%nat = Some (d_add (d_mul (sclX m) (d_of_Z j)) (offX m)) /\
      c !! (3 * k + 1)%nat
      = Some (d_add (d_mul (sclY m) (d_of_Z i)) (offY m)) /\
      c !! (3 * k + 2)%nat
      = Some (d_add (d_mul (sclZ m) (d_of_Z mz)) (offZ m)).
Proof.
  intros Hfit Hrot. eexists. split; [by apply coordinates_spec|].
  rewrite final_coordinate_unrotated by done.
  split; [by rewrite interleave_local_nodes|].
  intros mz i j Hmz Hi Hj k. destruct Hfit as (Hx & Hy & _).
  apply lookup_interleave.
  rewrite list_lookup_fmap. subst k.
  by rewrite lookup_local_nodes.
Qed.

(** C3.  The interleaved and the separated variant of [coordinates] return
    the same numbers, with or without rotation: both succeed, the separated
    arrays hold one entry per local node, the interleaved array three, and
    for every local node index [k] the interleaved entries [3k], [3k+1] and
    [3k+2] are [x[k]], [y[k]] and [z[k]]. *)
Theorem coordinates_variants_agree m (coord x0 y0 z0 : list double) :
  coordinates_fit m ->
  exists c x y z,
    coordinates m coord = Some c /\
    coordinates_xyz m x0 y0 z0 = Some (x, y, z) /\
    Z.of_nat (length x) = node_count_proc m /\
    length y = length x /\ length z = length x /\
    length c = (3 * length x)%nat /\
    forall k : nat, (k < length x)%nat ->
      exists a b d,
        x !! k = Some a /\ y !! k = Some b /\ z !! k = Some d /\
        c !! (3 * k)%nat = Some a /\
        c !! (3 * k + 1)%nat = Some b /\
        c !! (3 * k + 2)%nat = Some d.
Proof.
  intros Hfit.
  set (cs := final_coordinate m <$> local_nodes m).
  exists (interleave cs), (cs.*1.*1), (cs.*1.*2), (cs.*2).
  split; [by apply coordinates_spec|].
  split; [by apply coordinates_xyz_spec|].
  destruct (coordinates_fit_wraps m Hfit) as (_ & _ & _ & -> & _).
  pose proof Hfit as (Hx & Hy & Hz & _ & _ & Hn).
  rewrite !length_fmap, length_interleave.
  split; [subst cs; rewrite length_fmap; by apply length_local_nodes|].
  do 3 (split; [done|]).
  intros k Hk. destruct (lookup_lt_is_Some_2 cs k Hk) as [[[a b] d] Hcs].
  exists a, b, d. rewrite !list_lookup_fmap, Hcs.
  do 3 (split; [done|]). by apply lookup_interleave.
Qed.

End Coordinates.

(** ** Filling a vector by index *)

Lemma iterate_store_fill {A} (f : Z -> A) (n : nat) :
  forall pre rest,
    length rest = n ->
    iterate n (Z.of_nat (length pre)) 1 (fun i v => store v i (f i))
      (pre ++ rest)
    = Some (pre ++ (f <$> seqZ (Z.of_nat (length pre)) (Z.of_nat n))).
Proof.
  induction n as [|n IH]; intros pre rest Hlen.
  - destruct rest; [|done]. done.
  - destruct rest as [|a rest]; [done|]. cbn [iterate].
    rewrite store_app, seqZ_succ, fmap_cons.
    rewrite (cons_middle (f _) pre), (assoc_L (++)).
    replace (Z.of_nat (length pre) + 1)
      with (Z.of_nat (length (pre ++ [f (Z.of_nat (length pre))])))
      by (rewrite length_app; simpl; lia).
    rewrite IH by (simpl in Hlen; lia).
    rewrite <- (assoc_L (++)). done.
Qed.

Lemma for_range_store_fill {A} (f : Z -> A) (count : Z) (v : list A) :
  length v = Z.to_nat count ->
  for_range 0 count (fun i v => store v i (f i)) v
  = Some (f <$> seqZ 0 count).
Proof.
  intros Hlen. unfold for_range. rewrite Z.sub_0_r.
  pose proof (iterate_store_fill f (Z.to_nat count) [] v Hlen) as E.
  change (Z.of_nat (length (@nil A))) with 0 in E.
  rewrite !app_nil_l, seqZ_of_to_nat in E. exact E.
Qed.

(** A grid enumerated row after row is enumerated by one index. *)
Lemma seqZ_grid (h : nat) (w : Z) :
  0 <= w ->
  (i ← seqZ 0 (Z.of_nat h); j ← seqZ 0 w; [i * w + j])
  = seqZ 0 (Z.of_nat h * w).
Proof.
  intros Hw. induction h as [|h IH]; [done|].
  rewrite seqZ_S, bind_app, IH, bind_singleton.
  replace (Z.of_nat (S h) * w) with (Z.of_nat h * w + w) by lia.
  rewrite seqZ_app by lia. f_equal.
  replace (0 + Z.of_nat h * w) with (Z.of_nat h * w + 0) by lia.
  rewrite <- fmap_add_seqZ.
  generalize (seqZ 0 w). intros l.
  induction l as [|j l IHl]; [done|].
  rewrite bind_cons, fmap_cons, IHl. simpl. f_equal.
Qed.

Lemma bind_grid {A} (f : Z -> A) (h w : Z) :
  0 <= h -> 0 <= w ->
  (i ← seqZ 0 h; j ← seqZ 0 w; [f (i * w + j)]) = f <$> seqZ 0 (h * w).
Proof.
  intros Hh Hw.
  rewrite <- (Z2Nat.id h) at 2 by done. rewrite <- seqZ_grid by done.
  rewrite Z2Nat.id by done. rewrite fmap_bind.
  apply bind_ext_in. intros i _. rewrite fmap_bind.
  apply bind_ext_in. intros j _. done.
Qed.

Section NodeMaps.
Context `{Double}.
Implicit Types m : GeneratedMesh.

(** The nodes of a layer have consecutive identifiers. *)
Lemma layer_node_ids_flat m (layer : Z) :
  0 <= numX m -> 0 <= numY m ->
  layer_node_ids m layer
  = (fun t => layer * (numX m + 1) * (numY m + 1) + t + 1)
      <$> seqZ 0 ((numX m + 1) * (numY m + 1)).
Proof.
  intros Hx Hy. unfold layer_node_ids.
  rewrite (Z.mul_comm (numX m + 1) (numY m + 1)).
  rewrite <- (bind_grid _ (numY m + 1) (numX m + 1)) by lia.
  apply bind_ext_in. intros i _. apply bind_ext_in. intros j _.
  do 2 f_equal. lia.
Qed.

Lemma node_ids_fit_bounds m :
  node_ids_fit m ->
  0 <= (numX m + 1) * (numY m + 1) /\
  (numX m + 1) * (numY m + 1) <= INT_MAX /\
  0 <= myStartZ m * ((numX m + 1) * (numY m + 1)) /\
  0 <= myNumZ m * ((numX m + 1) * (numY m + 1)) /\
  myStartZ m * ((numX m + 1) * (numY m + 1))
  + myNumZ m * ((numX m + 1) * (numY m + 1))
  + (numX m + 1) * (numY m + 1) <= INT_MAX.
Proof.
  intros (Hx & Hy & Hz & Hs & Hfit).
  assert (0 <= (numX m + 1) * (numY m + 1)) by nia.
  assert (0 <= myStartZ m * ((numX m + 1) * (numY m + 1))) by nia.
  assert (0 <= myNumZ m * ((numX m + 1) * (numY m + 1))) by nia.
  repeat split; nia.
Qed.

Lemma node_count_proc_fit m :
  node_ids_fit m ->
  node_count_proc m = (numX m + 1) * (numY m + 1) * (myNumZ m + 1).
Proof.
  intros Hfit. destruct (node_ids_fit_bounds m Hfit) as (? & ? & ? & ? & ?).
  pose proof int_consts as (? & ? & ?).
  unfold node_count_proc. apply wrap_small. lia.
Qed.

(** What [node_map] returns. *)
Lemma node_map_spec m (map : list Z) :
  node_ids_fit m ->
  node_map m map
  = Some ((fun k => myStartZ m * (numX m + 1) * (numY m + 1) + k + 1)
            <$> seqZ 0 ((numX m + 1) * (numY m + 1) * (myNumZ m + 1))).
Proof.
  intros Hfit. unfold node_map. cbv zeta.
  rewrite for_range_store_fill by apply length_resize.
  rewrite node_count_proc_fit by done. f_equal.
  destruct (node_ids_fit_bounds m Hfit) as (? & ? & ? & ? & ?).
  apply list_fmap_ext. intros _ k Hk%list_elem_of_lookup_2%elem_of_seqZ.
  pose proof int_consts as (? & ? & ?).
  rewrite (wrap_small (myStartZ m * _ * _)) by lia.
  rewrite wrap_small by lia. apply to_int_small. lia.
Qed.

End NodeMaps.

Lemma lookup_fmap_seqZ {A} (f : Z -> A) (n k : Z) :
  0 <= k < n -> (f <$> seqZ 0 n) !! Z.to_nat k = Some (f k).
Proof.
  intros Hk. rewrite list_lookup_fmap, lookup_seqZ_lt by lia.
  cbn. do 2 f_equal. lia.
Qed.

(** C6.  [node_map] returns [node_count_proc() = (numX+1) * (numY+1) *
    (myNumZ+1)] entries; entry [k] is [myStartZ * (numX+1) * (numY+1) + k +
    1], so that the node of global layer [mz], row [i] and column [j], which
    is the local node [(mz - myStartZ) * (numX+1) * (numY+1) + i * (numX+1) +
    j], gets the identifier [mz * (numX+1) * (numY+1) + i * (numX+1) + j +
    1]. *)
Theorem node_map_consecutive `{Double} (m : GeneratedMesh) (map : list Z) :
  node_ids_fit m ->
  exists ids,
    node_map m map = Some ids /\
    Z.of_nat (length ids) = node_count_proc m /\
    node_count_proc m = (numX m + 1) * (numY m + 1) * (myNumZ m + 1) /\
    (forall k, 0 <= k < node_count_proc m ->
       ids !! Z.to_nat k
       = Some (myStartZ m * (numX m + 1) * (numY m + 1) + k + 1)) /\
    (forall mz i j,
       myStartZ m <= mz <= myStartZ m + myNumZ m ->
       0 <= i <= numY m -> 0 <= j <= numX m ->
       ids !! Z.to_nat ((mz - myStartZ m) * (numX m + 1) * (numY m + 1)
                        + i * (numX m + 1) + j)
       = Some (mz * (numX m + 1) * (numY m + 1) + i * (numX m + 1) + j + 1)).
Proof.
  intros Hfit. eexists. split; [by apply node_map_spec|].
  pose proof (node_count_proc_fit m Hfit) as Hcount.
  pose proof Hfit as (Hx & Hy & Hz & Hs & _).
  rewrite length_fmap, length_seqZ, Hcount.
  split; [nia|]. split; [done|]. split.
  - intros k Hk. by rewrite lookup_fmap_seqZ.
  - intros mz i j Hmz Hi Hj.
    rewrite lookup_fmap_seqZ; [f_equal; ring|].
    assert (HS : 0 <= (numX m + 1) * (numY m + 1)) by nia.
    assert (0 <= (mz - myStartZ m) * ((numX m + 1) * (numY m + 1))
            <= myNumZ m * ((numX m + 1) * (numY m + 1))).
    { revert HS. generalize ((numX m + 1) * (numY m + 1)). intros S HS.
      nia. }
    assert (0 <= i * (numX m + 1) <= numY m * (numX m + 1)) by nia.
    lia.
Qed.

Lemma node_map_consecutive_witness :
  node_ids_fit (constructed 1 1 3 3 1) /\
  node_map (constructed 1 1 3 3 1) [] = Some [5; 6; 7; 8; 9; 10; 11; 12].
Proof.
  assert (Hfit : node_ids_fit (constructed 1 1 3 3 1)).
  { repeat split; by vm_compute. }
  split; [exact Hfit|].
  destruct (node_map_consecutive (constructed 1 1 3 3 1) [] Hfit)
    as (ids & Hmap & _).
  rewrite Hmap. f_equal. vm_compute in Hmap. by injection Hmap as <-.
Defined.

Lemma coordinates_fit_constructed : coordinates_fit (constructed 1 1 2 2 1).
Proof. repeat split; by vm_compute. Qed.

Lemma coordinates_unrotated_witness :
  coordinates_fit (constructed 1 1 2 2 1) /\
  doRotation (constructed 1 1 2 2 1) = false /\
  coordinates (constructed 1 1 2 2 1) []
  = Some (mz ← [1; 2]; i ← [0; 1]; j ← [0; 1];
          [DAdd (DMul (DLit 1) (DLit j)) (DLit 0);
           DAdd (DMul (DLit 1) (DLit i)) (DLit 0);
           DAdd (DMul (DLit 1) (DLit mz)) (DLit 0)]).
Proof.
  split; [exact coordinates_fit_constructed|]. split; [done|].
  destruct (coordinates_unrotated (constructed 1 1 2 2 1) []
              coordinates_fit_constructed eq_refl) as (c & Hc & -> & _).
  exact Hc.
Defined.

Lemma coordinates_variants_agree_witness :
  coordinates_fit (constructed 1 1 2 2 1) /\
  exists c x y z,
    coordinates (constructed 1 1 2 2 1) [] = Some c /\
    coordinates_xyz (constructed 1 1 2 2 1) [] [] [] = Some (x, y, z) /\
    c !! 3%nat = x !! 1%nat.
Proof.
  split; [exact coordinates_fit_constructed|].
  destruct (coordinates_variants_agree (constructed 1 1 2 2 1) [] [] [] []
              coordinates_fit_constructed)
    as (c & x & y & z & Hc & Hxyz & Hlen & _ & _ & _ & Hk).
  exists c, x, y, z. split; [done|]. split; [done|].
  destruct (Hk 1%nat) as (a & b & d & Hx & _ & _ & Ha & _).
  - apply Nat2Z.inj_lt. rewrite Hlen. by vm_compute.
  - by rewrite Hx, <- Ha.
Defined.

(** ** Scenario: a 2 x 2 x 2 mesh on one processor *)

(** C7.  For [numX = numY = numZ = 2] on a single processor, without shell
    blocks and without rotation, [node_count()] is 27, [element_count()] is
    8 and [connectivity(1)] starts with the nodes [1 2 5 4 10 11 14 13] of
    the first hexahedron. *)
Theorem scenario_2x2x2 `{Double} :
  exists m,
    GeneratedMesh_of_ints 2 2 2 1 0 = Some m /\
    shellBlocks m = [] /\ doRotation m = false /\
    node_count m = 27 /\
    element_count m = Some 8 /\
    exists connect,
      connectivity m 1 [] = Some connect /\
      length connect = 64%nat /\
      take 8 connect = [1; 2; 5; 4; 10; 11; 14; 13].
Proof.
  eexists. split; [vm_compute; reflexivity|].
  split; [done|]. split; [done|].
  split; [by vm_compute|]. split; [by vm_compute|].
  eexists. split; [vm_compute; reflexivity|]. done.
Qed.

(** ** Rotation *)

Lemma set_rotation_invalid_axis `{Double} (axis : string) (angle : double)
    (m : GeneratedMesh) :
  axis <> "x"%string -> axis <> "X"%string -> axis <> "y"%string ->
  axis <> "Y"%string -> axis <> "z"%string -> axis <> "Z"%string ->
  set_rotation axis angle m = (set_doRotation true m, [InvalidAxis axis]).
Proof.
  intros Hx HX Hy HY Hz HZ. unfold set_rotation.
  repeat match goal with
         | Hne : axis <> ?s |- _ =>
             apply String.eqb_neq in Hne; rewrite Hne; clear Hne
         end.
  done.
Qed.

(** C9 (what the code does).  On a freshly constructed mesh, whose
    [doRotation] is [false], [set_rotation("w", angle)] reports the invalid
    axis and leaves [rotmat] as it was, but [doRotation] is [true]
    afterwards: the flag is raised before the axis is examined. *)
Theorem set_rotation_invalid_axis_raises_flag `{Double} (angle : double) :
  exists m,
    GeneratedMesh_of_ints 1 1 1 1 0 = Some m /\
    doRotation m = false /\
    (set_rotation "w" angle m).2 = [InvalidAxis "w"] /\
    rotmat (set_rotation "w" angle m).1 = rotmat m /\
    doRotation (set_rotation "w" angle m).1 = true.
Proof.
  eexists. split; [vm_compute; reflexivity|].
  rewrite set_rotation_invalid_axis by done. done.
Qed.

(** ** The node communication map *)

Lemma comm_loop (f : Z -> Z) (nb : Z) (n : nat) :
  forall lo pm pp rm rp,
    length pp = length pm ->
    (n <= length rm)%nat -> (n <= length rp)%nat ->
    Z.of_nat (length pm + length rm) < SIZE_MOD ->
    exists rm' rp',
      iterate n lo 1
        (fun (i : Z) '(j, map, proc) =>
           map ← store map j (f i);
           proc ← store proc j nb;
           Some (wrap (j + 1), map, proc))
        (Z.of_nat (length pm), pm ++ rm, pp ++ rp)
      = Some (Z.of_nat (length pm + n),
              pm ++ (f <$> seqZ lo (Z.of_nat n)) ++ rm',
              pp ++ replicate n nb ++ rp') /\
      length rm = (n + length rm')%nat /\
      length rp = (n + length rp')%nat.
Proof.
  induction n as [|n IH]; intros lo pm pp rm rp Hpp Hrm Hrp Hfit.
  - exists rm, rp. split; [|done]. cbn. do 3 f_equal. lia.
  - destruct rm as [|a rm]; [simpl in Hrm; lia|].
    destruct rp as [|b rp]; [simpl in Hrp; lia|].
    cbn [iterate]. rewrite store_app. cbn [mbind option_bind].
    rewrite <- Hpp, store_app. cbn [mbind option_bind].
    rewrite wrap_small by (simpl in Hfit; lia).
    rewrite (cons_middle (f lo) pm), (cons_middle nb pp), !(assoc_L (++)).
    replace (Z.of_nat (length pp) + 1)
      with (Z.of_nat (length (pm ++ [f lo])))
      by (rewrite length_app; simpl; lia).
    destruct (IH (lo + 1) (pm ++ [f lo]) (pp ++ [nb]) rm rp)
      as (rm' & rp' & E & Lm & Lp).
    { rewrite !length_app. simpl. lia. }
    { simpl in Hrm. lia. }
    { simpl in Hrp. lia. }
    { rewrite length_app. simpl in *. lia. }
    exists rm', rp'. rewrite E. split; [|simpl; lia].
    rewrite seqZ_succ, fmap_cons, <- !(assoc_L (++)), length_app. simpl.
    do 3 f_equal. lia.
Qed.

Lemma comm_loop_range (f : Z -> Z) (nb slab : Z) (pm pp rm rp : list Z) :
  length pp = length pm ->
  (Z.to_nat slab <= length rm)%nat -> (Z.to_nat slab <= length rp)%nat ->
  Z.of_nat (length pm + length rm) < SIZE_MOD ->
  exists rm' rp',
    for_range 0 slab
      (fun (i : Z) '(j, map, proc) =>
         map ← store map j (f i);
         proc ← store proc j nb;
         Some (wrap (j + 1), map, proc))
      (Z.of_nat (length pm), pm ++ rm, pp ++ rp)
    = Some (Z.of_nat (length pm + Z.to_nat slab),
            pm ++ (f <$> seqZ 0 slab) ++ rm',
            pp ++ replicate (Z.to_nat slab) nb ++ rp') /\
    length rm = (Z.to_nat slab + length rm')%nat /\
    length rp = (Z.to_nat slab + length rp')%nat.
Proof.
  intros Hpp Hrm Hrp Hfit. unfold for_range. rewrite Z.sub_0_r.
  destruct (comm_loop f nb (Z.to_nat slab) 0 pm pp rm rp Hpp Hrm Hrp Hfit)
    as (rm' & rp' & E & L).
  exists rm', rp'. by rewrite seqZ_of_to_nat in E.
Qed.

Section Communication.
Context `{Double}.
Implicit Types m : GeneratedMesh.

(** The entries the loops of [node_communication_map] write for a layer. *)
Lemma comm_layer_ids m (layer : Z) :
  node_ids_fit m -> myStartZ m <= layer <= myStartZ m + myNumZ m ->
  (fun i => to_int (wrap (wrap (layer * (numX m + 1) * (numY m + 1))
                          + i + 1)))
    <$> seqZ 0 ((numX m + 1) * (numY m + 1))
  = layer_node_ids m layer.
Proof.
  intros Hfit Hlayer.
  destruct (node_ids_fit_bounds m Hfit) as (HS & HSmax & Hs & Hz & Hmax).
  pose proof Hfit as (Hx & Hy & _).
  pose proof int_consts as (? & ? & ?).
  rewrite layer_node_ids_flat by done.
  apply list_fmap_ext. intros _ k Hk%list_elem_of_lookup_2%elem_of_seqZ.
  assert (0 <= layer * ((numX m + 1) * (numY m + 1))
          <= (myStartZ m + myNumZ m) * ((numX m + 1) * (numY m + 1))).
  { revert HS. generalize ((numX m + 1) * (numY m + 1)). intros S HS.
    destruct Hfit as (_ & _ & ? & ? & _). nia. }
  rewrite (wrap_small (layer * _ * _)) by lia.
  rewrite wrap_small by lia. apply to_int_small. lia.
Qed.

(** What [node_communication_map] returns: the bottom layer for a rank that
    is not the first, then the top layer for a rank that is not the last;
    on a single processor nothing is written and the vectors keep the
    [(numX+1) * (numY+1)] entries they were resized to. *)
Lemma node_communication_map_spec m (map proc : list Z) :
  comm_fit m ->
  let slab := Z.to_nat ((numX m + 1) * (numY m + 1)) in
  let first := bool_decide (myProcessor m = 0) in
  let last := bool_decide (myProcessor m = processorCount m - 1) in
  exists stale_map stale_proc,
    node_communication_map m map proc
    = Some ((if first then [] else layer_node_ids m (myStartZ m))
            ++ (if last then []
                else layer_node_ids m (myStartZ m + myNumZ m))
            ++ stale_map,
            (if first then [] else replicate slab (myProcessor m - 1))
            ++ (if last then [] else replicate slab (myProcessor m + 1))
            ++ stale_proc) /\
    (1 < processorCount m -> stale_map = [] /\ stale_proc = []).
Proof.
  intros (Hfit & Hr & HP) slab first last.
  destruct (node_ids_fit_bounds m Hfit) as (HS & HSmax & Hs & Hz & Hmax).
  pose proof int_consts as (? & ? & ?).
  unfold node_communication_map. cbv zeta.
  rewrite (wrap_small ((numX m + 1) * (numY m + 1))) by lia.
  rewrite !(wrap_small (processorCount m - 1)) by lia.
  rewrite (wrap_small (_ * 2)) by lia.
  rewrite (wrap_small (myProcessor m + 1)) by lia.
  rewrite (to_int_small (myProcessor m + 1)) by lia.
  subst first last.
  destruct (decide (myProcessor m = 0)) as [Hfirst|Hfirst];
    destruct (decide (myProcessor m = processorCount m - 1)) as [Hlast|Hlast].
  - (* a single processor *)
    rewrite !bool_decide_eq_true_2 by done.
    repeat (case_decide; try (exfalso; tauto)).
    eexists _, _. split; [reflexivity|]. lia.
  - (* the first of several ranks *)
    rewrite bool_decide_eq_true_2, bool_decide_eq_false_2 by done.
    repeat (case_decide; try (exfalso; tauto)).
    cbn [mbind option_bind].
    destruct (comm_loop_range
                (fun i => to_int (wrap (wrap ((myStartZ m + myNumZ m)
                                             * (numX m + 1) * (numY m + 1))
                                         + i + 1)))
                (myProcessor m + 1) ((numX m + 1) * (numY m + 1)) [] []
                (resize ((numX m + 1) * (numY m + 1)) 0 map)
                (resize ((numX m + 1) * (numY m + 1)) 0 proc))
      as (rm & rp & E & Lm & Lp);
      [done|rewrite length_resize; lia..|rewrite length_resize; simpl; lia|].
    change (Z.of_nat (length (@nil Z))) with 0 in E.
    rewrite !app_nil_l in E. rewrite E. cbn [mbind option_bind].
    rewrite comm_layer_ids by (done || destruct Hfit as (_&_&?&?&_); lia).
    rewrite length_resize in Lm, Lp.
    exists rm, rp. split; [done|]. intros _.
    destruct rm; [|simpl in Lm; lia]. destruct rp; [|simpl in Lp; lia]. done.
  - (* the last of several ranks *)
    rewrite bool_decide_eq_false_2, bool_decide_eq_true_2 by done.
    repeat (case_decide; try (exfalso; tauto)).
    rewrite (wrap_small (myProcessor m - 1)) by lia.
    rewrite (to_int_small (myProcessor m - 1)) by lia.
    destruct (comm_loop_range
                (fun i => to_int (wrap (wrap (myStartZ m
                                             * (numX m + 1) * (numY m + 1))
                                         + i + 1)))
                (myProcessor m - 1) ((numX m + 1) * (numY m + 1)) [] []
                (resize ((numX m + 1) * (numY m + 1)) 0 map)
                (resize ((numX m + 1) * (numY m + 1)) 0 proc))
      as (rm & rp & E & Lm & Lp);
      [done|rewrite length_resize; lia..|rewrite length_resize; simpl; lia|].
    change (Z.of_nat (length (@nil Z))) with 0 in E.
    rewrite !app_nil_l in E. rewrite E. cbn [mbind option_bind].
    rewrite comm_layer_ids by (done || destruct Hfit as (_&_&?&?&_); lia).
    rewrite length_resize in Lm, Lp.
    exists rm, rp. split; [done|]. intros _.
    destruct rm; [|simpl in Lm; lia]. destruct rp; [|simpl in Lp; lia]. done.
  - (* an interior rank *)
    rewrite !bool_decide_eq_false_2 by done.
    repeat (case_decide; try (exfalso; tauto)).
    rewrite (wrap_small (myProcessor m - 1)) by lia.
    rewrite (to_int_small (myProcessor m - 1)) by lia.
    destruct (comm_loop_range
                (fun i => to_int (wrap (wrap (myStartZ m
                                             * (numX m + 1) * (numY m + 1))
                                         + i + 1)))
                (myProcessor m - 1) ((numX m + 1) * (numY m + 1)) [] []
                (resize ((numX m + 1) * (numY m + 1) * 2) 0 map)
                (resize ((numX m + 1) * (numY m + 1) * 2) 0 proc))
      as (rm & rp & E & Lm & Lp);
      [done|rewrite length_resize; lia..|rewrite length_resize; simpl; lia|].
    change (Z.of_nat (length (@nil Z))) with 0 in E.
    rewrite !app_nil_l in E. rewrite E. cbn [mbind option_bind].
    rewrite length_resize in Lm, Lp.
    rewrite comm_layer_ids by (done || destruct Hfit as (_&_&?&?&_); lia).
    set (bottom := layer_node_ids m (myStartZ m)).
    set (bottom_proc := replicate _ (myProcessor m - 1)).
    assert (Hbl : length bottom = slab).
    { subst bottom. rewrite <- comm_layer_ids
        by (done || destruct Hfit as (_&_&?&?&_); lia).
      by rewrite length_fmap, length_seqZ. }
    assert (Hbp : length bottom_proc = slab)
      by (subst bottom_proc; by rewrite length_replicate).
    destruct (comm_loop_range
                (fun i => to_int (wrap (wrap ((myStartZ m + myNumZ m)
                                             * (numX m + 1) * (numY m + 1))
                                         + i + 1)))
                (myProcessor m + 1) ((numX m + 1) * (numY m + 1))
                bottom bottom_proc rm rp)
      as (rm' & rp' & E' & Lm' & Lp');
      [lia|lia|lia|rewrite Hbl; subst slab; lia|].
    replace (Z.of_nat (length (@nil Z)
                       + Z.to_nat ((numX m + 1) * (numY m + 1))))
      with (Z.of_nat (length bottom))
      by (rewrite Hbl; subst slab; simpl; lia).
    rewrite E'. cbn [mbind option_bind].
    rewrite comm_layer_ids by (done || destruct Hfit as (_&_&?&?&_); lia).
    exists rm', rp'. split; [done|]. intros _.
    destruct rm'; [|simpl in Lm'; lia]. destruct rp'; [|simpl in Lp'; lia].
    done.
Qed.

End Communication.

(** ** What the constructor leaves in the members *)

Lemma initialize_fields `{Double} (m0 m : GeneratedMesh) :
  initialize m0 = Some m ->
  numX m = numX m0 /\ numY m = numY m0 /\ numZ m = numZ m0 /\
  processorCount m = processorCount m0 /\ myProcessor m = myProcessor m0 /\
  shellBlocks m = shellBlocks m0 /\ doRotation m = doRotation m0.
Proof.
  unfold initialize. case_decide; [|discriminate]. intros [= <-].
  case_decide; done.
Qed.

Lemma initialize_single `{Double} (m0 m : GeneratedMesh) :
  initialize m0 = Some m -> processorCount m0 = 1 -> myNumZ m = numZ m.
Proof.
  unfold initialize. case_decide; [|discriminate]. intros [= <-] HP.
  rewrite decide_False by lia. done.
Qed.

Lemma GeneratedMesh_of_ints_fields `{Double} (nx ny nz P r : Z) :
  0 <= nx <= INT_MAX -> 0 <= ny <= INT_MAX -> 0 <= nz <= INT_MAX ->
  0 < P <= nz -> 0 <= r < P ->
  exists m,
    GeneratedMesh_of_ints nx ny nz P r = Some m /\
    numX m = nx /\ numY m = ny /\ numZ m = nz /\
    processorCount m = P /\ myProcessor m = r /\
    shellBlocks m = [] /\ doRotation m = false /\
    myStartZ m = r * (nz / P) + Z.min (nz mod P) r /\
    myNumZ m = nz / P + (if decide (r < nz mod P) then 1 else 0).
Proof.
  intros Hnx Hny Hnz HP Hr. pose proof int_consts as (? & ? & ? & ?).
  assert (Hnz' : 0 <= nz < SIZE_MOD) by lia.
  pose proof (rank_slab_uniform nx ny nz P r Hnz' HP Hr) as Hslab.
  unfold rank_slab in Hslab.
  destruct (GeneratedMesh_of_ints nx ny nz P r) as [m|] eqn:Hm;
    [|discriminate Hslab].
  exists m. split; [done|].
  destruct (initialize_fields _ _ Hm) as (-> & -> & -> & -> & -> & -> & ->).
  cbn. rewrite !wrap_small by lia.
  cbn in Hslab. by injection Hslab as -> ->.
Qed.

Section CommunicationScenario.
Context `{Double}.

(** Three ranks, three intervals: every rank owns one interval. *)
Lemma three_ranks (nx ny r : Z) :
  0 < nx -> 0 < ny -> 4 * ((nx + 1) * (ny + 1)) <= INT_MAX ->
  0 <= r < 3 ->
  exists m,
    GeneratedMesh_of_ints nx ny 3 3 r = Some m /\
    numX m = nx /\ numY m = ny /\ processorCount m = 3 /\
    myProcessor m = r /\ myStartZ m = r /\ myNumZ m = 1 /\ comm_fit m.
Proof.
  intros Hnx Hny Hfit Hr. pose proof int_consts as (? & ? & ? & ?).
  destruct (GeneratedMesh_of_ints_fields nx ny 3 3 r)
    as (m & Hm & Hx & Hy & Hz & HP & Hrank & _ & _ & Hs & Hn);
    [nia|nia|lia|lia|lia|].
  change (3 `div` 3) with 1 in Hs, Hn. change (3 `mod` 3) with 0 in Hs, Hn.
  rewrite decide_False in Hn by lia.
  exists m.
  repeat split; rewrite ?Hx, ?Hy, ?Hs, ?Hn, ?HP, ?Hrank; try done; nia.
Qed.

Lemma node_communication_map_three_ranks (nx ny : Z) (map proc : list Z) :
  0 < nx -> 0 < ny -> 4 * ((nx + 1) * (ny + 1)) <= INT_MAX ->
  let slab := Z.to_nat ((nx + 1) * (ny + 1)) in
  exists m0 m1 m2,
    GeneratedMesh_of_ints nx ny 3 3 0 = Some m0 /\
    GeneratedMesh_of_ints nx ny 3 3 1 = Some m1 /\
    GeneratedMesh_of_ints nx ny 3 3 2 = Some m2 /\
    node_communication_map m0 map proc
    = Some (layer_node_ids m0 1, replicate slab 1) /\
    node_communication_map m1 map proc
    = Some (layer_node_ids m1 1 ++ layer_node_ids m1 2,
            replicate slab 0 ++ replicate slab 2) /\
    node_communication_map m2 map proc
    = Some (layer_node_ids m2 2, replicate slab 1).
Proof.
  intros Hnx Hny Hfit slab.
  destruct (three_ranks nx ny 0)
    as (m0 & E0 & X0 & Y0 & P0 & R0 & S0 & N0 & F0);
    [done..|lia|].
  destruct (three_ranks nx ny 1)
    as (m1 & E1 & X1 & Y1 & P1 & R1 & S1 & N1 & F1);
    [done..|lia|].
  destruct (three_ranks nx ny 2)
    as (m2 & E2 & X2 & Y2 & P2 & R2 & S2 & N2 & F2);
    [done..|lia|].
  exists m0, m1, m2. do 3 (split; [done|]).
  split; [|split].
  - destruct (node_communication_map_spec m0 map proc F0)
      as (sm & sp & E & Hstale).
    destruct Hstale as [-> ->]; [lia|]. rewrite E.
    rewrite bool_decide_eq_true_2, bool_decide_eq_false_2 by lia.
    rewrite ?X0, ?Y0, ?R0, ?S0, ?N0. by rewrite ?app_nil_r.
  - destruct (node_communication_map_spec m1 map proc F1)
      as (sm & sp & E & Hstale).
    destruct Hstale as [-> ->]; [lia|]. rewrite E.
    rewrite !bool_decide_eq_false_2 by lia.
    rewrite ?X1, ?Y1, ?R1, ?S1, ?N1. by rewrite ?app_nil_r.
  - destruct (node_communication_map_spec m2 map proc F2)
      as (sm & sp & E & Hstale).
    destruct Hstale as [-> ->]; [lia|]. rewrite E.
    rewrite bool_decide_eq_false_2, bool_decide_eq_true_2 by lia.
    rewrite ?X2, ?Y2, ?R2, ?S2, ?N2. by rewrite ?app_nil_r.
Qed.

(** C5.  For a rank other than rank 0, [node_communication_map] emits the
    nodes of its bottom layer (global Z index [myStartZ]) paired with rank
    [myProcessor - 1]; then, for a rank other than the last, the nodes of
    its top layer (global Z index [myStartZ + myNumZ]) paired with rank
    [myProcessor + 1]; on several processors nothing else is in the map.
    With three ranks and [numZ = 3], rank 0 emits only its top layer, shared
    with rank 1; rank 1 its bottom layer, shared with rank 0, and its top
    layer, shared with rank 2; rank 2 only its bottom layer, shared with
    rank 1. *)
Theorem node_communication_map_layers :
  (forall (m : GeneratedMesh) (map proc : list Z),
     comm_fit m ->
     let slab := Z.to_nat ((numX m + 1) * (numY m + 1)) in
     let first := bool_decide (myProcessor m = 0) in
     let last := bool_decide (myProcessor m = processorCount m - 1) in
     exists stale_map stale_proc,
       node_communication_map m map proc
       = Some ((if first then [] else layer_node_ids m (myStartZ m))
               ++ (if last then []
                   else layer_node_ids m (myStartZ m + myNumZ m))
               ++ stale_map,
               (if first then [] else replicate slab (myProcessor m - 1))
               ++ (if last then [] else replicate slab (myProcessor m + 1))
               ++ stale_proc) /\
       (1 < processorCount m -> stale_map = [] /\ stale_proc = [])) /\
  (forall (nx ny : Z) (map proc : list Z),
     0 < nx -> 0 < ny -> 4 * ((nx + 1) * (ny + 1)) <= INT_MAX ->
     let slab := Z.to_nat ((nx + 1) * (ny + 1)) in
     exists m0 m1 m2,
       GeneratedMesh_of_ints nx ny 3 3 0 = Some m0 /\
       GeneratedMesh_of_ints nx ny 3 3 1 = Some m1 /\
       GeneratedMesh_of_ints nx ny 3 3 2 = Some m2 /\
       node_communication_map m0 map proc
       = Some (layer_node_ids m0 1, replicate slab 1) /\
       node_communication_map m1 map proc
       = Some (layer_node_ids m1 1 ++ layer_node_ids m1 2,
               replicate slab 0 ++ replicate slab 2) /\
       node_communication_map m2 map proc
       = Some (layer_node_ids m2 2, replicate slab 1)).
Proof.
  split.
  - apply node_communication_map_spec.
  - apply node_communication_map_three_ranks.
Qed.

End CommunicationScenario.

Lemma node_communication_map_layers_witness :
  comm_fit (constructed 1 1 3 3 1) /\
  node_communication_map (constructed 1 1 3 3 1) [] []
  = Some ([5; 6; 7; 8; 9; 10; 11; 12], [0; 0; 0; 0; 2; 2; 2; 2]).
Proof.
  assert (Hfit : comm_fit (constructed 1 1 3 3 1)).
  { repeat split; by vm_compute. }
  split; [exact Hfit|].
  destruct (node_communication_map_layers (H:=SymbolicDouble)) as [Hgen _].
  destruct (Hgen (constructed 1 1 3 3 1) [] [] Hfit)
    as (sm & sp & E & Hstale).
  destruct Hstale as [-> ->]; [by vm_compute|]. by rewrite E.
Defined.

(** ** Sums *)

Lemma sum_Z_cons (a : Z) (l : list Z) : sum_Z (a :: l) = a + sum_Z l.
Proof. done. Qed.

Lemma sum_Z_app (l1 l2 : list Z) : sum_Z (l1 ++ l2) = sum_Z l1 + sum_Z l2.
Proof. induction l1 as [|a l1 IH]; simpl; lia. Qed.

Lemma sum_Z_nonneg (l : list Z) : Forall (fun v => 0 <= v) l -> 0 <= sum_Z l.
Proof. induction 1; simpl; lia. Qed.

Lemma sum_Z_elem (l : list Z) (v : Z) :
  Forall (fun v => 0 <= v) l -> v ∈ l -> v <= sum_Z l.
Proof.
  induction 1 as [|a l Ha Hl IH]; intros Hv; [by inversion Hv|].
  pose proof (sum_Z_nonneg l Hl). simpl.
  apply elem_of_cons in Hv as [->|Hv]; [lia|]. specialize (IH Hv). lia.
Qed.

Lemma sum_Z_length (l : list Z) :
  Forall (fun v => 1 <= v) l -> Z.of_nat (length l) <= sum_Z l.
Proof. induction 1; simpl; lia. Qed.

Lemma sum_Z_fmap_add {A} (f g : A -> Z) (l : list A) :
  sum_Z ((fun a => f a + g a) <$> l) = sum_Z (f <$> l) + sum_Z (g <$> l).
Proof.
  induction l as [|a l IH]; [done|].
  rewrite !fmap_cons, !sum_Z_cons, IH. lia.
Qed.

Lemma sum_Z_fmap_mul {A} (c : Z) (f : A -> Z) (l : list A) :
  sum_Z ((fun a => c * f a) <$> l) = c * sum_Z (f <$> l).
Proof.
  induction l as [|a l IH]; [simpl; lia|].
  rewrite !fmap_cons, !sum_Z_cons, IH. lia.
Qed.

Lemma sum_Z_fmap_ext {A} (f g : A -> Z) (l : list A) :
  (forall a, a ∈ l -> f a = g a) -> sum_Z (f <$> l) = sum_Z (g <$> l).
Proof.
  intros Hfg. f_equal. apply list_fmap_ext.
  intros i a Ha. apply Hfg. by eapply list_elem_of_lookup_2.
Qed.

Lemma sum_Z_fmap_zero {A} (f : A -> Z) (l : list A) :
  (forall a, a ∈ l -> f a = 0) -> sum_Z (f <$> l) = 0.
Proof.
  intros Hf. rewrite (sum_Z_fmap_ext f (fun _ => 0)) by done.
  clear Hf. induction l as [|a l IH]; [done|].
  rewrite fmap_cons, sum_Z_cons, IH. done.
Qed.

(** Only rank [k] contributes. *)
Lemma sum_Z_single (c k n : Z) :
  0 <= k < n ->
  sum_Z ((fun r => if decide (r = k) then c else 0) <$> seqZ 0 n) = c.
Proof.
  intros Hk. replace n with (k + (1 + (n - k - 1))) by lia.
  rewrite seqZ_app, seqZ_app by lia. rewrite !fmap_app, !sum_Z_app.
  rewrite (sum_Z_fmap_zero _ (seqZ 0 k)).
  - rewrite (sum_Z_fmap_zero _ (seqZ (0 + k + 1) _)).
    + change (seqZ (0 + k) 1) with [0 + 0 + k]. simpl.
      rewrite decide_True by lia. lia.
    + intros r Hr%elem_of_seqZ. rewrite decide_False by lia. done.
  - intros r Hr%elem_of_seqZ. rewrite decide_False by lia. done.
Qed.

(** Sums over ranks and over blocks commute. *)
Lemma sum_Z_swap {A B} (s : A -> B -> Z) (la : list A) (lb : list B) :
  sum_Z ((fun a => sum_Z (s a <$> lb)) <$> la)
  = sum_Z ((fun b => sum_Z ((fun a => s a b) <$> la)) <$> lb).
Proof.
  induction lb as [|b lb IH].
  - by apply sum_Z_fmap_zero.
  - rewrite fmap_cons, sum_Z_cons, <- IH.
    rewrite <- (sum_Z_fmap_add (fun a => s a b)).
    apply sum_Z_fmap_ext. intros a _. by rewrite fmap_cons, sum_Z_cons.
Qed.

(** A loop that adds up the terms [vals]. *)
Lemma accumulate_loop (term : Z -> option Z) (vals : list Z) :
  forall lo c0,
    (forall (i : nat) v,
       vals !! i = Some v -> term (lo + Z.of_nat i) = Some v) ->
    Forall (fun v => 0 <= v) vals ->
    0 <= c0 -> c0 + sum_Z vals < SIZE_MOD ->
    iterate (length vals) lo 1
      (fun i count => e ← term i; Some (wrap (count + e))) c0
    = Some (c0 + sum_Z vals).
Proof.
  induction vals as [|v vals IH]; intros lo c0 Hterm Hpos Hc0 Hfit.
  - simpl. f_equal. lia.
  - inversion Hpos as [|? ? Hv Hvals]; subst.
    pose proof (sum_Z_nonneg vals Hvals). simpl in Hfit.
    cbn [iterate length]. pose proof (Hterm 0%nat v eq_refl) as Hv0.
    change (Z.of_nat 0) with 0 in Hv0. rewrite Z.add_0_r in Hv0.
    rewrite Hv0. cbn [mbind option_bind].
    rewrite wrap_small by lia. rewrite IH; [simpl; f_equal; lia| |done|lia|lia].
    intros i w Hi. replace (lo + 1 + Z.of_nat i) with (lo + Z.of_nat (S i))
      by lia.
    by apply Hterm.
Qed.

(** ** Element counts *)

Section Counts.
Context `{Double}.
Implicit Types m : GeneratedMesh.

Lemma shell_count_bounds (nx ny nz : Z) (blocks : list ShellLocation) :
  0 < nx -> 0 < ny -> 0 < nz ->
  (forall loc, 1 <= shell_count nx ny nz loc <= nx * ny * nz) /\
  Forall (fun v => 0 <= v) (shell_count nx ny nz <$> blocks) /\
  Z.of_nat (length blocks) + 1 <= total_elements nx ny nz blocks /\
  nx * ny * nz <= total_elements nx ny nz blocks.
Proof.
  intros Hx Hy Hz.
  assert (Hloc : forall loc, 1 <= shell_count nx ny nz loc <= nx * ny * nz).
  { intros []; simpl; nia. }
  split; [done|].
  assert (Hpos : Forall (fun v => 1 <= v) (shell_count nx ny nz <$> blocks)).
  { apply Forall_fmap, Forall_forall. intros loc _. apply Hloc. }
  split; [eapply Forall_impl; [exact Hpos|]; simpl; lia|].
  pose proof (sum_Z_length _ Hpos) as Hlen. rewrite length_fmap in Hlen.
  unfold total_elements. pose proof (Hloc MX). split; lia.
Qed.

Lemma shell_element_count_fit m (loc : ShellLocation) :
  0 < numX m -> 0 < numY m -> 0 < numZ m ->
  numX m * numY m * numZ m < SIZE_MOD ->
  shell_element_count m loc = shell_count (numX m) (numY m) (numZ m) loc.
Proof.
  intros Hx Hy Hz Hfit.
  destruct (shell_count_bounds (numX m) (numY m) (numZ m) [] Hx Hy Hz)
    as (Hloc & _).
  specialize (Hloc loc). destruct loc; simpl in *; apply wrap_small; lia.
Qed.

Lemma element_count_block_shell m (i : nat) (loc : ShellLocation) :
  Z.of_nat (length (shellBlocks m)) + 1 < SIZE_MOD ->
  shellBlocks m !! i = Some loc ->
  element_count_block m (wrap (Z.of_nat i + 2))
  = Some (shell_element_count m loc).
Proof.
  intros Hfit Hi. pose proof (lookup_lt_Some _ _ _ Hi) as Hlt.
  unfold element_count_block, block_count.
  rewrite !wrap_small by lia.
  rewrite decide_True, decide_False by lia.
  replace (Z.of_nat i + 2 - 2) with (Z.of_nat i) by lia.
  rewrite wrap_small by lia. by rewrite load_lookup, Hi.
Qed.

Lemma element_count_proc_block_shell m (i : nat) (loc : ShellLocation) :
  Z.of_nat (length (shellBlocks m)) + 1 < SIZE_MOD ->
  shellBlocks m !! i = Some loc ->
  element_count_proc_block m (wrap (Z.of_nat i + 2))
  = Some (shell_element_count_proc m loc).
Proof.
  intros Hfit Hi. pose proof (lookup_lt_Some _ _ _ Hi) as Hlt.
  unfold element_count_proc_block, block_count.
  rewrite !wrap_small by lia.
  rewrite decide_True, decide_False by lia.
  replace (Z.of_nat i + 2 - 2) with (Z.of_nat i) by lia.
  rewrite wrap_small by lia. by rewrite load_lookup, Hi.
Qed.

(** What [element_count()] returns. *)
Lemma element_count_spec m :
  0 < numX m -> 0 < numY m -> 0 < numZ m ->
  total_elements (numX m) (numY m) (numZ m) (shellBlocks m) < SIZE_MOD ->
  element_count m
  = Some (total_elements (numX m) (numY m) (numZ m) (shellBlocks m)).
Proof.
  intros Hx Hy Hz Hfit.
  destruct (shell_count_bounds (numX m) (numY m) (numZ m) (shellBlocks m)
              Hx Hy Hz) as (Hloc & Hpos & Hlen & Hhex).
  unfold element_count.
  assert (E1 : element_count_block m 1
               = Some (numX m * numY m * numZ m)).
  { unfold element_count_block, block_count.
    rewrite wrap_small by lia. rewrite decide_True, decide_True by lia.
    rewrite wrap_small by nia. done. }
  rewrite E1. cbn [mbind option_bind]. unfold for_range.
  rewrite Z.sub_0_r, Nat2Z.id.
  rewrite <- (length_fmap (shell_count (numX m) (numY m) (numZ m))).
  rewrite (accumulate_loop
             (fun i => element_count_block m (wrap (i + 2))));
    [done| |done|nia|done].
  intros i v Hi. rewrite Z.add_0_l.
  apply list_lookup_fmap_Some in Hi as (loc & -> & Hi).
  rewrite (element_count_block_shell m i loc) by (done || lia).
  by rewrite shell_element_count_fit by (done || lia).
Qed.

(** The per-processor count of a shell block, without the wrap-around. *)
Lemma shell_element_count_proc_fit m (loc : ShellLocation) :
  0 < numX m -> 0 < numY m -> 0 < numZ m -> 0 <= myNumZ m <= numZ m ->
  0 < processorCount m < SIZE_MOD ->
  numX m * numY m * numZ m < SIZE_MOD ->
  shell_element_count_proc m loc
  = match loc with
    | MX | PX => numY m * myNumZ m
    | MY | PY => numX m * myNumZ m
    | MZ => if decide (myProcessor m = 0) then numX m * numY m else 0
    | PZ => if decide (myProcessor m = processorCount m - 1)
            then numX m * numY m else 0
    end /\
  0 <= shell_element_count_proc m loc <= numX m * numY m * numZ m.
Proof.
  intros Hx Hy Hnz Hz HP Hfit.
  assert (0 <= numY m * myNumZ m <= numY m * numZ m) by nia.
  assert (0 <= numX m * myNumZ m <= numX m * numZ m) by nia.
  assert (numY m * numZ m <= numX m * (numY m * numZ m)) by nia.
  assert (numX m * numZ m <= numY m * (numX m * numZ m)) by nia.
  assert (0 < numX m * numY m) by nia.
  assert (numX m * numY m * 1 <= numX m * numY m * numZ m)
    by (apply Z.mul_le_mono_nonneg_l; lia).
  destruct loc; unfold shell_element_count_proc;
    rewrite ?(wrap_small (processorCount m - 1)) by lia;
    repeat case_decide; rewrite ?wrap_small by lia; split; lia.
Qed.

(** What [element_count_proc()] returns. *)
Lemma element_count_proc_spec m :
  0 < numX m -> 0 < numY m -> 0 < numZ m -> 0 <= myNumZ m <= numZ m ->
  0 < processorCount m < SIZE_MOD ->
  total_elements (numX m) (numY m) (numZ m) (shellBlocks m) < SIZE_MOD ->
  element_count_proc m
  = Some (numX m * numY m * myNumZ m
          + sum_Z (shell_element_count_proc m <$> shellBlocks m)) /\
  numX m * numY m * myNumZ m
  + sum_Z (shell_element_count_proc m <$> shellBlocks m)
  <= total_elements (numX m) (numY m) (numZ m) (shellBlocks m).
Proof.
  intros Hx Hy Hz Hmy HP Hfit.
  destruct (shell_count_bounds (numX m) (numY m) (numZ m) (shellBlocks m)
              Hx Hy Hz) as (Hloc & Hpos & Hlen & Hhex).
  assert (Hhex' : numX m * numY m * numZ m < SIZE_MOD) by lia.
  assert (Hle : forall blocks,
            sum_Z (shell_element_count_proc m <$> blocks)
            <= sum_Z (shell_count (numX m) (numY m) (numZ m) <$> blocks) /\
            Forall (fun v => 0 <= v)
              (shell_element_count_proc m <$> blocks)).
  { intros blocks.
    induction blocks as [|loc l IH]; [by split; [|constructor]|].
    rewrite !fmap_cons, !sum_Z_cons. destruct IH as [IH1 IH2].
    destruct (shell_element_count_proc_fit m loc) as [E B]; [done..|].
    split; [|constructor; [lia|done]].
    rewrite E. clear E B.
    assert (numY m * myNumZ m <= numY m * numZ m) by nia.
    assert (numX m * myNumZ m <= numX m * numZ m) by nia.
    assert (0 <= numX m * numY m) by nia.
    destruct loc; simpl; repeat case_decide; lia. }
  destruct (Hle (shellBlocks m)) as [Hle' Hpos']. clear Hle.
  assert (Hmul : 0 <= numX m * numY m * myNumZ m
                 <= numX m * numY m * numZ m).
  { assert (0 < numX m * numY m) by nia.
    split; [nia|]. apply Z.mul_le_mono_nonneg_l; lia. }
  split; [|unfold total_elements; lia].
  unfold element_count_proc, for_range, block_count.
  rewrite wrap_small by lia. rewrite Z.sub_0_r.
  replace (Z.to_nat (Z.of_nat (length (shellBlocks m)) + 1))
    with (length (numX m * numY m * myNumZ m
                  :: (shell_element_count_proc m <$> shellBlocks m)))
    by (simpl; rewrite length_fmap; lia).
  rewrite (accumulate_loop
             (fun i => element_count_proc_block m (wrap (i + 1)))).
  - by rewrite sum_Z_cons.
  - intros [|i] v Hi.
    + injection Hi as <-. unfold element_count_proc_block, block_count.
      change (0 + Z.of_nat 0 + 1) with 1.
      rewrite !wrap_small by lia.
      by rewrite decide_True, decide_True by lia.
    + cbn in Hi. apply list_lookup_fmap_Some in Hi as (loc & -> & Hi).
      replace (0 + Z.of_nat (S i) + 1) with (Z.of_nat i + 2) by lia.
      by apply element_count_proc_block_shell; [lia|].
  - constructor; [lia|done].
  - lia.
  - rewrite sum_Z_cons. unfold total_elements in Hfit. lia.
Qed.

End Counts.

Section CountsOverRanks.
Context `{Double}.
Variable mesh_of : Z -> GeneratedMesh.
Variables nx ny nz P : Z.
Variable blocks : list ShellLocation.
Hypothesis Hnx : 0 < nx.
Hypothesis Hny : 0 < ny.
Hypothesis Hnz : 0 < nz.
Hypothesis HP : 0 < P <= INT_MAX.
Hypothesis Hranks :
  forall r, 0 <= r < P ->
    numX (mesh_of r) = nx /\ numY (mesh_of r) = ny /\
    numZ (mesh_of r) = nz /\ shellBlocks (mesh_of r) = blocks /\
    processorCount (mesh_of r) = P /\ myProcessor (mesh_of r) = r /\
    0 <= myNumZ (mesh_of r).
Hypothesis Hcover : sum_Z ((fun r => myNumZ (mesh_of r)) <$> seqZ 0 P) = nz.
Hypothesis Hfit : total_elements nx ny nz blocks < SIZE_MOD.

Lemma rank_slab_le r : 0 <= r < P -> 0 <= myNumZ (mesh_of r) <= nz.
Proof.
  intros Hr. destruct (Hranks r Hr) as (_ & _ & _ & _ & _ & _ & Hpos).
  split; [done|]. rewrite <- Hcover. apply sum_Z_elem.
  - apply Forall_fmap, Forall_forall. intros r' Hr'%elem_of_seqZ.
    by apply Hranks.
  - apply (list_elem_of_fmap_2 (fun r => myNumZ (mesh_of r))).
    apply elem_of_seqZ. lia.
Qed.

Lemma rank_fits r :
  0 <= r < P ->
  0 < numX (mesh_of r) /\ 0 < numY (mesh_of r) /\ 0 < numZ (mesh_of r) /\
  0 <= myNumZ (mesh_of r) <= numZ (mesh_of r) /\
  0 < processorCount (mesh_of r) < SIZE_MOD /\
  numX (mesh_of r) * numY (mesh_of r) * numZ (mesh_of r) < SIZE_MOD /\
  total_elements (numX (mesh_of r)) (numY (mesh_of r)) (numZ (mesh_of r))
    (shellBlocks (mesh_of r)) < SIZE_MOD.
Proof.
  intros Hr. pose proof (rank_slab_le r Hr) as Hle.
  destruct (Hranks r Hr) as (-> & -> & -> & -> & -> & Hrank & _).
  destruct (shell_count_bounds nx ny nz blocks Hnx Hny Hnz)
    as (_ & _ & _ & Hhex).
  pose proof int_consts as (? & ? & ? & ?).
  repeat split; lia.
Qed.

(** The elements of one shell block, added up over the ranks. *)
Lemma shell_count_over_ranks (loc : ShellLocation) :
  sum_Z ((fun r => shell_element_count_proc (mesh_of r) loc) <$> seqZ 0 P)
  = shell_count nx ny nz loc.
Proof.
  rewrite (sum_Z_fmap_ext _
    (fun r => match loc with
              | MX | PX => ny * myNumZ (mesh_of r)
              | MY | PY => nx * myNumZ (mesh_of r)
              | MZ => if decide (r = 0) then nx * ny else 0
              | PZ => if decide (r = P - 1) then nx * ny else 0
              end)).
  - destruct loc; simpl;
      rewrite ?sum_Z_fmap_mul, ?Hcover, ?sum_Z_single by lia; done.
  - intros r Hr%elem_of_seqZ. assert (Hr' : 0 <= r < P) by lia.
    destruct (rank_fits r Hr') as (Hx & Hy & Hz & Hmy & HP' & Hhex & _).
    destruct (shell_element_count_proc_fit (mesh_of r) loc) as [-> _];
      [done..|].
    destruct (Hranks r Hr') as (-> & -> & _ & _ & -> & -> & _). done.
Qed.

(** C4.  [element_count()] is [numX * numY * numZ] plus, for every declared
    shell block, its global count ([numY * numZ] for MX and PX,
    [numX * numZ] for MY and PY, [numX * numY] for MZ and PZ); the
    per-processor counts [element_count_proc()] of the ranks of a partition
    add up to it; the per-processor count of MZ is [numX * numY] on rank 0
    and 0 elsewhere, that of PZ is [numX * numY] on the last rank and 0
    elsewhere. *)
Theorem element_counts_over_ranks :
  (forall r, 0 <= r < P ->
     element_count (mesh_of r) = Some (total_elements nx ny nz blocks)) /\
  (exists counts,
     Forall2 (fun r c => element_count_proc (mesh_of r) = Some c)
       (seqZ 0 P) counts /\
     sum_Z counts = total_elements nx ny nz blocks) /\
  (forall r, 0 <= r < P ->
     shell_element_count_proc (mesh_of r) MZ
     = (if decide (r = 0) then nx * ny else 0) /\
     shell_element_count_proc (mesh_of r) PZ
     = (if decide (r = P - 1) then nx * ny else 0)).
Proof.
  split; [|split].
  - intros r Hr.
    destruct (rank_fits r Hr) as (Hx & Hy & Hz & Hmy & HP' & Hhex & Htot).
    rewrite element_count_spec by done.
    by destruct (Hranks r Hr) as (-> & -> & -> & -> & _).
  - exists ((fun r => nx * ny * myNumZ (mesh_of r)
                      + sum_Z (shell_element_count_proc (mesh_of r)
                                 <$> blocks)) <$> seqZ 0 P).
    split.
    + apply Forall2_fmap_r, Forall_Forall2_diag, Forall_forall.
      intros r Hr%elem_of_seqZ. assert (Hr' : 0 <= r < P) by lia.
      destruct (rank_fits r Hr') as (Hx & Hy & Hz & Hmy & HP' & Hhex & Htot).
      destruct (element_count_proc_spec (mesh_of r)) as [-> _]; [done..|].
      by destruct (Hranks r Hr') as (-> & -> & _ & -> & _).
    + rewrite (sum_Z_fmap_add (fun r => nx * ny * myNumZ (mesh_of r))).
      rewrite sum_Z_fmap_mul, Hcover.
      rewrite (sum_Z_swap
                 (fun r loc => shell_element_count_proc (mesh_of r) loc)).
      unfold total_elements. f_equal.
      apply sum_Z_fmap_ext. intros loc _. apply shell_count_over_ranks.
  - intros r Hr.
    destruct (rank_fits r Hr) as (Hx & Hy & Hz & Hmy & HP' & Hhex & _).
    destruct (shell_element_count_proc_fit (mesh_of r) MZ) as [-> _];
      [done..|].
    destruct (shell_element_count_proc_fit (mesh_of r) PZ) as [-> _];
      [done..|].
    by destruct (Hranks r Hr) as (-> & -> & _ & _ & -> & -> & _).
Qed.

End CountsOverRanks.

Lemma element_counts_over_ranks_witness :
  element_count (example_ranks 0) = Some 28 /\
  element_count_proc (example_ranks 0) = Some 12 /\
  element_count_proc (example_ranks 1) = Some 16.
Proof.
  destruct (element_counts_over_ranks example_ranks 2 2 4 2 [MX; PZ])
    as (Hall & _ & _).
  - lia.
  - lia.
  - lia.
  - by vm_compute.
  - intros r Hr. assert (r = 0 \/ r = 1) as [-> | ->] by lia;
      repeat split; by vm_compute.
  - reflexivity.
  - by vm_compute.
  - split; [exact (Hall 0 ltac:(lia))|]. split; reflexivity.
Defined.

(** ** The zdecomp option *)

Lemma sum_Z_take_le (vs : list Z) (n : nat) :
  Forall (fun v => 0 <= v) vs -> 0 <= sum_Z (take n vs) <= sum_Z vs.
Proof.
  intros Hpos. rewrite <- (take_drop n vs) at 3. rewrite sum_Z_app.
  assert (0 <= sum_Z (take n vs)) by (by apply sum_Z_nonneg, Forall_take).
  assert (0 <= sum_Z (drop n vs)) by (by apply sum_Z_nonneg, Forall_drop).
  lia.
Qed.

Section Zdecomp.
Context `{Double}.
Implicit Types m : GeneratedMesh.

Lemma parse_zdecomp_spec (tokens : list string) (values : list Z) m :
  Forall2 (fun t v => strtol t = v /\ 0 <= v) tokens values ->
  Z.of_nat (length values) = processorCount m ->
  0 <= myProcessor m < processorCount m ->
  sum_Z values < SIZE_MOD ->
  exists my_num_z,
    values !! Z.to_nat (myProcessor m) = Some my_num_z /\
    parse_zdecomp tokens m
    = Some (set_slab my_num_z
              (sum_Z (take (Z.to_nat (myProcessor m)) values))
              (set_intervals (numX m) (numY m) (sum_Z values) m)).
Proof.
  intros Htok Hlen Hrank Hfit.
  pose proof (Forall2_length _ _ _ Htok) as Hlen'.
  assert (Hpos : Forall (fun v => 0 <= v) values).
  { apply Forall_forall. intros v Hv.
    apply list_elem_of_lookup in Hv as (i & Hi).
    destruct (Forall2_lookup_r _ _ _ _ _ Htok Hi) as (t & _ & _ & Hv).
    done. }
  destruct (lookup_lt_is_Some_2 values (Z.to_nat (myProcessor m)))
    as (my_num_z & Hmy); [lia|].
  exists my_num_z. split; [done|].
  unfold parse_zdecomp. rewrite decide_True by lia.
  destruct (for_range_total
              (fun i st => st = (sum_Z (take (Z.to_nat i) values),
                                 take (Z.to_nat i) values))
              0 (processorCount m)
              (fun j '(num_z, Zs) =>
                 t ← load tokens j;
                 zj ← load (Zs ++ [wrap (strtol t)]) j;
                 Some (wrap (num_z + zj), Zs ++ [wrap (strtol t)]))
              (0, [])) as (st & Eloop & ->); [lia|done| |].
  { intros j st Hj ->.
    destruct (lookup_lt_is_Some_2 values (Z.to_nat j)) as (v & Hv); [lia|].
    destruct (Forall2_lookup_r _ _ _ _ _ Htok Hv) as (t & Ht & Hstr & Hv0).
    pose proof (sum_Z_take_le values (Z.to_nat (j + 1)) Hpos) as Hle.
    replace (Z.to_nat (j + 1)) with (S (Z.to_nat j)) in * by lia.
    rewrite (take_S_r _ _ _ Hv) in *. rewrite sum_Z_app in *.
    simpl in Hle. pose proof (sum_Z_take_le values (Z.to_nat j) Hpos).
    rewrite load_to_nat, Ht by lia.
    cbn [mbind option_bind]. rewrite Hstr, (wrap_small v) by lia.
    rewrite (load_at (take (Z.to_nat j) values) [v] _ 0 v);
      [|rewrite length_take; lia|done].
    cbn [mbind option_bind]. eexists. split; [reflexivity|].
    f_equal. rewrite wrap_small by (simpl; lia). simpl. lia. }
  rewrite Eloop. cbn [mbind option_bind].
  rewrite <- Hlen, Nat2Z.id, firstn_all.
  rewrite load_to_nat, Hmy by lia. cbn [mbind option_bind].
  unfold for_range. rewrite Z.sub_0_r.
  pose proof (sum_Z_take_le values (Z.to_nat (myProcessor m)) Hpos) as Hle.
  replace (Z.to_nat (myProcessor m))
    with (length (take (Z.to_nat (myProcessor m)) values)) at 1
    by (rewrite length_take; lia).
  rewrite (accumulate_loop (fun j => load values j)).
  - done.
  - intros i v Hi. rewrite Z.add_0_l, load_lookup.
    apply lookup_take_Some in Hi. tauto.
  - by apply Forall_take.
  - done.
  - lia.
Qed.

End Zdecomp.

(** C8.  When a group of the specification string is a [zdecomp] option
    whose argument splits into [processorCount] tokens that [strtol] reads as
    the non-negative integers [values], processing that option sets [numZ]
    to the sum of all values, [myNumZ] to the value listed for this rank and
    [myStartZ] to the sum of the values listed for the ranks before it. *)
Theorem zdecomp_prefix_sums `{Double}
    (tokenize : string -> string -> list string) (m : GeneratedMesh)
    (log : list message) (group arg : string) (values : list Z) :
  tokenize group ":"%string = ["zdecomp"%string; arg] ->
  Forall2 (fun t v => strtol t = v /\ 0 <= v)
    (tokenize arg ","%string) values ->
  Z.of_nat (length values) = processorCount m ->
  0 <= myProcessor m < processorCount m ->
  sum_Z values < SIZE_MOD ->
  exists m',
    parse_option tokenize (tokenize group ":"%string) (m, log)
    = Some (m', log) /\
    numZ m' = sum_Z values /\
    values !! Z.to_nat (myProcessor m) = Some (myNumZ m') /\
    myStartZ m' = sum_Z (take (Z.to_nat (myProcessor m)) values) /\
    numX m' = numX m /\ numY m' = numY m /\
    processorCount m' = processorCount m /\ myProcessor m' = myProcessor m.
Proof.
  intros Hgroup Htok Hlen Hrank Hfit.
  destruct (parse_zdecomp_spec _ _ m Htok Hlen Hrank Hfit)
    as (my_num_z & Hmy & Hparse).
  eexists. split.
  - rewrite Hgroup. unfold parse_option.
    change (load ["zdecomp"%string; arg] 0) with (Some "zdecomp"%string).
    change (load ["zdecomp"%string; arg] 1) with (Some arg).
    cbn [mbind option_bind]. cbn [String.eqb Ascii.eqb Bool.eqb].
    rewrite Hparse. reflexivity.
  - done.
Qed.

Lemma zdecomp_prefix_sums_witness :
  exists m',
    parse_option tokenize_model (tokenize_model "zdecomp:1,3" ":")
      (constructed 2 2 4 2 1, [])
    = Some (m', []) /\
    numZ m' = 4 /\ myNumZ m' = 3 /\ myStartZ m' = 1.
Proof.
  destruct (zdecomp_prefix_sums tokenize_model (constructed 2 2 4 2 1) []
              "zdecomp:1,3" "1,3" [1; 3])
    as (m' & Hparse & Hnz & Hmy & Hstart & _).
  - reflexivity.
  - repeat constructor; by vm_compute.
  - reflexivity.
  - split; by vm_compute.
  - by vm_compute.
  - exists m'. split; [done|]. split; [done|]. split; [|done].
    by injection Hmy as <-.
Defined.

(** ** The surface map of a side face *)

Lemma side_entry_Some (elem face index : Z) (map : list Z) :
  0 <= index -> 2 * index + 1 < SIZE_MOD ->
  2 * index + 1 < Z.of_nat (length map) ->
  exists map',
    side_entry elem face (index, map) = Some (index + 1, map') /\
    length map' = length map.
Proof.
  intros Hi Hfit Hlen. unfold side_entry.
  rewrite !wrap_small by lia.
  destruct (store map (2 * index) elem) as [map1|] eqn:E1;
    [|apply store_None in E1; lia].
  apply store_Some in E1 as [_ L1]. cbn [mbind option_bind].
  destruct (store map1 (2 * index + 1) face) as [map2|] eqn:E2;
    [|apply store_None in E2; lia].
  apply store_Some in E2 as [_ L2]. cbn [mbind option_bind].
  exists map2. split; [done|lia].
Qed.

Lemma side_entry_inv (elem face index : Z) (map : list Z) st :
  0 <= index -> 2 * index + 1 < SIZE_MOD ->
  side_entry elem face (index, map) = Some st ->
  exists map',
    st = (index + 1, map') /\ length map' = length map /\
    2 * (index + 1) <= Z.of_nat (length map).
Proof.
  intros Hi Hfit. unfold side_entry. rewrite !wrap_small by lia.
  destruct (store map (2 * index) elem) as [map1|] eqn:E1; [|discriminate].
  apply store_Some in E1 as [_ L1]. cbn [mbind option_bind].
  destruct (store map1 (2 * index + 1) face) as [map2|] eqn:E2;
    [|discriminate].
  apply store_Some in E2 as [B2 L2]. cbn [mbind option_bind].
  intros [= <-]. exists map2. split; [done|]. split; lia.
Qed.

(** The loop nest of a side face stays within the vector exactly when the
    vector has two entries for each of the [nz * n] faces it visits. *)
Lemma side_loops_in_bounds (e : Z -> Z -> Z) (face n nz : Z)
    (map : list Z) :
  0 < n -> 0 < nz -> 2 * (nz * n) < SIZE_MOD ->
  is_Some (for_range 0 nz (fun k =>
             for_range 0 n (fun j => side_entry (e k j) face)) (0, map))
  <-> 2 * (nz * n) <= Z.of_nat (length map).
Proof.
  intros Hn Hnz Hfit. split.
  - intros [st Hst].
    pose (Inv := fun (pos : Z) (st : Z * list Z) =>
                   st.1 = pos /\ length st.2 = length map /\
                   2 * pos <= Z.of_nat (length map)).
    assert (Hend : Inv (nz * n) st); [|destruct Hend as (_ & _ & ?); lia].
    apply (for_range_partial (fun k => Inv (k * n)) 0 nz
             (fun k => for_range 0 n (fun j => side_entry (e k j) face))
             (0, map) st);
      [lia|unfold Inv; simpl; lia| |done].
    intros k s s' Hk Hs Hinner.
    replace ((k + 1) * n) with (k * n + n) by lia.
    apply (for_range_partial (fun j => Inv (k * n + j)) 0 n
             (fun j => side_entry (e k j) face) s s');
      [lia|by rewrite Z.add_0_r| |done].
    intros j [index map1] t Hj (Hidx & Hlen & Hle) Hbody.
    simpl in Hidx, Hlen. subst index.
    assert (0 <= k * n + j < nz * n) by nia.
    apply side_entry_inv in Hbody as (map2 & -> & Hlen2 & Hle2); [|lia..].
    unfold Inv. simpl. rewrite Hlen2, Hlen in *. lia.
  - intros Hlen.
    pose (Inv := fun (pos : Z) (st : Z * list Z) =>
                   st.1 = pos /\ length st.2 = length map).
    destruct (for_range_total (fun k => Inv (k * n)) 0 nz
                (fun k => for_range 0 n (fun j => side_entry (e k j) face))
                (0, map)) as (st & Hst & _); [lia|done| |by exists st].
    intros k s Hk Hs.
    replace ((k + 1) * n) with (k * n + n) by lia.
    apply (for_range_total (fun j => Inv (k * n + j)) 0 n);
      [lia|by rewrite Z.add_0_r|].
    intros j [index map1] Hj (Hidx & Hlen1). simpl in Hidx, Hlen1.
    subst index. assert (0 <= k * n + j < nz * n) by nia.
    destruct (side_entry_Some (e k j) face (k * n + j) map1)
      as (map2 & E & Hlen2); [lia..|].
    exists (k * n + j + 1, map2). split; [done|].
    unfold Inv. simpl. split; [lia|congruence].
Qed.

Lemma is_Some_bind_snd {A B} (x : option (A * B)) :
  is_Some (x ≫= fun '(_, b) => Some b) <-> is_Some x.
Proof.
  destruct x as [[a b]|]; simpl; split; intros [? ?]; by eauto.
Qed.

Section SurfaceMap.
Context `{Double}.
Implicit Types m : GeneratedMesh.

(** On a side face, all writes of [element_surface_map] are within the
    vector exactly when the rank owns all the intervals. *)
Lemma element_surface_map_side m (loc : ShellLocation) (map : list Z) :
  loc ∈ [MX; PX; MY; PY] -> surface_fit m ->
  is_Some (element_surface_map m loc map) <-> myNumZ m = numZ m.
Proof.
  intros Hloc (Hx & Hy & Hz & Hmy & Hfx & Hfy).
  assert (0 <= numY m * myNumZ m <= numY m * numZ m) by nia.
  assert (0 <= numX m * myNumZ m <= numX m * numZ m) by nia.
  assert (numY m * myNumZ m = numY m * numZ m -> myNumZ m = numZ m)
    by (apply Z.mul_reg_l; lia).
  assert (numX m * myNumZ m = numX m * numZ m -> myNumZ m = numZ m)
    by (apply Z.mul_reg_l; lia).
  unfold element_surface_map. cbv zeta.
  rewrite !elem_of_cons, elem_of_nil in Hloc.
  destruct Hloc as [->|[->|[->|[->|[]]]]];
    unfold shell_element_count_proc; rewrite is_Some_bind_snd;
    (eapply iff_trans; [apply side_loops_in_bounds; lia|]);
    rewrite length_resize;
    rewrite ?(wrap_small (numY m * myNumZ m)),
      ?(wrap_small (numX m * myNumZ m)) by lia;
    rewrite wrap_small by lia;
    (split; [lia|intros ->; lia]).
Qed.

End SurfaceMap.

(** ** A single processor owns all intervals *)

Ltac destruct_loads :=
  repeat match goal with
         | |- context [load ?l ?i] =>
             destruct (load l i); [|by cbn]; cbn [mbind option_bind]
         end.

Section SingleProcessor.
Context `{Double}.
Variable tokenize : string -> string -> list string.
Implicit Types m : GeneratedMesh.

Lemma parse_shell_same_slab (arg : string) m log :
  same_slab m (parse_shell arg (m, log)).1.
Proof.
  unfold parse_shell. generalize (list_ascii_of_string arg). intros cs.
  assert (Hgen : forall st, same_slab m st.1 ->
            same_slab m
              (foldl (fun '(m, log) (c : ascii) =>
                        match c with
                        | "x"%char => ((add_shell_block MX m).1, log)
                        | "X"%char => ((add_shell_block PX m).1, log)
                        | "y"%char => ((add_shell_block MY m).1, log)
                        | "Y"%char => ((add_shell_block PY m).1, log)
                        | "z"%char => ((add_shell_block MZ m).1, log)
                        | "Z"%char => ((add_shell_block PZ m).1, log)
                        | _ => (m, log ++ [UnrecognizedShell c])
                        end) st cs).1); [|by apply Hgen].
  induction cs as [|c cs IH]; intros [m1 log1] Hst; [done|].
  cbn [foldl]. apply IH.
  destruct c as [[] [] [] [] [] [] [] []]; exact Hst.
Qed.

Lemma set_rotation_same_slab (axis : string) (angle : double) m :
  same_slab m (set_rotation axis angle m).1.
Proof.
  unfold set_rotation.
  destruct (_ || _); [done|]. destruct (_ || _); [done|].
  destruct (_ || _); done.
Qed.

Lemma wrap_wrap z : wrap (wrap z) = wrap z.
Proof. unfold wrap. apply Z.mod_mod. discriminate. Qed.

Lemma parse_zdecomp_single (tokens : list string) m m' :
  processorCount m = 1 -> parse_zdecomp tokens m = Some m' ->
  processorCount m' = 1 /\ myNumZ m' = numZ m'.
Proof.
  intros HP. unfold parse_zdecomp. rewrite HP.
  case_decide; [|by cbn].
  rewrite (for_range_single 0 1) by done.
  destruct (load tokens 0) as [t|]; [|by cbn].
  cbn [mbind option_bind app].
  change (load [wrap (strtol t)] 0) with (Some (wrap (strtol t))).
  cbn [mbind option_bind].
  destruct (decide (myProcessor m = 0)) as [Hzero|Hrank];
    [|by rewrite load_singleton_ne].
  rewrite Hzero.
  change (load [wrap (strtol t)] 0) with (Some (wrap (strtol t))).
  cbn [mbind option_bind].
  rewrite for_range_empty by lia. cbn [mbind option_bind].
  intros [= <-]. cbn. split; [done|].
  by rewrite Z.add_0_l, wrap_wrap.
Qed.

Lemma parse_option_single (opt : list string) m log m' log' :
  processorCount m = 1 -> myNumZ m = numZ m ->
  parse_option tokenize opt (m, log) = Some (m', log') ->
  processorCount m' = 1 /\ myNumZ m' = numZ m'.
Proof.
  intros HP Hmy. unfold parse_option.
  destruct (load opt 0) as [key|]; [|by cbn]. cbn [mbind option_bind].
  destruct (key =? "shell")%string.
  { destruct (load opt 1) as [arg|]; [|by cbn]. cbn.
    intros [= Hm]. pose proof (parse_shell_same_slab arg m log) as (?&?&?).
    rewrite Hm in *. simpl in *. split; congruence. }
  destruct (key =? "scale")%string.
  { destruct (load opt 1) as [arg|]; [|by cbn]. cbn.
    case_decide; [|by cbn].
    destruct_loads.
    by intros [= <- _]. }
  destruct (key =? "offset")%string.
  { destruct (load opt 1) as [arg|]; [|by cbn]. cbn.
    case_decide; [|by cbn].
    destruct_loads.
    by intros [= <- _]. }
  destruct (key =? "zdecomp")%string.
  { destruct (load opt 1) as [arg|]; [|by cbn]. cbn.
    destruct (parse_zdecomp _ m) as [m1|] eqn:Hz; [|by cbn]. cbn.
    intros [= <- _]. by eapply parse_zdecomp_single. }
  destruct (key =? "bbox")%string.
  { destruct (load opt 1) as [arg|]; [|by cbn]. cbn.
    case_decide; [|by cbn].
    destruct_loads.
    by intros [= <- _]. }
  destruct (key =? "rotate")%string.
  { destruct (load opt 1) as [arg|]; [|by cbn]. cbn [mbind option_bind].
    case_decide; [|done]. intros Hit.
    assert (Hinv : same_slab m (m', log').1).
    { eapply (iterate_partial
                (fun _ (st : GeneratedMesh * list message) =>
                   same_slab m st.1)); [| |exact Hit]; [done|].
      intros k [m1 log1] [m2 log2] _ Hst.
      destruct (load _ (0 + k * 2)) as [axis|]; [|by cbn].
      cbn [mbind option_bind].
      destruct (load _ (0 + k * 2 + 1)) as [angle|]; [|by cbn].
      cbn [mbind option_bind].
      pose proof (set_rotation_same_slab axis (strtod angle) m1) as (?&?&?).
      destruct (set_rotation axis (strtod angle) m1) as [m3 msgs].
      intros [= <- _]. destruct Hst as (?&?&?).
      split; [|split]; simpl in *; congruence. }
    destruct Hinv as (?&?&?). split; simpl in *; congruence. }
  destruct (key =? "help")%string; [by intros [= <- _]|].
  destruct (key =? "show")%string.
  { destruct (show_parameters m); [|by cbn]. cbn. by intros [= <- _]. }
  by intros [= <- _].
Qed.

Lemma parse_options_single (groups : list string) m log m' log' :
  processorCount m = 1 -> myNumZ m = numZ m ->
  parse_options tokenize groups (m, log) = Some (m', log') ->
  processorCount m' = 1 /\ myNumZ m' = numZ m'.
Proof.
  intros HP Hmy Hparse. unfold parse_options in Hparse.
  destruct (decide (1 <= Z.of_nat (length groups))) as [Hle|Hgt].
  - change (processorCount (m', log').1 = 1 /\
            myNumZ (m', log').1 = numZ (m', log').1).
    eapply (for_range_partial
              (fun _ (st : GeneratedMesh * list message) =>
                 processorCount st.1 = 1 /\ myNumZ st.1 = numZ st.1));
      [exact Hle| | |exact Hparse]; [done|].
    intros i [m1 log1] [m2 log2] _ [HP1 Hmy1].
    destruct (load groups i); [|by cbn]. cbn [mbind option_bind].
    by apply parse_option_single.
  - rewrite for_range_empty in Hparse by lia. by injection Hparse as <- <-.
Qed.

Lemma GeneratedMesh_of_string_single (parameters : string) (my_proc : Z)
    m log :
  GeneratedMesh_of_string tokenize parameters 1 my_proc = Some (m, log) ->
  myNumZ m = numZ m.
Proof.
  unfold GeneratedMesh_of_string.
  destruct (load _ 0) as [group|]; [|by cbn]. cbn.
  case_decide; [|by cbn].
  destruct_loads.
  destruct (initialize _) as [m0|] eqn:Hinit; [|by cbn]. cbn.
  intros Hparse.
  destruct (initialize_fields _ _ Hinit) as (_ & _ & _ & HP & _).
  pose proof (initialize_single _ _ Hinit eq_refl) as Hmy.
  by destruct (parse_options_single _ _ _ _ _ HP Hmy Hparse).
Qed.

Lemma GeneratedMesh_of_ints_single (nx ny nz my_proc : Z) m :
  GeneratedMesh_of_ints nx ny nz 1 my_proc = Some m -> myNumZ m = numZ m.
Proof. intros Hinit. by apply (initialize_single _ _ Hinit). Qed.

End SingleProcessor.

Section SurfaceMapBounds.
Context `{Double}.
Variable tokenize : string -> string -> list string.

(** C10.  For a side face (MX, PX, MY or PY), [element_surface_map] resizes
    the vector to twice the per-processor shell count ([numY * myNumZ] or
    [numX * myNumZ] entries pairs) while its loops write one pair for each
    of the [numY * numZ] or [numX * numZ] faces of all [numZ] intervals; so
    all its writes are within the vector if and only if twice the global
    count is at most twice the per-processor count, that is if and only if
    [myNumZ = numZ].  This is the case whenever the mesh was constructed for
    a single processor. *)
Theorem element_surface_map_side_in_bounds :
  (forall (m : GeneratedMesh) (loc : ShellLocation) (map : list Z),
     loc ∈ [MX; PX; MY; PY] -> surface_fit m ->
     shell_element_count_proc m loc
     = (match loc with MX | PX => numY m | _ => numX m end) * myNumZ m /\
     (is_Some (element_surface_map m loc map) <->
      2 * shell_count (numX m) (numY m) (numZ m) loc
      <= 2 * shell_element_count_proc m loc) /\
     (is_Some (element_surface_map m loc map) <-> myNumZ m = numZ m)) /\
  (forall (nx ny nz my_proc : Z) (m : GeneratedMesh),
     GeneratedMesh_of_ints nx ny nz 1 my_proc = Some m ->
     myNumZ m = numZ m) /\
  (forall (parameters : string) (my_proc : Z) (m : GeneratedMesh)
          (log : list message),
     GeneratedMesh_of_string tokenize parameters 1 my_proc = Some (m, log) ->
     myNumZ m = numZ m).
Proof.
  split; [|split].
  - intros m loc map Hloc Hfit.
    pose proof (element_surface_map_side m loc map Hloc Hfit) as Hiff.
    destruct Hfit as (Hx & Hy & Hz & Hmy & Hfx & Hfy).
    assert (0 <= numY m * myNumZ m <= numY m * numZ m) by nia.
    assert (0 <= numX m * myNumZ m <= numX m * numZ m) by nia.
    assert (numY m * myNumZ m = numY m * numZ m -> myNumZ m = numZ m)
      by (apply Z.mul_reg_l; lia).
    assert (numX m * myNumZ m = numX m * numZ m -> myNumZ m = numZ m)
      by (apply Z.mul_reg_l; lia).
    rewrite !elem_of_cons, elem_of_nil in Hloc.
    destruct Hloc as [->|[->|[->|[->|[]]]]];
      unfold shell_element_count_proc, shell_count;
      rewrite wrap_small by lia;
      (split; [done|]); (split; [|done]);
      rewrite Hiff; (split; [intros ->; lia|lia]).
  - apply GeneratedMesh_of_ints_single.
  - apply GeneratedMesh_of_string_single.
Qed.

End SurfaceMapBounds.

Lemma surface_fit_one_rank : surface_fit (constructed 1 2 3 1 0).
Proof. repeat split; by vm_compute. Qed.

Lemma surface_fit_two_ranks : surface_fit (constructed 1 2 4 2 0).
Proof. repeat split; by vm_compute. Qed.

Lemma element_surface_map_side_in_bounds_witness :
  is_Some (element_surface_map (constructed 1 2 3 1 0) MX []) /\
  ~ is_Some (element_surface_map (constructed 1 2 4 2 0) MX []).
Proof.
  destruct (element_surface_map_side_in_bounds (H:=SymbolicDouble)
              tokenize_model) as (Hside & _ & _).
  assert (Hin : MX ∈ [MX; PX; MY; PY]) by constructor.
  split.
  - apply (Hside (constructed 1 2 3 1 0) MX [] Hin surface_fit_one_rank).
    reflexivity.
  - intros Hsome.
    apply (Hside (constructed 1 2 4 2 0) MX [] Hin surface_fit_two_ranks)
      in Hsome.
    discriminate Hsome.
Defined.

(** * Further properties of the code *)

Lemma bind_ret_fmap {A B} (f : A -> B) (l : list A) :
  l ≫= (fun a => [f a]) = f <$> l.
Proof. induction l as [|a l IH]; [done|]. by rewrite bind_cons, fmap_cons, IH. Qed.

Lemma seqZ_shift (a n : Z) : seqZ a n = (fun i => a + i) <$> seqZ 0 n.
Proof.
  replace a with (a + 0) at 1 by lia. rewrite <- fmap_add_seqZ. done.
Qed.

Section ElementMaps.
Context `{Double}.
Implicit Types m : GeneratedMesh.

Lemma element_ids_fit_counts m :
  element_ids_fit m ->
  0 < numX m /\ 0 < numY m /\ 0 < numZ m /\
  0 <= myNumZ m <= numZ m /\ 0 < processorCount m < SIZE_MOD /\
  numX m * numY m * numZ m < SIZE_MOD /\
  total_elements (numX m) (numY m) (numZ m) (shellBlocks m) < SIZE_MOD /\
  Z.of_nat (length (shellBlocks m)) + 1 < SIZE_MOD.
Proof.
  intros (Hx & Hy & Hz & Hs & Hmy & Hle & HP & Hfit).
  destruct (shell_count_bounds (numX m) (numY m) (numZ m) (shellBlocks m)
              Hx Hy Hz) as (_ & _ & Hlen & Hhex).
  pose proof int_consts as (? & ? & ? & ?).
  repeat split; lia.
Qed.

Lemma shell_element_count_proc_ideal m (loc : ShellLocation) :
  element_ids_fit m ->
  shell_element_count_proc m loc = shell_count_proc m loc /\
  0 <= shell_count_proc m loc /\
  shell_first m loc + shell_count_proc m loc
  <= shell_count (numX m) (numY m) (numZ m) loc /\
  shell_offset m loc = shell_first m loc /\ 0 <= shell_first m loc.
Proof.
  intros Hfit.
  destruct (element_ids_fit_counts m Hfit)
    as (Hx & Hy & Hz & Hmy & HP & Hhex & Htot & Hlen).
  destruct (shell_element_count_proc_fit m loc) as [E B]; [done..|].
  destruct Hfit as (_ & _ & _ & Hs & _ & Hle & _ & _).
  assert (0 <= myStartZ m * numY m) by nia.
  assert (0 <= myStartZ m * numX m) by nia.
  assert (myStartZ m * numY m + numY m * myNumZ m <= numY m * numZ m) by nia.
  assert (myStartZ m * numX m + numX m * myNumZ m <= numX m * numZ m) by nia.
  assert (numY m * numZ m <= numX m * (numY m * numZ m)) by nia.
  assert (numX m * numZ m <= numY m * (numX m * numZ m)) by nia.
  assert (0 < numX m * numY m) by nia.
  split; [exact E|]. rewrite E in B.
  split; [unfold shell_count_proc; lia|].
  split; [destruct loc; unfold shell_count_proc, shell_first, shell_count;
          repeat case_decide; lia|].
  destruct loc; unfold shell_offset, shell_first;
    rewrite ?wrap_small by lia; split; lia.
Qed.


Lemma block_start_succ m (ib : nat) (loc : ShellLocation) :
  element_ids_fit m -> shellBlocks m !! ib = Some loc ->
  numX m * numY m * numZ m <= block_start m ib /\
  block_start m (S ib)
  = block_start m ib + shell_count (numX m) (numY m) (numZ m) loc /\
  block_start m (S ib)
  <= total_elements (numX m) (numY m) (numZ m) (shellBlocks m).
Proof.
  intros Hfit Hloc.
  destruct (element_ids_fit_counts m Hfit) as (Hx & Hy & Hz & _).
  destruct (shell_count_bounds (numX m) (numY m) (numZ m) (shellBlocks m)
              Hx Hy Hz) as (_ & Hpos & _).
  unfold block_start, total_elements.
  pose proof (sum_Z_take_le _ ib Hpos) as Hle.
  pose proof (sum_Z_take_le _ (S ib) Hpos) as Hle'.
  rewrite <- !fmap_take in Hle, Hle'.
  rewrite (take_S_r _ _ _ Hloc), fmap_app, sum_Z_app in *.
  simpl in *. lia.
Qed.

(** Consecutive identifiers written through [static_cast<int>]. *)
Lemma ids_fill (a n : Z) :
  0 <= a -> a + n <= INT_MAX ->
  (fun i => to_int (wrap (a + i + 1))) <$> seqZ 0 n = seqZ (a + 1) n.
Proof.
  intros Ha Hfit. rewrite (seqZ_shift (a + 1)).
  apply list_fmap_ext. intros _ i Hi%list_elem_of_lookup_2%elem_of_seqZ.
  pose proof int_consts as (? & ? & ? & ?).
  rewrite wrap_small by lia. rewrite to_int_small by lia. lia.
Qed.

Lemma element_count_proc_block_hex m :
  element_ids_fit m ->
  element_count_proc_block m 1 = Some (numX m * numY m * myNumZ m) /\
  element_count_block m 1 = Some (numX m * numY m * numZ m) /\
  0 <= myStartZ m * numX m * numY m /\
  0 <= numX m * numY m * myNumZ m /\
  myStartZ m * numX m * numY m + numX m * numY m * myNumZ m
  <= numX m * numY m * numZ m.
Proof.
  intros Hfit.
  destruct (element_ids_fit_counts m Hfit)
    as (Hx & Hy & Hz & Hmy & HP & Hhex & Htot & Hlen).
  destruct Hfit as (_ & _ & _ & Hs & _ & Hle & _ & _).
  assert (HS : 0 < numX m * numY m) by nia.
  assert (0 <= myStartZ m * (numX m * numY m)) by nia.
  assert (0 <= numX m * numY m * myNumZ m) by nia.
  assert (numX m * numY m * (myStartZ m + myNumZ m)
          <= numX m * numY m * numZ m)
    by (apply Z.mul_le_mono_nonneg_l; lia).
  unfold element_count_proc_block, element_count_block, block_count.
  rewrite (wrap_small (_ + 1)) by lia.
  rewrite !decide_True by lia.
  rewrite !wrap_small by lia. repeat split; lia.
Qed.

Lemma element_count_block_at m (b : Z) (loc : ShellLocation) :
  element_ids_fit m -> 2 <= b ->
  shellBlocks m !! Z.to_nat (b - 2) = Some loc ->
  element_count_proc_block m b = Some (shell_count_proc m loc) /\
  element_count_block m b
  = Some (shell_count (numX m) (numY m) (numZ m) loc) /\
  b <= block_count m.
Proof.
  intros Hfit Hb Hloc.
  destruct (element_ids_fit_counts m Hfit)
    as (Hx & Hy & Hz & Hmy & HP & Hhex & Htot & Hlen).
  pose proof (lookup_lt_Some _ _ _ Hloc) as Hlt.
  destruct (shell_element_count_proc_ideal m loc Hfit) as (<- & _).
  rewrite <- (shell_element_count_fit m loc) by done.
  unfold element_count_proc_block, element_count_block, block_count.
  rewrite (wrap_small (_ + 1)) by lia.
  repeat (case_decide; try lia).
  rewrite wrap_small by lia. rewrite load_to_nat, Hloc by lia.
  split; [done|]. split; [done|lia].
Qed.

(** What [element_map(block_number, map)] returns. *)
Lemma element_map_block_spec m (b : Z) (map : list Z) :
  element_ids_fit m ->
  1 <= b <= Z.of_nat (length (shellBlocks m)) + 1 ->
  element_map_block m b map = Some (block_element_ids m b).
Proof.
  intros Hfit Hb.
  destruct (element_ids_fit_counts m Hfit)
    as (Hx & Hy & Hz & Hmy & HP & Hhex & Htot & Hlen).
  destruct (element_count_proc_block_hex m Hfit)
    as (Ehex & Ehex' & Hs0 & Hc0 & Hle0).
  pose proof Hfit as (_ & _ & _ & _ & _ & _ & _ & Hint).
  destruct (shell_count_bounds (numX m) (numY m) (numZ m) (shellBlocks m)
              Hx Hy Hz) as (Hlocs & _ & _ & Hhexle).
  unfold element_map_block, block_element_ids.
  assert (Hbc : block_count m = Z.of_nat (length (shellBlocks m)) + 1)
    by (unfold block_count; apply wrap_small; lia).
  rewrite decide_True by lia.
  destruct (decide (b = 1)) as [->|Hb1].
  - rewrite Ehex. cbn [mbind option_bind].
    rewrite for_range_store_fill by (rewrite length_resize; lia).
    rewrite (wrap_small (myStartZ m * _ * _)) by lia.
    by rewrite ids_fill by lia.
  - destruct (lookup_lt_is_Some_2 (shellBlocks m) (Z.to_nat (b - 2)))
      as (loc & Hloc); [lia|].
    rewrite Hloc.
    destruct (element_count_block_at m b loc) as (Ecnt & _); [done|lia|done|].
    rewrite Ecnt, Ehex'. cbn [mbind option_bind].
    destruct (shell_element_count_proc_ideal m loc Hfit)
      as (_ & Hcnt & Hfirst & Hoff & Hoff0).
    destruct (block_start_succ m _ loc Hfit Hloc) as (Hst0 & Hst1 & Hst2).
    set (result := seqZ (block_start m (Z.to_nat (b - 2))
                         + shell_first m loc + 1) (shell_count_proc m loc)).
    set (map0 := resize (shell_count_proc m loc) 0 map).
    destruct (for_range_total
                (fun i (st : Z * list Z) =>
                   (i <= b - 2 ->
                    st = (block_start m (Z.to_nat i), map0)) /\
                   (b - 2 < i -> st.2 = result))
                0 (Z.of_nat (length (shellBlocks m)))
                (fun ib '(start, map) =>
                   count ← element_count_proc_block m (wrap (ib + 2));
                   if decide (b = wrap (ib + 2)) then
                     loc ← load (shellBlocks m) ib;
                     map ←
                       for_range 0 count
                         (fun i map =>
                            store map i
                              (to_int (wrap (start + shell_offset m loc
                                             + i + 1))))
                         map;
                     Some (start, map)
                   else
                     e ← element_count_block m (wrap (ib + 2));
                     Some (wrap (start + e), map))
                (numX m * numY m * numZ m, map0))
      as ([start' map'] & Eloop & _ & Hres); [lia| | |].
    + split; [|lia]. intros _. unfold block_start. simpl. do 2 f_equal. lia.
    + intros i [start mp] Hi [Hbefore Hafter].
      destruct (lookup_lt_is_Some_2 (shellBlocks m) (Z.to_nat i))
        as (loci & Hloci); [lia|].
      rewrite (wrap_small (i + 2)) by lia.
      destruct (element_count_block_at m (i + 2) loci) as (Ei & Ei' & _);
        [done|lia|by replace (i + 2 - 2) with i by lia|].
      rewrite Ei, Ei'. cbn [mbind option_bind].
      destruct (decide (b = i + 2)) as [Heq|Hne].
      * replace (b - 2) with i in * by lia.
        rewrite load_to_nat, Hloc by lia. cbn [mbind option_bind].
        specialize (Hbefore ltac:(lia)). injection Hbefore as -> ->.
        rewrite Hloci in Hloc. injection Hloc as ->.
        rewrite for_range_store_fill by (subst map0; rewrite length_resize; lia).
        cbn [mbind option_bind]. eexists. split; [reflexivity|].
        split; [lia|]. intros _. cbn [snd]. subst result.
        rewrite Hoff. replace (b - 2) with i by lia. apply ids_fill; lia.
      * eexists. split; [reflexivity|]. split.
        -- intros Hle. specialize (Hbefore ltac:(lia)).
           injection Hbefore as -> ->. f_equal.
           destruct (block_start_succ m _ loci Hfit Hloci) as (? & E & ?).
           replace (Z.to_nat (i + 1)) with (S (Z.to_nat i)) by lia.
           rewrite E. apply wrap_small. specialize (Hlocs loci). lia.
        -- intros Hlt. apply Hafter. lia.
    + rewrite Eloop. cbn [mbind option_bind]. f_equal. apply Hres. lia.
Qed.


Lemma blocks_prefix_succ (f : Z -> list Z) (n : nat) :
  seqZ 1 (Z.of_nat (S n) + 1) ≫= f
  = (seqZ 1 (Z.of_nat n + 1) ≫= f) ++ f (Z.of_nat n + 2).
Proof.
  replace (Z.of_nat (S n) + 1) with (Z.of_nat n + 1 + 1) by lia.
  rewrite seqZ_app by lia. rewrite bind_app. f_equal.
  rewrite (seqZ_cons _ 1) by lia. rewrite seqZ_nil by lia.
  rewrite bind_singleton. f_equal. lia.
Qed.

Lemma length_blocks_prefix m (n : nat) :
  element_ids_fit m -> (n <= length (shellBlocks m))%nat ->
  Z.of_nat (length (seqZ 1 (Z.of_nat n + 1) ≫= block_element_ids m))
  = numX m * numY m * myNumZ m
    + sum_Z (shell_count_proc m <$> take n (shellBlocks m)).
Proof.
  intros Hfit. destruct (element_count_proc_block_hex m Hfit)
    as (_ & _ & _ & Hc0 & _).
  induction n as [|n IH]; intros Hn.
  - change (seqZ 1 (Z.of_nat 0 + 1)) with [1]. rewrite bind_singleton.
    unfold block_element_ids. rewrite decide_True by done.
    rewrite length_seqZ. simpl. lia.
  - destruct (lookup_lt_is_Some_2 (shellBlocks m) n) as (loc & Hloc); [lia|].
    rewrite blocks_prefix_succ, length_app, Nat2Z.inj_add, IH by lia.
    rewrite (take_S_r _ _ _ Hloc), fmap_app, sum_Z_app.
    unfold block_element_ids at 1. rewrite decide_False by lia.
    replace (Z.to_nat (Z.of_nat n + 2 - 2)) with n by lia.
    rewrite Hloc, length_seqZ.
    destruct (shell_element_count_proc_ideal m loc Hfit) as (_ & Hcnt & _).
    simpl. lia.
Qed.

(** What [element_map(map)] returns: the identifiers of the blocks one
    after the other. *)
Lemma element_map_spec m (map : list Z) :
  element_ids_fit m ->
  element_map m map
  = Some (seqZ 1 (Z.of_nat (length (shellBlocks m)) + 1)
            ≫= block_element_ids m) /\
  element_count_proc m
  = Some (Z.of_nat (length (seqZ 1 (Z.of_nat (length (shellBlocks m)) + 1)
                              ≫= block_element_ids m))).
Proof.
  intros Hfit.
  destruct (element_ids_fit_counts m Hfit)
    as (Hx & Hy & Hz & Hmy & HP & Hhex & Htot & Hlen).
  destruct (element_count_proc_block_hex m Hfit)
    as (Ehex & Ehex' & Hs0 & Hc0 & Hle0).
  pose proof Hfit as (_ & _ & _ & _ & _ & _ & _ & Hint).
  destruct (shell_count_bounds (numX m) (numY m) (numZ m) (shellBlocks m)
              Hx Hy Hz) as (Hlocs & _ & _ & Hhexle).
  pose proof int_consts as (? & ? & ? & ?).
  destruct (element_count_proc_spec m) as [Ecount Hcount]; [done..|].
  rewrite (list_fmap_ext (shell_element_count_proc m) (shell_count_proc m)
             (shellBlocks m)) in Ecount, Hcount
    by (intros i loc _; by destruct (shell_element_count_proc_ideal m loc Hfit)).
  pose proof (length_blocks_prefix m (length (shellBlocks m)) Hfit
                ltac:(lia)) as Hall.
  rewrite firstn_all in Hall.
  split; [|by rewrite Hall].
  unfold element_map. rewrite Ecount, Ehex, Ehex'. cbn [mbind option_bind].
  set (N := numX m * numY m * myNumZ m
            + sum_Z (shell_count_proc m <$> shellBlocks m)) in *.
  rewrite (wrap_small (myStartZ m * _ * _)) by lia.
  assert (Hposc : Forall (fun v => 0 <= v)
                    (shell_count_proc m <$> shellBlocks m)).
  { apply Forall_fmap, Forall_forall. intros loc _.
    by destruct (shell_element_count_proc_ideal m loc Hfit) as (_ & ? & _). }
  pose proof (sum_Z_nonneg _ Hposc) as Hsum.
  (* the hexahedra *)
  destruct (emits_for_range
              (fun i => put (to_int (wrap (myStartZ m * numX m * numY m
                                           + i + 1))))
              (fun i => [to_int (wrap (myStartZ m * numX m * numY m
                                       + i + 1))])
              0 (numX m * numY m * myNumZ m)
              ltac:(intros; apply emits_put) [] (resize N 0 map))
    as (rest0 & E0 & L0).
  { rewrite length_bind_const with (c := 1%nat) by done.
    rewrite length_seqZ, length_resize. lia. }
  { rewrite length_resize. simpl. lia. }
  change (Z.of_nat (length (@nil Z))) with 0 in E0.
  rewrite Z.sub_0_r, bind_ret_fmap in E0, L0.
  rewrite ids_fill, !app_nil_l in E0 by lia.
  unfold put in E0. rewrite E0. cbn [mbind option_bind].
  rewrite length_resize, length_fmap, length_seqZ in L0.
  (* the shell blocks *)
  destruct (for_range_total
              (fun i (st : Z * Z * list Z) =>
                 exists rest,
                   st = (block_start m (Z.to_nat i),
                         Z.of_nat (length (seqZ 1 (i + 1)
                                             ≫= block_element_ids m)),
                         (seqZ 1 (i + 1) ≫= block_element_ids m) ++ rest) /\
                   Z.of_nat (length (seqZ 1 (i + 1) ≫= block_element_ids m)
                             + length rest) = N)
              0 (Z.of_nat (length (shellBlocks m)))
              (fun ib '(start, k, map) =>
                 count ← element_count_proc_block m (wrap (ib + 2));
                 loc ← load (shellBlocks m) ib;
                 '(k, map) ←
                   for_range 0 count
                     (fun i '(k, map) =>
                        map ← store map k
                                (to_int (wrap (start + shell_offset m loc
                                               + i + 1)));
                        Some (wrap (k + 1), map))
                     (k, map);
                 e ← element_count_block m (wrap (ib + 2));
                 Some (wrap (start + e), k, map))
              (numX m * numY m * numZ m,
               Z.of_nat (length (@nil Z) + length (seqZ (myStartZ m * numX m * numY m + 1) (numX m * numY m * myNumZ m))),
               seqZ (myStartZ m * numX m * numY m + 1)
                 (numX m * numY m * myNumZ m) ++ rest0))
    as (st & Eloop & rest & -> & Hrest); [lia| | |].
  - exists rest0. change (seqZ 1 (0 + 1)) with [1]. rewrite bind_singleton.
    unfold block_element_ids. rewrite decide_True by done.
    split.
    + unfold block_start. simpl. do 3 f_equal. lia.
    + rewrite length_seqZ in *. lia.
  - intros i [[start k] mp] Hi (rest & [= -> -> ->] & Hrest).
    destruct (lookup_lt_is_Some_2 (shellBlocks m) (Z.to_nat i))
      as (loc & Hloc); [lia|].
    rewrite (wrap_small (i + 2)) by lia.
    destruct (element_count_block_at m (i + 2) loc) as (Ei & Ei' & _);
      [done|lia|by replace (i + 2 - 2) with i by lia|].
    rewrite Ei, Ei'. cbn [mbind option_bind].
    rewrite load_to_nat, Hloc by lia. cbn [mbind option_bind].
    destruct (shell_element_count_proc_ideal m loc Hfit)
      as (_ & Hcnt & Hfirst & Hoff & Hoff0).
    destruct (block_start_succ m _ loc Hfit Hloc) as (Hst0 & Hst1 & Hst2).
    pose proof (length_blocks_prefix m (Z.to_nat i) Hfit ltac:(lia)) as Hpre.
    pose proof (length_blocks_prefix m (S (Z.to_nat i)) Hfit ltac:(lia))
      as Hpre'.
    rewrite (take_S_r _ _ _ Hloc), fmap_app, sum_Z_app in Hpre'.
    simpl in Hpre'.
    pose proof (sum_Z_take_le _ (S (Z.to_nat i)) Hposc) as Htake.
    rewrite <- fmap_take, (take_S_r _ _ _ Hloc), fmap_app, sum_Z_app
      in Htake.
    simpl in Htake.
    rewrite Z2Nat.id in Hpre by lia.
    replace (Z.of_nat (S (Z.to_nat i)) + 1) with (i + 1 + 1) in Hpre' by lia.
    pose proof (blocks_prefix_succ (block_element_ids m) (Z.to_nat i)) as Hsucc.
    rewrite Z2Nat.id in Hsucc by lia.
    replace (Z.of_nat (S (Z.to_nat i)) + 1) with (i + 1 + 1) in Hsucc by lia.
    assert (Hblock : block_element_ids m (i + 2)
                     = seqZ (block_start m (Z.to_nat i) + shell_first m loc + 1)
                         (shell_count_proc m loc)).
    { unfold block_element_ids. rewrite decide_False by lia.
      replace (i + 2 - 2) with i by lia. by rewrite Hloc. }
    destruct (emits_for_range
                (fun t => put (to_int (wrap (block_start m (Z.to_nat i)
                                             + shell_first m loc + t + 1))))
                (fun t => [to_int (wrap (block_start m (Z.to_nat i)
                                         + shell_first m loc + t + 1))])
                0 (shell_count_proc m loc)
                ltac:(intros; apply emits_put)
                (seqZ 1 (i + 1) ≫= block_element_ids m) rest)
      as (rest' & E & L).
    { rewrite length_bind_const with (c := 1%nat) by done.
      rewrite length_seqZ.
      rewrite Hsucc, length_app, Hblock, length_seqZ in Hpre'. lia. }
    { lia. }
    rewrite Z.sub_0_r, bind_ret_fmap in E, L.
    rewrite ids_fill in E by lia. rewrite length_fmap, length_seqZ in L.
    unfold put in E. rewrite Hoff, E. cbn [mbind option_bind].
    eexists. split; [reflexivity|]. exists rest'.
    rewrite Hsucc, Hblock, <- (assoc_L (++)), !length_app.
    split.
    + do 2 f_equal.
      replace (Z.to_nat (i + 1)) with (S (Z.to_nat i)) by lia.
      rewrite Hst1. apply wrap_small. specialize (Hlocs loc). lia.
    + rewrite length_seqZ in *. lia.
  - rewrite Eloop. cbn [mbind option_bind]. f_equal.
    rewrite Nat2Z.inj_add, Hall in Hrest.
    destruct rest; [by rewrite app_nil_r|]. simpl in Hrest. lia.
Qed.

Lemma element_map_block_inv m (b : Z) (map ids : list Z) :
  element_ids_fit m -> element_map_block m b map = Some ids ->
  1 <= b <= block_count m /\
  element_count_proc_block m b = Some (Z.of_nat (length ids)).
Proof.
  intros Hfit Hmap.
  destruct (element_ids_fit_counts m Hfit) as (_ & _ & _ & _ & _ & _ & _ & Hlen).
  assert (Hb : 1 <= b <= block_count m).
  { unfold element_map_block in Hmap. case_decide; [lia|done]. }
  split; [done|].
  assert (Hbc : block_count m = Z.of_nat (length (shellBlocks m)) + 1)
    by (unfold block_count; apply wrap_small; lia).
  rewrite element_map_block_spec in Hmap by (done || lia).
  injection Hmap as <-. unfold block_element_ids.
  destruct (decide (b = 1)) as [->|Hb1].
  - destruct (element_count_proc_block_hex m Hfit) as (-> & _ & _ & ? & _).
    rewrite length_seqZ. f_equal. lia.
  - destruct (lookup_lt_is_Some_2 (shellBlocks m) (Z.to_nat (b - 2)))
      as (loc & Hloc); [lia|].
    rewrite Hloc.
    destruct (element_count_block_at m b loc) as (-> & _); [done|lia|done|].
    destruct (shell_element_count_proc_ideal m loc Hfit) as (_ & ? & _).
    rewrite length_seqZ. f_equal. lia.
Qed.

Lemma concat_fmap_bind {A B} (f : A -> list B) (l : list A) :
  concat (f <$> l) = l ≫= f.
Proof. induction l as [|a l IH]; [done|]. by rewrite fmap_cons, bind_cons, <- IH. Qed.

End ElementMaps.

(** X1.  On a rank whose element identifiers fit an [int],
    [element_map(block_number, map)] returns consecutive identifiers: for
    the hexahedra (block 1) the [numX * numY * myNumZ] identifiers after
    [myStartZ * numX * numY]; for the shell block at position [ib] of the
    block list the identifiers that follow the hexahedra and the elements of
    the shell blocks declared before it, starting at the position of the
    slab of the rank within the block.  Whenever it returns, the block
    number lies in [1, block_count()] and the map has
    [element_count_proc(block_number)] entries. *)
Theorem element_map_block_ids `{Double} (m : GeneratedMesh) :
  element_ids_fit m ->
  (forall map,
     element_map_block m 1 map
     = Some (seqZ (myStartZ m * numX m * numY m + 1)
               (numX m * numY m * myNumZ m))) /\
  (forall (ib : nat) (loc : ShellLocation) map,
     shellBlocks m !! ib = Some loc ->
     element_map_block m (Z.of_nat ib + 2) map
     = Some (seqZ (numX m * numY m * numZ m
                   + sum_Z (shell_count (numX m) (numY m) (numZ m)
                              <$> take ib (shellBlocks m))
                   + shell_first m loc + 1)
               (shell_count_proc m loc))) /\
  (forall b map ids,
     element_map_block m b map = Some ids ->
     1 <= b <= block_count m /\
     element_count_proc_block m b = Some (Z.of_nat (length ids))).
Proof.
  intros Hfit. split; [|split].
  - intros map. rewrite element_map_block_spec by (done || lia).
    unfold block_element_ids. by rewrite decide_True.
  - intros ib loc map Hloc. pose proof (lookup_lt_Some _ _ _ Hloc).
    rewrite element_map_block_spec by (done || lia).
    unfold block_element_ids, block_start. rewrite decide_False by lia.
    replace (Z.to_nat (Z.of_nat ib + 2 - 2)) with ib by lia.
    by rewrite Hloc.
  - intros b map ids. by apply element_map_block_inv.
Qed.

Lemma element_ids_fit_example : element_ids_fit (example_ranks 1).
Proof. repeat split; by vm_compute. Qed.

Lemma element_map_block_ids_witness :
  element_map_block (example_ranks 1) 1 [] = Some [9; 10; 11; 12; 13; 14; 15; 16]
  /\ element_map_block (example_ranks 1) 2 [] = Some [21; 22; 23; 24]
  /\ element_map_block (example_ranks 1) 3 [] = Some [25; 26; 27; 28].
Proof.
  destruct (element_map_block_ids (example_ranks 1) element_ids_fit_example)
    as (Hhex & Hshell & _).
  split; [exact (Hhex [])|].
  split; [exact (Hshell 0%nat MX [] eq_refl)|exact (Hshell 1%nat PZ [] eq_refl)].
Defined.

(** X2.  [element_map(map)] returns the maps of the blocks
    [1 .. block_count()], as [element_map(block_number, map)] returns them,
    one after the other; its length is [element_count_proc()]. *)
Theorem element_map_concatenates_blocks `{Double} (m : GeneratedMesh)
    (map : list Z) :
  element_ids_fit m ->
  exists (per_block : list (list Z)) (ids : list Z),
    Forall2 (fun b block => element_map_block m b [] = Some block)
      (seqZ 1 (block_count m)) per_block /\
    element_map m map = Some ids /\
    ids = concat per_block /\
    element_count_proc m = Some (Z.of_nat (length ids)).
Proof.
  intros Hfit.
  destruct (element_ids_fit_counts m Hfit) as (_ & _ & _ & _ & _ & _ & _ & Hlen).
  assert (Hbc : block_count m = Z.of_nat (length (shellBlocks m)) + 1)
    by (unfold block_count; apply wrap_small; lia).
  destruct (element_map_spec m map Hfit) as [Emap Ecount].
  exists (block_element_ids m <$> seqZ 1 (block_count m)). eexists.
  split; [|split; [exact Emap|split]].
  - apply Forall2_fmap_r, Forall_Forall2_diag, Forall_forall.
    intros b Hb%elem_of_seqZ. apply element_map_block_spec; [done|lia].
  - by rewrite concat_fmap_bind, Hbc.
  - exact Ecount.
Qed.

Lemma element_map_concatenates_blocks_witness :
  element_map (example_ranks 1) []
  = Some [9; 10; 11; 12; 13; 14; 15; 16; 21; 22; 23; 24; 25; 26; 27; 28].
Proof.
  destruct (element_map_concatenates_blocks (example_ranks 1) []
              element_ids_fit_example)
    as (per_block & ids & _ & Hmap & _).
  rewrite Hmap. f_equal. vm_compute in Hmap. by injection Hmap as <-.
Defined.

(** ** Loop nests with a running counter *)

Lemma iterate_ext {St} (b1 b2 : Z -> St -> option St) (n : nat) :
  forall i s,
    (forall k s, 0 <= k < Z.of_nat n -> b1 (i + k) s = b2 (i + k) s) ->
    iterate n i 1 b1 s = iterate n i 1 b2 s.
Proof.
  induction n as [|n IH]; intros i s Hext; [done|].
  cbn [iterate]. pose proof (Hext 0 s ltac:(lia)) as E0.
  rewrite Z.add_0_r in E0. rewrite E0.
  destruct (b2 i s) as [s'|]; [|done].
  apply IH. intros k t Hk.
  replace (i + 1 + k) with (i + (k + 1)) by lia. apply Hext. lia.
Qed.

Lemma for_range_ext {St} (b1 b2 : Z -> St -> option St) (lo hi : Z) (s : St) :
  (forall i s, lo <= i < hi -> b1 i s = b2 i s) ->
  for_range lo hi b1 s = for_range lo hi b2 s.
Proof.
  intros Hext. unfold for_range. apply iterate_ext.
  intros k t Hk. apply Hext. lia.
Qed.

(** A counter [k] that is advanced once per round can be computed from the
    loop index. *)
Lemma iterate_counter {St} (body : Z -> Z -> St -> option St) (n : nat) :
  forall j0 k0 s,
    0 <= k0 -> k0 + Z.of_nat n < SIZE_MOD ->
    iterate n j0 1
      (fun j '(k, s) => s ← body j k s; Some (wrap (k + 1), s)) (k0, s)
    = s' ← iterate n j0 1 (fun j => body j (k0 + (j - j0))) s;
      Some (k0 + Z.of_nat n, s').
Proof.
  induction n as [|n IH]; intros j0 k0 s Hk0 Hfit.
  - cbn. do 2 f_equal. lia.
  - cbn [iterate]. replace (k0 + (j0 - j0)) with k0 by lia.
    destruct (body j0 k0 s) as [s1|]; [|done]. cbn [mbind option_bind].
    rewrite wrap_small by lia. rewrite IH by lia.
    rewrite (iterate_ext (fun j => body j (k0 + 1 + (j - (j0 + 1))))
               (fun j => body j (k0 + (j - j0)))).
    + destruct (iterate n _ _ _ s1); [|done]. cbn. do 2 f_equal. lia.
    + intros k t _. f_equal. lia.
Qed.

Lemma for_grid_flat {St} (body : Z -> Z -> Z -> St -> option St)
    (ni nj : Z) (s : St) :
  0 <= ni -> 0 <= nj -> ni * nj < SIZE_MOD ->
  for_grid ni nj body s
  = for_range 0 ni (fun i =>
      for_range 0 nj (fun j => body i j (i * nj + j))) s.
Proof.
  intros Hni Hnj Hfit. unfold for_grid, for_range. rewrite !Z.sub_0_r.
  assert (Hgen : forall (n : nat) i0 k0 s,
            0 <= k0 -> k0 + Z.of_nat n * nj < SIZE_MOD ->
            iterate n i0 1
              (fun i => iterate (Z.to_nat nj) 0 1
                 (fun j '(k, s) => s ← body i j k s; Some (wrap (k + 1), s)))
              (k0, s)
            = s' ← iterate n i0 1
                     (fun i => iterate (Z.to_nat nj) 0 1
                        (fun j => body i j (k0 + (i - i0) * nj + j))) s;
              Some (k0 + Z.of_nat n * nj, s')).
  { clear s Hfit Hni. induction n as [|n IH]; intros i0 k0 s Hk0 Hfit.
    - cbn. do 2 f_equal. lia.
    - cbn [iterate].
      rewrite (iterate_counter (body i0)) by nia.
      rewrite (iterate_ext (fun j => body i0 j (k0 + (j - 0)))
                 (fun j => body i0 j (k0 + (i0 - i0) * nj + j)))
        by (intros k t _; f_equal; lia).
      destruct (iterate (Z.to_nat nj) 0 1 _ s) as [s1|]; [|done].
      cbn [mbind option_bind]. rewrite Z2Nat.id by lia.
      rewrite IH by nia.
      rewrite (iterate_ext
                 (fun i => iterate (Z.to_nat nj) 0 1
                    (fun j => body i j (k0 + nj + (i - (i0 + 1)) * nj + j)))
                 (fun i => iterate (Z.to_nat nj) 0 1
                    (fun j => body i j (k0 + (i - i0) * nj + j)))).
      + destruct (iterate n _ _ _ s1); [|done]. cbn. do 2 f_equal. lia.
      + intros k t _. apply iterate_ext. intros k' t' _. f_equal. lia. }
  rewrite Hgen by (rewrite ?Z2Nat.id by lia; lia).
  rewrite (iterate_ext
             (fun i => iterate (Z.to_nat nj) 0 1
                (fun j => body i j (0 + (i - 0) * nj + j)))
             (fun i => iterate (Z.to_nat nj) 0 1
                (fun j => body i j (i * nj + j))))
    by (intros k t _; apply iterate_ext; intros k' t' _; f_equal; lia).
  by destruct (iterate (Z.to_nat ni) _ _ _ s).
Qed.

(** ** Connectivity *)



(** Removes the reductions modulo [2^64] of values that are in range,
    innermost first. *)
Ltac unwrap :=
  repeat match goal with
         | |- context [wrap ?x] =>
             lazymatch x with
             | context [wrap _] => fail
             | _ => rewrite (wrap_small x) by lia
             end
         end.


Lemma bind_fmap_l {A B C} (f : A -> B) (g : B -> list C) (l : list A) :
  (f <$> l) ≫= g = l ≫= (fun a => g (f a)).
Proof.
  induction l as [|a l IH]; [done|].
  by rewrite fmap_cons, !bind_cons, IH.
Qed.

Lemma emits_put4 (a b c d : Z) :
  emits (put4 a b c d) [to_int a; to_int b; to_int c; to_int d].
Proof.
  unfold put4.
  apply (emits_bind (put (to_int a)) _ [to_int a]); [apply emits_put|].
  apply (emits_bind (put (to_int b)) _ [to_int b]); [apply emits_put|].
  apply (emits_bind (put (to_int c)) _ [to_int c]); apply emits_put.
Qed.

Section Connectivity.
Context `{Double}.
Implicit Types m : GeneratedMesh.

Lemma connectivity_fit_bounds m :
  connectivity_fit m ->
  0 < (numX m + 1) * (numY m + 1) /\
  (numX m + 1) * (numY m + 1) <= INT_MAX /\
  0 <= numX m * numY m /\
  numX m * numY m < (numX m + 1) * (numY m + 1) /\
  0 <= numX m * numY m * myNumZ m /\
  numX m * numY m * myNumZ m <= INT_MAX.
Proof.
  intros (Hx & Hy & Hz & Hs & Hloop & Hfit & Hlen).
  assert (0 < (numX m + 1) * (numY m + 1)) by nia.
  assert (0 <= numX m * numY m) by nia.
  assert (numX m * numY m < (numX m + 1) * (numY m + 1)) by nia.
  assert (numX m * numY m * myNumZ m
          <= (numX m + 1) * (numY m + 1) * myNumZ m)
    by (apply Z.mul_le_mono_nonneg_r; lia).
  assert (0 <= numX m * numY m * myNumZ m) by nia.
  repeat split; nia.
Qed.

Lemma grid_node_id_bounds m (j i l : Z) :
  connectivity_fit m ->
  0 <= j <= numX m -> 0 <= i <= numY m -> 0 <= l <= myNumZ m ->
  1 <= grid_node_id m (j, i, l)
  <= (numX m + 1) * (numY m + 1) * (myNumZ m + 1).
Proof.
  intros Hfit Hj Hi Hl.
  destruct (connectivity_fit_bounds m Hfit) as (HS & _).
  unfold grid_node_id. revert HS.
  assert (0 <= i * (numX m + 1) <= numY m * (numX m + 1)) by nia.
  assert ((numX m + 1) * (numY m + 1)
          = numY m * (numX m + 1) + numX m + 1) by lia.
  generalize dependent ((numX m + 1) * (numY m + 1)). intros S HSeq HS.
  assert (0 <= l * S <= myNumZ m * S) by nia. nia.
Qed.


Lemma length_local_hexes m :
  0 <= numX m -> 0 <= numY m -> 0 <= myNumZ m ->
  Z.of_nat (length (local_hexes m)) = numX m * numY m * myNumZ m.
Proof.
  intros Hx Hy Hz. unfold local_hexes.
  rewrite (length_bind_const _ (Z.to_nat (numY m) * Z.to_nat (numX m))%nat).
  - rewrite length_seqZ. lia.
  - intros l _. rewrite (length_bind_const _ (Z.to_nat (numX m))).
    + by rewrite length_seqZ.
    + intros i _. rewrite (length_bind_const _ 1%nat).
      * rewrite length_seqZ. lia.
      * done.
Qed.

Lemma elem_of_local_hexes m (j i l : Z) :
  (j, i, l) ∈ local_hexes m ->
  0 <= j < numX m /\ 0 <= i < numY m /\ 0 <= l < myNumZ m.
Proof.
  unfold local_hexes. intros Hin.
  apply list_elem_of_bind in Hin as (l' & Hin & Hl%elem_of_seqZ).
  apply list_elem_of_bind in Hin as (i' & Hin & Hi%elem_of_seqZ).
  apply list_elem_of_bind in Hin as (j' & Hin & Hj%elem_of_seqZ).
  apply list_elem_of_singleton in Hin. injection Hin as -> -> ->. lia.
Qed.

(** What [connectivity(1, connect)] returns. *)
Lemma connectivity_hex_spec m (connect : list Z) :
  connectivity_fit m ->
  connectivity m 1 connect
  = Some (local_hexes m ≫= fun e => grid_node_id m <$> hex_corners e).
Proof.
  intros Hfit.
  destruct (connectivity_fit_bounds m Hfit)
    as (HS & HSmax & Hxy & HxyS & Hhex & Hhexmax).
  pose proof Hfit as (Hx & Hy & Hz & Hs & Hloop & Hmax & Hlen).
  pose proof int_consts as (? & ? & ? & ?).
  unfold connectivity. cbv zeta.
  unfold block_count. rewrite (wrap_small (_ + 1)) by lia.
  rewrite decide_True by lia. rewrite decide_True by done.
  unfold element_count_proc_block, block_count.
  rewrite (wrap_small (_ + 1)) by lia.
  rewrite decide_True by lia. rewrite decide_True by done.
  cbn [mbind option_bind].
  rewrite (wrap_small (numX m * numY m * myNumZ m)) by lia.
  rewrite (wrap_small (_ * 8)) by lia.
  rewrite (wrap_small (myNumZ m + myStartZ m)) by lia.
  rewrite (wrap_small ((numX m + 1) * (numY m + 1))) by lia.
  set (S := (numX m + 1) * (numY m + 1)) in *.
  set (out := fun l i j => grid_node_id m <$> hex_corners (j, i, l)).
  rewrite (for_range_ext _
             (fun mz =>
                for_range 0 (numY m) (fun i =>
                  for_range 0 (numX m) (fun j st =>
                    st ← put4 (grid_node_id m (j, i, mz - myStartZ m))
                           (grid_node_id m (j + 1, i, mz - myStartZ m))
                           (grid_node_id m (j + 1, i + 1, mz - myStartZ m))
                           (grid_node_id m (j, i + 1, mz - myStartZ m)) st;
                    put4 (grid_node_id m (j, i, mz - myStartZ m + 1))
                         (grid_node_id m (j + 1, i, mz - myStartZ m + 1))
                         (grid_node_id m (j + 1, i + 1, mz - myStartZ m + 1))
                         (grid_node_id m (j, i + 1, mz - myStartZ m + 1))
                         st)))).
  2:{ intros mz st Hmz. rewrite for_grid_flat by nia.
      apply for_range_ext. intros i st' Hi.
      apply for_range_ext. intros j st'' Hj.
      assert (Hbase : wrap (mz * S + (i * numX m + j) + i + 1
                            - myStartZ m * S)
                      = grid_node_id m (j, i, mz - myStartZ m)).
      { pose proof (grid_node_id_bounds m j i (mz - myStartZ m) Hfit
                      ltac:(lia) ltac:(lia) ltac:(lia)) as Hb.
        fold S in Hb. rewrite <- (wrap_small (grid_node_id _ _)) by lia.
        f_equal. unfold grid_node_id. fold S. ring. }
      rewrite Hbase.
      pose proof (grid_node_id_bounds m j i (mz - myStartZ m) Hfit
                    ltac:(lia) ltac:(lia) ltac:(lia)) as Hb.
      pose proof (grid_node_id_bounds m (j + 1) (i + 1)
                    (mz - myStartZ m + 1) Hfit
                    ltac:(lia) ltac:(lia) ltac:(lia)) as Hb'.
      fold S in Hb, Hb'.
      assert (Hid : forall dj di dl,
                grid_node_id m (j + dj, i + di, mz - myStartZ m + dl)
                = grid_node_id m (j, i, mz - myStartZ m)
                  + dl * S + di * (numX m + 1) + dj).
      { intros. unfold grid_node_id. fold S. ring. }
      pose proof (Hid 1 1 1) as Hid111. rewrite Hid111 in Hb'.
      assert (0 <= numX m + 1 <= S).
      { pose proof (Z.mul_nonneg_nonneg (numX m + 1) (numY m)
                      ltac:(lia) ltac:(lia)).
        subst S. lia. }
      f_equal; [f_equal|]; f_equal;
        rewrite wrap_small by lia;
        match goal with
        | |- _ = grid_node_id m (?a, ?b, ?c) =>
            replace (grid_node_id m (a, b, c))
              with (grid_node_id m (j + (a - j), i + (b - i),
                                     mz - myStartZ m
                                     + (c - (mz - myStartZ m))))
              by (do 3 f_equal; lia)
        end; rewrite Hid; lia. }
  pose proof (emits_for_range_len
              (fun mz =>
                for_range 0 (numY m) (fun i =>
                  for_range 0 (numX m) (fun j st =>
                    st ← put4 (grid_node_id m (j, i, mz - myStartZ m))
                           (grid_node_id m (j + 1, i, mz - myStartZ m))
                           (grid_node_id m (j + 1, i + 1, mz - myStartZ m))
                           (grid_node_id m (j, i + 1, mz - myStartZ m)) st;
                    put4 (grid_node_id m (j, i, mz - myStartZ m + 1))
                         (grid_node_id m (j + 1, i, mz - myStartZ m + 1))
                         (grid_node_id m (j + 1, i + 1, mz - myStartZ m + 1))
                         (grid_node_id m (j, i + 1, mz - myStartZ m + 1))
                         st)))
              (fun mz => i ← seqZ 0 (numY m); j ← seqZ 0 (numX m);
                         to_int <$> out (mz - myStartZ m) i j)
              (myStartZ m) (myNumZ m + myStartZ m) (myNumZ m) ltac:(lia))
    as Hemit.
  match type of Hemit with
  | ?P -> _ => assert (Hbody : P); [|specialize (Hemit Hbody); clear Hbody]
  end.
  { intros mz Hmz.
    apply emits_for_range_len; [lia|]. intros i Hi.
    apply emits_for_range_len; [lia|]. intros j Hj.
    apply (emits_bind (put4 _ _ _ _) (put4 _ _ _ _) [_; _; _; _] [_; _; _; _]);
      apply emits_put4. }
  assert (Hout : (seqZ (myStartZ m) (myNumZ m)
                  ≫= fun mz => seqZ 0 (numY m)
                  ≫= fun i => seqZ 0 (numX m)
                  ≫= fun j => to_int <$> out (mz - myStartZ m) i j)
                 = local_hexes m
                   ≫= fun e => grid_node_id m <$> hex_corners e).
  { rewrite (seqZ_shift (myStartZ m)), bind_fmap_l.
    unfold local_hexes. rewrite bind_bind.
    apply bind_ext_in. intros l Hl%elem_of_seqZ. rewrite bind_bind.
    apply bind_ext_in. intros i Hi%elem_of_seqZ. rewrite bind_bind.
    apply bind_ext_in. intros j Hj%elem_of_seqZ. rewrite bind_singleton.
    replace (myStartZ m + l - myStartZ m) with l by lia.
    subst out. cbn [hex_corners fmap list_fmap].
    repeat (f_equal;
            [match goal with
             | |- to_int (grid_node_id m (?a, ?b, ?c)) = _ =>
                 pose proof (grid_node_id_bounds m a b c Hfit
                               ltac:(lia) ltac:(lia) ltac:(lia))
             end; apply to_int_small; lia|]).
    f_equal.
    pose proof (grid_node_id_bounds m j (i + 1) (l + 1) Hfit
                  ltac:(lia) ltac:(lia) ltac:(lia)).
    apply to_int_small; lia. }
  rewrite Hout in Hemit.
  assert (Hlength : Z.of_nat (length (local_hexes m
                       ≫= fun e => grid_node_id m <$> hex_corners e))
                    = numX m * numY m * myNumZ m * 8).
  { rewrite (length_bind_const _ 8%nat) by (by intros [[j i] l] _).
    rewrite Nat2Z.inj_mul, length_local_hexes by done. lia. }
  rewrite (emits_fill _ _ _ Hemit); [done| |].
  - rewrite length_resize. lia.
  - rewrite length_resize. lia.
Qed.



Lemma node_ids_fit_connectivity m :
  node_ids_fit m -> Z.of_nat (length (shellBlocks m)) + 1 < SIZE_MOD ->
  connectivity_fit m.
Proof.
  intros Hfit Hlen.
  destruct (node_ids_fit_bounds m Hfit) as (HS & HSmax & Hs & Hz & Hmax).
  destruct Hfit as (Hx & Hy & Hmy & Hst & Hfit).
  pose proof int_consts as (? & ? & ? & ?).
  assert (0 < (numX m + 1) * (numY m + 1)) by nia.
  repeat split; try done; nia.
Qed.

(** The local node numbers of the connectivity, looked up in the node map,
    are the global identifiers of the corners. *)
Lemma connectivity_node_map m (connect map : list Z) :
  node_ids_fit m -> Z.of_nat (length (shellBlocks m)) + 1 < SIZE_MOD ->
  exists conn ids,
    connectivity m 1 connect = Some conn /\
    node_map m map = Some ids /\
    (fun n => ids !! Z.to_nat (n - 1)) <$> conn
    = Some <$> (global_hexes m ≫= fun e => grid_node_id m <$> hex_corners e).
Proof.
  intros Hfit Hlen.
  pose proof (node_ids_fit_connectivity m Hfit Hlen) as Hcfit.
  eexists _, _. split; [by apply connectivity_hex_spec|].
  split; [by apply node_map_spec|].
  unfold global_hexes, local_hexes.
  rewrite (seqZ_shift (myStartZ m)), bind_fmap_l.
  rewrite !bind_bind, !fmap_bind.
  apply bind_ext_in. intros l Hl%elem_of_seqZ.
  rewrite !bind_bind, !fmap_bind.
  apply bind_ext_in. intros i Hi%elem_of_seqZ.
  rewrite !bind_bind, !fmap_bind.
  apply bind_ext_in. intros j Hj%elem_of_seqZ.
  rewrite !bind_singleton.
  assert (Hlook : forall dj di dl,
            0 <= dj <= 1 -> 0 <= di <= 1 -> 0 <= dl <= 1 ->
            ((fun k => myStartZ m * (numX m + 1) * (numY m + 1) + k + 1)
               <$> seqZ 0 ((numX m + 1) * (numY m + 1) * (myNumZ m + 1)))
              !! Z.to_nat (grid_node_id m (j + dj, i + di, l + dl) - 1)
            = Some (grid_node_id m (j + dj, i + di, myStartZ m + l + dl))).
  { intros dj di dl Hdj Hdi Hdl.
    pose proof (grid_node_id_bounds m (j + dj) (i + di) (l + dl) Hcfit
                  ltac:(lia) ltac:(lia) ltac:(lia)) as Hb.
    rewrite lookup_fmap_seqZ by lia. f_equal.
    unfold grid_node_id. ring. }
  cbn [hex_corners fmap list_fmap].
  pose proof (Hlook 0 0 0) as H000. pose proof (Hlook 1 0 0) as H100.
  pose proof (Hlook 1 1 0) as H110. pose proof (Hlook 0 1 0) as H010.
  pose proof (Hlook 0 0 1) as H001. pose proof (Hlook 1 0 1) as H101.
  pose proof (Hlook 1 1 1) as H111. pose proof (Hlook 0 1 1) as H011.
  rewrite !Z.add_0_r in *.
  rewrite H000, H100, H110, H010, H001, H101, H111, H011 by lia.
  done.
Qed.






End Connectivity.

(** X3.  On a rank whose local node numbers fit an [int],
    [connectivity(1, connect)] returns, for the hexahedra of the rank layer
    after layer and row after row, the local numbers of the eight corners:
    the lower face counter clockwise from [(j, i, l)], then the upper face,
    where node [(j, i, l)] has the local number
    [l * (numX+1) * (numY+1) + i * (numX+1) + j + 1].  The array has eight
    entries for each of the [numX * numY * myNumZ] hexahedra and every entry
    is one of [1 .. node_count_proc()]. *)
Theorem connectivity_hex_corners `{Double} (m : GeneratedMesh)
    (connect : list Z) :
  connectivity_fit m ->
  exists conn,
    connectivity m 1 connect = Some conn /\
    conn = (local_hexes m ≫= fun e => grid_node_id m <$> hex_corners e) /\
    Z.of_nat (length conn) = 8 * (numX m * numY m * myNumZ m) /\
    (forall (e : nat) (hex : Z * Z * Z) (c : nat),
       local_hexes m !! e = Some hex -> (c < 8)%nat ->
       conn !! (e * 8 + c)%nat
       = (grid_node_id m <$> hex_corners hex) !! c) /\
    Forall (fun n => 1 <= n <= node_count_proc m) conn.
Proof.
  intros Hfit. eexists. split; [by apply connectivity_hex_spec|].
  split; [done|].
  pose proof Hfit as (Hx & Hy & Hz & Hs & Hloop & Hmax & Hlen).
  pose proof int_consts as (? & ? & ? & ?).
  split; [|split].
  - rewrite (length_bind_const _ 8%nat) by (by intros [[j i] l] _).
    rewrite Nat2Z.inj_mul, length_local_hexes by done. lia.
  - intros e hex c He Hc.
    apply (lookup_bind_chunks
             (fun e => grid_node_id m <$> hex_corners e) 8
             (local_hexes m) e c hex); [|done|done].
    by intros [[j i] l] _.
  - apply Forall_forall. intros n Hn.
    apply list_elem_of_bind in Hn as ([[j i] l] & Hn & Hhex).
    apply elem_of_local_hexes in Hhex as (Hj & Hi & Hl).
    apply list_elem_of_fmap in Hn as ([[j' i'] l'] & -> & Hc).
    assert (Hnc : node_count_proc m
                  = (numX m + 1) * (numY m + 1) * (myNumZ m + 1))
      by (unfold node_count_proc; apply wrap_small; lia).
    rewrite Hnc. apply grid_node_id_bounds; [done|..];
      cbn [hex_corners] in Hc;
      repeat (apply elem_of_cons in Hc as [[= -> -> ->]|Hc]; [lia|]);
      by apply elem_of_nil in Hc.
Qed.

Lemma connectivity_fit_example : connectivity_fit (example_ranks 1).
Proof. repeat split; by vm_compute. Qed.

Lemma connectivity_hex_corners_witness :
  exists conn,
    connectivity (example_ranks 1) 1 [] = Some conn /\
    take 8 conn = [1; 2; 5; 4; 10; 11; 14; 13].
Proof.
  destruct (connectivity_hex_corners (example_ranks 1) []
              connectivity_fit_example) as (conn & Hconn & -> & _).
  eexists. split; [exact Hconn|]. reflexivity.
Defined.

(** X4.  The local node numbers in [connectivity(1, connect)], looked up
    (minus one) in the vector of [node_map], give the global identifiers of
    the corners: for the hexahedron of column [j], row [i] and global layer
    [mz] the identifiers [mz' * (numX+1) * (numY+1) + i' * (numX+1) + j' + 1]
    of its corners [(j', i', mz')], a value that depends on the position in
    the mesh and not on the rank. *)
Theorem connectivity_hex_global_nodes `{Double} (m : GeneratedMesh)
    (connect map : list Z) :
  node_ids_fit m -> Z.of_nat (length (shellBlocks m)) + 1 < SIZE_MOD ->
  exists conn ids,
    connectivity m 1 connect = Some conn /\
    node_map m map = Some ids /\
    (fun n => ids !! Z.to_nat (n - 1)) <$> conn
    = Some <$> (global_hexes m ≫= fun e => grid_node_id m <$> hex_corners e).
Proof. apply connectivity_node_map. Qed.

Lemma node_ids_fit_example : node_ids_fit (example_ranks 1).
Proof. repeat split; by vm_compute. Qed.

Lemma connectivity_hex_global_nodes_witness :
  exists conn ids,
    connectivity (example_ranks 1) 1 [] = Some conn /\
    node_map (example_ranks 1) [] = Some ids /\
    take 8 ((fun n => ids !! Z.to_nat (n - 1)) <$> conn)
    = Some <$> [19; 20; 23; 22; 28; 29; 32; 31].
Proof.
  destruct (connectivity_hex_global_nodes (example_ranks 1) [] []
              node_ids_fit_example ltac:(by vm_compute))
    as (conn & ids & Hconn & Hids & Hglobal).
  exists conn, ids. split; [done|]. split; [done|].
  rewrite Hglobal. reflexivity.
Defined.




(** ** Code that appends pairs to a vector *)

Lemma length_flat_pairs {A} (ps : list (A * A)) :
  length (flat_pairs ps) = (2 * length ps)%nat.
Proof.
  unfold flat_pairs. rewrite (length_bind_const _ 2%nat); [lia|].
  by intros [a b] _.
Qed.

Lemma flat_pairs_app {A} (ps qs : list (A * A)) :
  flat_pairs (ps ++ qs) = flat_pairs ps ++ flat_pairs qs.
Proof. unfold flat_pairs. apply bind_app. Qed.

Lemma emits_pairs_entry (elem face : Z) :
  emits_pairs (side_entry elem face) [(elem, face)].
Proof.
  intros pre rest Hlen Hfit.
  destruct rest as [|a [|b rest]]; [simpl in Hlen; lia..|].
  exists rest. split; [|simpl; lia].
  pose proof (length_flat_pairs pre) as Hpre.
  cbn [length] in Hfit.
  unfold side_entry. rewrite !wrap_small by lia.
  replace (2 * Z.of_nat (length pre))
    with (Z.of_nat (length (flat_pairs pre))) by lia.
  rewrite store_app. cbn [mbind option_bind].
  rewrite (cons_middle elem (flat_pairs pre)), (assoc_L (++)).
  replace (Z.of_nat (length (flat_pairs pre)) + 1)
    with (Z.of_nat (length (flat_pairs pre ++ [elem])))
    by (rewrite length_app; simpl; lia).
  rewrite store_app. cbn [mbind option_bind].
  rewrite <- (assoc_L (++)). do 2 f_equal. cbn [length]. lia.
Qed.

Lemma emits_pairs_skip {A} : emits_pairs (A:=A) Some [].
Proof.
  intros pre rest _ _. exists rest. split; [|done].
  simpl. do 2 f_equal. lia.
Qed.

Lemma emits_pairs_bind {A} (b1 b2 : Z * list A -> option (Z * list A))
    (o1 o2 : list (A * A)) :
  emits_pairs b1 o1 -> emits_pairs b2 o2 ->
  emits_pairs (fun st => b1 st ≫= b2) (o1 ++ o2).
Proof.
  intros H1 H2 pre rest Hlen Hfit. rewrite length_app in Hlen.
  destruct (H1 pre rest) as (rest1 & E1 & L1); [lia|done|].
  destruct (H2 (pre ++ o1) rest1) as (rest2 & E2 & L2).
  { lia. }
  { rewrite length_app. lia. }
  exists rest2. split.
  - rewrite E1. cbn [mbind option_bind].
    rewrite (assoc_L (++)), <- flat_pairs_app, <- length_app, E2.
    rewrite !length_app, !flat_pairs_app. do 2 f_equal; [lia|].
    by rewrite <- !(assoc_L (++)).
  - rewrite length_app. lia.
Qed.

Lemma emits_pairs_ext {A} (b1 b2 : Z * list A -> option (Z * list A))
    (out : list (A * A)) :
  (forall st, b1 st = b2 st) -> emits_pairs b1 out -> emits_pairs b2 out.
Proof.
  intros Hext H1 pre rest Hlen Hfit.
  destruct (H1 pre rest Hlen Hfit) as (rest' & E & L).
  exists rest'. by rewrite <- Hext.
Qed.

Lemma emits_pairs_iterate {A}
    (body : Z -> Z * list A -> option (Z * list A))
    (out : Z -> list (A * A)) (n : nat) :
  forall lo,
    (forall i, lo <= i < lo + Z.of_nat n -> emits_pairs (body i) (out i)) ->
    emits_pairs (iterate n lo 1 body) (seqZ lo (Z.of_nat n) ≫= out).
Proof.
  induction n as [|n IH]; intros lo Hbody.
  - apply emits_pairs_skip.
  - rewrite seqZ_succ, bind_cons.
    apply (emits_pairs_ext
             (fun st => body lo st ≫= iterate n (lo + 1) 1 body)).
    { intros st. cbn. by destruct (body lo st). }
    apply emits_pairs_bind.
    + apply Hbody. lia.
    + apply IH. intros i Hi. apply Hbody. lia.
Qed.

Lemma emits_pairs_for_range {A}
    (body : Z -> Z * list A -> option (Z * list A))
    (out : Z -> list (A * A)) (hi : Z) :
  (forall i, 0 <= i < hi -> emits_pairs (body i) (out i)) ->
  emits_pairs (for_range 0 hi body) (seqZ 0 hi ≫= out).
Proof.
  intros Hbody. unfold for_range. rewrite Z.sub_0_r, <- seqZ_of_to_nat.
  apply emits_pairs_iterate. intros i Hi. apply Hbody. lia.
Qed.

(** A vector of exactly the size of the pairs ends up holding them. *)
Lemma emits_pairs_fill {A} (body : Z * list A -> option (Z * list A))
    (out : list (A * A)) (v : list A) :
  emits_pairs body out -> length v = (2 * length out)%nat ->
  Z.of_nat (length v) < SIZE_MOD ->
  body (0, v) = Some (Z.of_nat (length out), flat_pairs out).
Proof.
  intros Hb Hlen Hfit.
  destruct (Hb [] v) as (rest' & E & L); [lia|simpl; lia|].
  change (Z.of_nat (length (@nil (A * A)))) with 0 in E.
  change (length (@nil (A * A)) + length out)%nat with (length out) in E.
  change (flat_pairs (@nil (A * A))) with (@nil A) in E.
  rewrite !app_nil_l in E. rewrite E.
  destruct rest'; [|simpl in L; lia]. by rewrite app_nil_r.
Qed.

(** ** The contents of the surface maps *)

Lemma for_range_first_fails {St} (lo hi : Z) (body : Z -> St -> option St)
    (s : St) :
  lo < hi -> body lo s = None -> for_range lo hi body s = None.
Proof.
  intros Hlt Hnone. unfold for_range.
  destruct (Z.to_nat (hi - lo)) as [|n] eqn:E; [lia|].
  cbn. by rewrite Hnone.
Qed.

Lemma bind_seqZ_succ {A} (f : Z -> list A) (t : Z) :
  0 <= t -> seqZ 0 (t + 1) ≫= f = (seqZ 0 t ≫= f) ++ f t.
Proof.
  intros Ht. rewrite seqZ_app by lia. rewrite bind_app. f_equal.
  rewrite (seqZ_cons _ 1) by lia. rewrite seqZ_nil by lia.
  by rewrite bind_singleton.
Qed.

Lemma bind_grid_list {A} (f : Z -> list A) (h w : Z) :
  0 <= h -> 0 <= w ->
  (i ← seqZ 0 h; j ← seqZ 0 w; f (i * w + j)) = seqZ 0 (h * w) ≫= f.
Proof.
  intros Hh Hw.
  rewrite <- (Z2Nat.id h) at 2 by done. rewrite <- seqZ_grid by done.
  rewrite Z2Nat.id by done. rewrite bind_bind.
  apply bind_ext_in. intros i _. rewrite bind_bind.
  apply bind_ext_in. intros j _. by rewrite bind_singleton.
Qed.

(** The loop nest of a side face on a vector of the right size. *)
Lemma side_loops_fill (e : Z -> Z -> Z) (face n nz : Z) (map : list Z) :
  0 <= n -> 0 <= nz -> 2 * (nz * n) < SIZE_MOD ->
  Z.of_nat (length map) = 2 * (nz * n) ->
  for_range 0 nz (fun k =>
    for_range 0 n (fun j => side_entry (e k j) face)) (0, map)
  ≫= (fun '(_, map) => Some map)
  = Some (k ← seqZ 0 nz; j ← seqZ 0 n; [e k j; face]).
Proof.
  intros Hn Hnz Hfit Hlen.
  assert (Hemit : emits_pairs
            (for_range 0 nz (fun k =>
               for_range 0 n (fun j => side_entry (e k j) face)))
            (k ← seqZ 0 nz; j ← seqZ 0 n; [(e k j, face)])).
  { apply emits_pairs_for_range. intros k _.
    apply emits_pairs_for_range. intros j _. apply emits_pairs_entry. }
  assert (Hcount : length (k ← seqZ 0 nz; j ← seqZ 0 n; [(e k j, face)])
                   = Z.to_nat (nz * n)).
  { rewrite (length_bind_const _ (Z.to_nat n)).
    - rewrite length_seqZ. nia.
    - intros k _. rewrite (length_bind_const _ 1%nat) by done.
      rewrite length_seqZ. lia. }
  rewrite (emits_pairs_fill _ _ _ Hemit) by lia.
  cbn [mbind option_bind]. f_equal.
  unfold flat_pairs. rewrite bind_bind.
  apply bind_ext_in. intros k _. rewrite bind_bind.
  apply bind_ext_in. intros j _. by rewrite bind_singleton.
Qed.

(** The loop nest of the bottom and the top face, which computes the
    position of a pair from the indices, on a vector of the right size. *)
Lemma index_loops_fill (g : Z -> Z) (face nj ni : Z) (map : list Z) :
  0 <= nj -> 0 <= ni ->
  Z.of_nat (length map) = 2 * (nj * ni) ->
  for_range 0 nj (fun j =>
    for_range 0 ni (fun i map =>
      map ← store map (2 * (j * ni + i)) (g (j * ni + i));
      store map (2 * (j * ni + i) + 1) face)) map
  = Some (j ← seqZ 0 nj; i ← seqZ 0 ni; [g (j * ni + i); face]).
Proof.
  intros Hnj Hni Hlen.
  rewrite (bind_grid_list (fun t => [g t; face])) by done.
  pose (Inv := fun (t : Z) (map : list Z) =>
                 exists rest,
                   map = (seqZ 0 t ≫= fun t => [g t; face]) ++ rest /\
                   Z.of_nat (length rest) = 2 * (nj * ni - t)).
  destruct (for_range_total (fun j => Inv (j * ni)) 0 nj
              (fun j =>
                 for_range 0 ni (fun i map =>
                   map ← store map (2 * (j * ni + i)) (g (j * ni + i));
                   store map (2 * (j * ni + i) + 1) face)) map)
    as (map' & E & rest & -> & Hrest); [lia| | |].
  - exists map. split; [done|lia].
  - intros j mp Hj Hmp.
    replace ((j + 1) * ni) with (j * ni + ni) by lia.
    apply (for_range_total (fun i => Inv (j * ni + i)) 0 ni);
      [lia|by rewrite Z.add_0_r|].
    intros i mp' Hi (rest & -> & Hrest).
    assert (Ht : 0 <= j * ni + i < nj * ni) by nia.
    destruct rest as [|a [|b rest]]; [simpl in Hrest; lia..|].
    assert (Hpre : Z.of_nat (length (seqZ 0 (j * ni + i)
                                       ≫= fun t => [g t; face]))
                   = 2 * (j * ni + i)).
    { rewrite (length_bind_const _ 2%nat) by done.
      rewrite length_seqZ. lia. }
    rewrite <- Hpre, store_app. cbn [mbind option_bind].
    rewrite (cons_middle (g _) (seqZ _ _ ≫= _)), (assoc_L (++)).
    replace (Z.of_nat (length (seqZ 0 (j * ni + i)
                                 ≫= fun t => [g t; face])) + 1)
      with (Z.of_nat (length ((seqZ 0 (j * ni + i)
                                 ≫= fun t => [g t; face])
                              ++ [g (j * ni + i)])))
      by (rewrite length_app; simpl; lia).
    rewrite store_app. eexists. split; [reflexivity|].
    exists rest. split.
    + replace (j * ni + (i + 1)) with (j * ni + i + 1) by lia.
      rewrite bind_seqZ_succ by lia.
      by rewrite <- !(assoc_L (++)).
    + cbn [length] in Hrest. lia.
  - rewrite E. f_equal.
    destruct rest; [by rewrite app_nil_r|]. simpl in Hrest. lia.
Qed.

Section SurfaceContent.
Context `{Double}.
Implicit Types m : GeneratedMesh.

Lemma surface_ids_fit_bounds m :
  surface_ids_fit m ->
  0 < numX m * numY m /\ numX m * numY m <= numX m * numY m * numZ m /\
  0 < numY m * numZ m <= numX m * numY m * numZ m /\
  0 < numX m * numZ m <= numX m * numY m * numZ m.
Proof.
  intros (Hx & Hy & Hz & Hmy & HP & Hfit).
  assert (0 < numX m * numY m) by nia.
  assert (0 < numY m * numZ m) by nia.
  assert (0 < numX m * numZ m) by nia.
  repeat split; nia.
Qed.

(** What [element_surface_map] returns on a rank that owns the faces of
    the boundary. *)
Lemma element_surface_map_spec m (loc : ShellLocation) (map : list Z) :
  surface_ids_fit m -> owns_surface m loc ->
  element_surface_map m loc map
  = Some (surface_hexes m loc ≫= fun e => [hex_id m e; surface_face loc]).
Proof.
  intros Hfit Hown.
  destruct (surface_ids_fit_bounds m Hfit) as (Hxy & Hxyz & Hyz & Hxz).
  destruct Hfit as (Hx & Hy & Hz & Hmy & HP & Hfit).
  pose proof int_consts as (? & ? & ? & ?).
  assert (Hlayer : forall l, 0 <= l < numZ m ->
            0 <= l * numX m * numY m /\
            l * numX m * numY m + numX m * numY m
            <= numX m * numY m * numZ m).
  { intros l Hl. clear Hxyz Hfit.
    replace (l * numX m * numY m) with (l * (numX m * numY m)) by ring.
    replace (numX m * numY m * numZ m) with (numZ m * (numX m * numY m))
      by ring.
    revert Hxy. generalize (numX m * numY m). intros Q HQ. nia. }
  assert (Hrow : forall i, 0 <= i < numY m ->
            0 <= i * numX m /\ i * numX m + numX m <= numX m * numY m)
    by (intros; nia).
  unfold element_surface_map. cbv zeta.
  destruct loc; unfold owns_surface in Hown;
    unfold shell_element_count_proc, surface_hexes, surface_face;
    rewrite ?Hown, ?(wrap_small (processorCount m - 1)) by lia;
    rewrite ?decide_True by done; unwrap.
  - (* MX *)
    rewrite side_loops_fill by (rewrite ?length_resize; lia).
    f_equal. rewrite bind_bind.
    apply bind_ext_in. intros l Hl%elem_of_seqZ. rewrite bind_bind.
    apply bind_ext_in. intros i Hi%elem_of_seqZ. rewrite bind_singleton.
    destruct (Hlayer l) as [? ?]; [lia|]. destruct (Hrow i) as [? ?]; [lia|].
    unfold hex_id. f_equal. unwrap. rewrite to_int_small; lia.
  - (* PX *)
    rewrite side_loops_fill by (rewrite ?length_resize; lia).
    f_equal. rewrite bind_bind.
    apply bind_ext_in. intros l Hl%elem_of_seqZ. rewrite bind_bind.
    apply bind_ext_in. intros i Hi%elem_of_seqZ. rewrite bind_singleton.
    destruct (Hlayer l) as [? ?]; [lia|]. destruct (Hrow i) as [? ?]; [lia|].
    unfold hex_id. f_equal. unwrap. rewrite to_int_small; lia.
  - (* MY *)
    rewrite side_loops_fill by (rewrite ?length_resize; lia).
    f_equal. rewrite bind_bind.
    apply bind_ext_in. intros l Hl%elem_of_seqZ. rewrite bind_bind.
    apply bind_ext_in. intros j Hj%elem_of_seqZ. rewrite bind_singleton.
    destruct (Hlayer l) as [? ?]; [lia|]. destruct (Hrow 0) as [? ?]; [lia|].
    unfold hex_id. f_equal. unwrap. rewrite to_int_small; lia.
  - (* PY *)
    rewrite side_loops_fill by (rewrite ?length_resize; lia).
    f_equal. rewrite bind_bind.
    apply bind_ext_in. intros l Hl%elem_of_seqZ. rewrite bind_bind.
    apply bind_ext_in. intros j Hj%elem_of_seqZ. rewrite bind_singleton.
    destruct (Hlayer l) as [? ?]; [lia|].
    destruct (Hrow (numY m - 1)) as [? ?]; [lia|].
    unfold hex_id. f_equal. unwrap. rewrite to_int_small; lia.
  - (* MZ *)
    rewrite (for_range_ext _
               (fun j => for_range 0 (numX m) (fun i map =>
                  map ← store map (2 * (j * numX m + i))
                          ((fun t => to_int (t + 1)) (j * numX m + i));
                  store map (2 * (j * numX m + i) + 1) 4))).
    2:{ intros j st Hj. apply for_range_ext. intros i mp Hi.
        destruct (Hrow j) as [? ?]; [lia|]. unwrap. done. }
    rewrite (index_loops_fill (fun t => to_int (t + 1)) 4 (numY m) (numX m))
      by (rewrite ?length_resize; lia).
    f_equal. rewrite bind_bind.
    apply bind_ext_in. intros i Hi%elem_of_seqZ. rewrite bind_bind.
    apply bind_ext_in. intros j Hj%elem_of_seqZ. rewrite bind_singleton.
    destruct (Hrow i) as [? ?]; [lia|].
    unfold hex_id. f_equal. rewrite to_int_small; lia.
  - (* PZ *)
    rewrite (for_range_ext _
               (fun j => for_range 0 (numX m) (fun i map =>
                  map ← store map (2 * (j * numX m + i))
                          ((fun t =>
                              to_int ((numZ m - 1) * numX m * numY m + t + 1))
                             (j * numX m + i));
                  store map (2 * (j * numX m + i) + 1) 5))).
    2:{ intros j st Hj. apply for_range_ext. intros i mp Hi.
        destruct (Hrow j) as [? ?]; [lia|].
        destruct (Hlayer (numZ m - 1)) as [? ?]; [lia|]. unwrap.
        replace ((numZ m - 1) * numX m * numY m + j * numX m + i
                 - (numZ m - 1) * numX m * numY m)
          with (j * numX m + i) by lia.
        do 3 f_equal. lia. }
    rewrite (index_loops_fill
               (fun t => to_int ((numZ m - 1) * numX m * numY m + t + 1))
               5 (numY m) (numX m))
      by (rewrite ?length_resize; lia).
    f_equal. rewrite bind_bind.
    apply bind_ext_in. intros i Hi%elem_of_seqZ. rewrite bind_bind.
    apply bind_ext_in. intros j Hj%elem_of_seqZ. rewrite bind_singleton.
    destruct (Hrow i) as [? ?]; [lia|].
    destruct (Hlayer (numZ m - 1)) as [? ?]; [lia|].
    unfold hex_id. f_equal. rewrite to_int_small; lia.
Qed.

(** On a rank that does not own the bottom (the top) of the mesh, the first
    write of [element_surface_map] is outside the vector. *)
Lemma element_surface_map_not_owner m (loc : ShellLocation) (map : list Z) :
  loc = MZ \/ loc = PZ -> surface_ids_fit m -> ~ owns_surface m loc ->
  element_surface_map m loc map = None.
Proof.
  intros Hloc (Hx & Hy & Hz & Hmy & HP & Hfit) Hown.
  pose proof int_consts as (? & ? & ? & ?).
  unfold element_surface_map. cbv zeta.
  destruct Hloc as [-> | ->]; unfold owns_surface in Hown;
    unfold shell_element_count_proc;
    rewrite ?(wrap_small (processorCount m - 1)) by lia;
    rewrite decide_False by done;
    (apply for_range_first_fails; [lia|]);
    (apply for_range_first_fails; [lia|]);
    unfold resize; cbn [mbind option_bind].
  - replace (wrap (2 * wrap (0 * numX m + 0))) with 0 by (by vm_compute).
    done.
  - match goal with
    | |- store _ ?i _ ≫= _ = None =>
        assert (Hnone : forall x, store (@nil Z) i x = None)
          by (intros x; apply store_None; simpl; lia)
    end.
    by rewrite Hnone.
Qed.

End SurfaceContent.

(** X6.  On a rank that owns all the faces of a boundary (for a side face:
    a rank that holds all [numZ] intervals; for the bottom: rank 0; for the
    top: the last rank), [element_surface_map] returns one pair for each
    hexahedron of the whole mesh that touches the boundary: the global
    identifier [l * numX * numY + i * numX + j + 1] of the hexahedron in
    column [j], row [i] and layer [l], and the local number of its face on
    the boundary (MX 3, PX 1, MY 0, PY 2, MZ 4, PZ 5). *)
Theorem element_surface_map_pairs `{Double} (m : GeneratedMesh)
    (loc : ShellLocation) (map : list Z) :
  surface_ids_fit m -> owns_surface m loc ->
  element_surface_map m loc map
  = Some (surface_hexes m loc ≫= fun e => [hex_id m e; surface_face loc]).
Proof. apply element_surface_map_spec. Qed.

Lemma surface_ids_fit_example : surface_ids_fit (example_ranks 1).
Proof. repeat split; by vm_compute. Qed.

Lemma element_surface_map_pairs_witness :
  element_surface_map (example_ranks 1) PZ []
  = Some [13; 5; 14; 5; 15; 5; 16; 5].
Proof.
  etransitivity.
  - apply (element_surface_map_pairs (example_ranks 1) PZ []
             surface_ids_fit_example).
    by vm_compute.
  - by vm_compute.
Defined.

(** X7.  For the bottom and the top of the mesh, [element_surface_map]
    sizes the vector for the faces of the rank (none on a rank that does
    not own the boundary) and then writes the pairs of all
    [numX * numY] faces: all its writes are within the vector if and only
    if the rank owns the boundary, that is on rank 0 for MZ and on rank
    [processorCount - 1] for PZ. *)
Theorem element_surface_map_bottom_top_owner `{Double} (m : GeneratedMesh)
    (map : list Z) :
  surface_ids_fit m ->
  (is_Some (element_surface_map m MZ map) <-> myProcessor m = 0) /\
  (is_Some (element_surface_map m PZ map)
   <-> myProcessor m = processorCount m - 1).
Proof.
  intros Hfit. split; split.
  - intros Hsome. destruct (decide (myProcessor m = 0)) as [|Hne]; [done|].
    rewrite (element_surface_map_not_owner m MZ) in Hsome by (done || by left).
    by destruct Hsome.
  - intros Hown. by rewrite (element_surface_map_spec m MZ).
  - intros Hsome.
    destruct (decide (myProcessor m = processorCount m - 1)) as [|Hne];
      [done|].
    rewrite (element_surface_map_not_owner m PZ) in Hsome
      by (done || by right).
    by destruct Hsome.
  - intros Hown. by rewrite (element_surface_map_spec m PZ).
Qed.

Lemma element_surface_map_bottom_top_owner_witness :
  ~ is_Some (element_surface_map (example_ranks 1) MZ []) /\
  is_Some (element_surface_map (example_ranks 1) PZ []).
Proof.
  destruct (element_surface_map_bottom_top_owner (example_ranks 1) []
              surface_ids_fit_example) as [Hbottom Htop].
  split.
  - intros Hsome. apply Hbottom in Hsome. discriminate Hsome.
  - apply Htop. reflexivity.
Defined.

(** ** Nodes shared between ranks *)

Lemma shared_with_app (m1 m2 p1 p2 : list Z) (q : Z) :
  length m1 = length p1 ->
  shared_with (m1 ++ m2) (p1 ++ p2) q
  = shared_with m1 p1 q ++ shared_with m2 p2 q.
Proof.
  intros Hlen. unfold shared_with.
  rewrite zip_with_app by done. by rewrite filter_app, fmap_app.
Qed.

Lemma shared_with_replicate (l : list Z) (q' q : Z) :
  shared_with l (replicate (length l) q') q = if decide (q' = q) then l else [].
Proof.
  unfold shared_with. induction l as [|a l IH]; [by case_decide|].
  cbn [length replicate zip zip_with]. rewrite filter_cons. cbn [snd].
  destruct (decide (q' = q)) as [Heq|Hne].
  - rewrite fmap_cons, IH. done.
  - exact IH.
Qed.

Lemma shared_with_nil (q : Z) : shared_with [] [] q = [].
Proof. done. Qed.

Section NodeSharing.
Context `{Double}.
Implicit Types m : GeneratedMesh.

Lemma length_layer_node_ids m (layer : Z) :
  0 <= numX m -> 0 <= numY m ->
  length (layer_node_ids m layer)
  = Z.to_nat ((numX m + 1) * (numY m + 1)).
Proof.
  intros Hx Hy. rewrite layer_node_ids_flat by done.
  by rewrite length_fmap, length_seqZ.
Qed.

(** The bottom and the top layer of the nodes of a rank within its node
    map. *)
Lemma node_map_layers m (map : list Z) :
  node_ids_fit m ->
  exists ids,
    node_map m map = Some ids /\
    layer_node_ids m (myStartZ m)
    = take (Z.to_nat ((numX m + 1) * (numY m + 1))) ids /\
    layer_node_ids m (myStartZ m + myNumZ m)
    = drop (length ids - Z.to_nat ((numX m + 1) * (numY m + 1))) ids.
Proof.
  intros Hfit. eexists. split; [by apply node_map_spec|].
  destruct (node_ids_fit_bounds m Hfit) as (HS & HSmax & Hs & Hz & Hmax).
  pose proof Hfit as (Hx & Hy & Hmy & _).
  rewrite !layer_node_ids_flat by done.
  set (S := (numX m + 1) * (numY m + 1)) in *.
  assert (Hall : S * (myNumZ m + 1) = myNumZ m * S + S) by ring.
  rewrite Hall, length_fmap, length_seqZ.
  split.
  - replace (myNumZ m * S + S) with (S + myNumZ m * S) by lia.
    rewrite seqZ_app by lia. rewrite fmap_app.
    rewrite take_app_length' by (by rewrite length_fmap, length_seqZ).
    done.
  - rewrite seqZ_app by lia. rewrite fmap_app.
    replace (Z.to_nat (myNumZ m * S + S) - Z.to_nat S)%nat
      with (Z.to_nat (myNumZ m * S)) by lia.
    rewrite drop_app_length' by (by rewrite length_fmap, length_seqZ).
    rewrite (seqZ_shift (0 + myNumZ m * S)), <- list_fmap_compose.
    apply list_fmap_ext. intros _ t _. cbn. fold S. lia.
Qed.

(** What a rank lists as shared with the rank above it and with the rank
    below it. *)
Lemma comm_shared m (map proc : list Z) :
  comm_fit m -> 1 < processorCount m ->
  exists cm cp,
    node_communication_map m map proc = Some (cm, cp) /\
    (myProcessor m <> processorCount m - 1 ->
     shared_with cm cp (myProcessor m + 1)
     = layer_node_ids m (myStartZ m + myNumZ m)) /\
    (myProcessor m <> 0 ->
     shared_with cm cp (myProcessor m - 1)
     = layer_node_ids m (myStartZ m)).
Proof.
  intros Hfit HP.
  destruct (node_communication_map_spec m map proc Hfit)
    as (sm & sp & E & Hstale).
  destruct (Hstale HP) as [-> ->]. rewrite !app_nil_r in E.
  destruct Hfit as ((Hx & Hy & _) & Hr & _).
  pose proof (length_layer_node_ids m (myStartZ m) Hx Hy) as Lb.
  pose proof (length_layer_node_ids m (myStartZ m + myNumZ m) Hx Hy) as Lt.
  eexists _, _. split; [exact E|]. clear E.
  split; intros Hrank.
  - rewrite (bool_decide_eq_false_2 (myProcessor m = processorCount m - 1))
      by done.
    rewrite shared_with_app
      by (case_bool_decide; [done|by rewrite length_replicate]).
    rewrite <- Lt, shared_with_replicate, decide_True by done.
    case_bool_decide; [done|].
    rewrite Lt, <- Lb, shared_with_replicate, decide_False by lia. done.
  - rewrite (bool_decide_eq_false_2 (myProcessor m = 0)) by done.
    rewrite shared_with_app by (by rewrite length_replicate).
    rewrite <- Lb at 1. rewrite shared_with_replicate, decide_True by done.
    case_bool_decide; [by rewrite app_nil_r|].
    rewrite <- Lt, shared_with_replicate, decide_False by lia.
    by rewrite app_nil_r.
Qed.

End NodeSharing.

(** X8.  On one of several ranks, the nodes [node_communication_map] lists
    are nodes of the rank, at the two ends of the vector of [node_map]: the
    nodes shared with the rank below are its first [(numX+1) * (numY+1)]
    entries (on a rank other than the first), the nodes shared with the
    rank above its last [(numX+1) * (numY+1)] entries (on a rank other than
    the last). *)
Theorem node_communication_map_within_node_map `{Double}
    (m : GeneratedMesh) (map cmap cproc : list Z) :
  comm_fit m -> 1 < processorCount m ->
  let slab := Z.to_nat ((numX m + 1) * (numY m + 1)) in
  exists ids cm cp,
    node_map m map = Some ids /\
    node_communication_map m cmap cproc = Some (cm, cp) /\
    cm = (if bool_decide (myProcessor m = 0) then [] else take slab ids)
         ++ (if bool_decide (myProcessor m = processorCount m - 1) then []
             else drop (length ids - slab) ids).
Proof.
  intros Hfit HP. cbv zeta.
  destruct (node_communication_map_spec m cmap cproc Hfit)
    as (sm & sp & E & Hstale).
  destruct (Hstale HP) as [-> ->]. rewrite !app_nil_r in E.
  destruct (node_map_layers m map (proj1 Hfit))
    as (ids & Hids & Hbottom & Htop).
  eexists ids, _, _. split; [exact Hids|]. split; [exact E|].
  by rewrite <- Hbottom, <- Htop.
Qed.

Lemma comm_fit_example : comm_fit (constructed 1 1 3 3 1).
Proof. repeat split; by vm_compute. Qed.

Lemma node_communication_map_within_node_map_witness :
  node_map (constructed 1 1 3 3 1) [] = Some [5; 6; 7; 8; 9; 10; 11; 12] /\
  exists cp,
    node_communication_map (constructed 1 1 3 3 1) [] []
    = Some ([5; 6; 7; 8; 9; 10; 11; 12], cp).
Proof.
  destruct (node_communication_map_within_node_map (constructed 1 1 3 3 1)
              [] [] [] comm_fit_example ltac:(by vm_compute))
    as (ids & cm & cp & Hids & Hcomm & ->).
  assert (Eids : ids = [5; 6; 7; 8; 9; 10; 11; 12]).
  { vm_compute in Hids. by injection Hids as <-. }
  split; [by rewrite Hids, Eids|].
  exists cp. rewrite Hcomm, Eids. reflexivity.
Defined.

(** X9.  Two ranks that follow each other list the same nodes for each
    other: when [m'] is the rank after [m] in the same mesh (its slab starts
    where the slab of [m] ends), the entries of the communication map of [m]
    that are paired with the rank of [m'] are, in the same order, the
    entries of the communication map of [m'] that are paired with the rank
    of [m]: the [(numX+1) * (numY+1)] nodes of the layer between them. *)
Theorem node_communication_map_neighbours_agree `{Double}
    (m m' : GeneratedMesh) (map proc map' proc' : list Z) :
  comm_fit m -> comm_fit m' ->
  numX m' = numX m -> numY m' = numY m ->
  processorCount m' = processorCount m ->
  myProcessor m' = myProcessor m + 1 ->
  myStartZ m' = myStartZ m + myNumZ m ->
  exists cm cp cm' cp',
    node_communication_map m map proc = Some (cm, cp) /\
    node_communication_map m' map' proc' = Some (cm', cp') /\
    shared_with cm cp (myProcessor m')
    = shared_with cm' cp' (myProcessor m) /\
    shared_with cm cp (myProcessor m')
    = layer_node_ids m (myStartZ m + myNumZ m) /\
    length (shared_with cm cp (myProcessor m'))
    = Z.to_nat ((numX m + 1) * (numY m + 1)).
Proof.
  intros Hfit Hfit' Ex Ey EP Er Es.
  pose proof Hfit as ((Hx & Hy & _) & Hr & _).
  pose proof Hfit' as (_ & Hr' & _).
  assert (HP : 1 < processorCount m) by lia.
  destruct (comm_shared m map proc Hfit HP) as (cm & cp & E & Htop & _).
  destruct (comm_shared m' map' proc' Hfit' ltac:(lia))
    as (cm' & cp' & E' & _ & Hbottom).
  exists cm, cp, cm', cp'. split; [done|]. split; [done|].
  specialize (Htop ltac:(lia)). specialize (Hbottom ltac:(lia)).
  assert (E1 : myProcessor m' - 1 = myProcessor m) by lia.
  rewrite E1 in Hbottom. rewrite <- Er in Htop. rewrite Htop, Hbottom.
  split; [|split; [done|by apply length_layer_node_ids]].
  unfold layer_node_ids. by rewrite Ex, Ey, Es.
Qed.

Lemma comm_fit_example_first : comm_fit (constructed 1 1 3 3 0).
Proof. repeat split; by vm_compute. Qed.

Lemma node_communication_map_neighbours_agree_witness :
  exists cm cp cm' cp',
    node_communication_map (constructed 1 1 3 3 0) [] [] = Some (cm, cp) /\
    node_communication_map (constructed 1 1 3 3 1) [] [] = Some (cm', cp') /\
    shared_with cm cp 1 = [5; 6; 7; 8] /\
    shared_with cm' cp' 0 = [5; 6; 7; 8].
Proof.
  destruct (node_communication_map_neighbours_agree
              (constructed 1 1 3 3 0) (constructed 1 1 3 3 1) [] [] [] []
              comm_fit_example_first comm_fit_example
              eq_refl eq_refl eq_refl eq_refl eq_refl)
    as (cm & cp & cm' & cp' & E & E' & Hsame & Hlayer & _).
  exists cm, cp, cm', cp'. split; [done|]. split; [done|].
  change (myProcessor (constructed 1 1 3 3 1)) with 1 in *.
  change (myProcessor (constructed 1 1 3 3 0)) with 0 in *.
  rewrite <- Hsame, Hlayer. split; reflexivity.
Defined.

(** ** The option parser *)

Section Parser.
Context `{Double}.
Variable tokenize : string -> string -> list string.
Implicit Types m : GeneratedMesh.

(** What the [shell:] option does with its argument. *)
Lemma parse_shell_spec (arg : string) m (log : list message) :
  parse_shell arg (m, log)
  = (set_shellBlocks
       (shellBlocks m ++ omap shell_of_char (list_ascii_of_string arg)) m,
     log ++ omap shell_error (list_ascii_of_string arg)).
Proof.
  unfold parse_shell. generalize (list_ascii_of_string arg). intros cs.
  revert m log. induction cs as [|c cs IH]; intros m log.
  - cbn. rewrite !app_nil_r. by destruct m.
  - cbn [foldl].
    destruct c as [[] [] [] [] [] [] [] []];
      rewrite IH; cbn [omap list_omap shell_of_char shell_error];
      cbn; rewrite <- ?(assoc_L (++)); done.
Qed.

Lemma same_grid_fields m m' :
  numX m' = numX m -> numY m' = numY m ->
  processorCount m' = processorCount m -> myProcessor m' = myProcessor m ->
  faceNodes m' = faceNodes m -> shellBlocks m' = shellBlocks m ->
  same_grid m m'.
Proof. intros ? ? ? ? ? Hblocks. repeat split; try done. by rewrite Hblocks. Qed.

Lemma same_grid_refl m : same_grid m m.
Proof. by apply same_grid_fields. Qed.

Lemma same_grid_trans m1 m2 m3 :
  same_grid m1 m2 -> same_grid m2 m3 -> same_grid m1 m3.
Proof.
  intros (? & ? & ? & ? & ? & ?) (? & ? & ? & ? & ? & ?).
  repeat split; try congruence. by etrans.
Qed.

Lemma set_rotation_same_grid (axis : string) (angle : double) m :
  same_grid m (set_rotation axis angle m).1.
Proof.
  unfold set_rotation.
  destruct (_ || _); [by apply same_grid_fields|].
  destruct (_ || _); [by apply same_grid_fields|].
  destruct (_ || _); by apply same_grid_fields.
Qed.

Lemma parse_zdecomp_same_grid (tokens : list string) m m' :
  parse_zdecomp tokens m = Some m' -> same_grid m m'.
Proof.
  unfold parse_zdecomp. case_decide; [|done].
  destruct (for_range 0 _ _ _) as [[num_z Zs]|]; [|done].
  cbn [mbind option_bind].
  destruct (load Zs _); [|done]. cbn [mbind option_bind].
  destruct (for_range 0 _ _ _); [|done]. cbn [mbind option_bind].
  intros [= <-]. by apply same_grid_fields.
Qed.

(** What no option does. *)
Lemma parse_option_same_grid (opt : list string) m log m' log' :
  parse_option tokenize opt (m, log) = Some (m', log') ->
  same_grid m m' /\ log `prefix_of` log'.
Proof.
  unfold parse_option.
  destruct (load opt 0) as [key|]; [|by cbn]. cbn [mbind option_bind].
  destruct (key =? "shell")%string.
  { destruct (load opt 1) as [arg|]; [|by cbn]. cbn [mbind option_bind].
    rewrite parse_shell_spec. intros [= <- <-].
    split; [|by apply prefix_app_r].
    repeat split. by apply prefix_app_r. }
  destruct (key =? "scale")%string.
  { destruct (load opt 1) as [arg|]; [|by cbn]. cbn.
    case_decide; [|by cbn]. destruct_loads.
    intros [= <- <-]. split; [by apply same_grid_fields|done]. }
  destruct (key =? "offset")%string.
  { destruct (load opt 1) as [arg|]; [|by cbn]. cbn.
    case_decide; [|by cbn]. destruct_loads.
    intros [= <- <-]. split; [by apply same_grid_fields|done]. }
  destruct (key =? "zdecomp")%string.
  { destruct (load opt 1) as [arg|]; [|by cbn]. cbn.
    destruct (parse_zdecomp _ m) as [m1|] eqn:Hz; [|by cbn]. cbn.
    intros [= <- <-]. split; [by eapply parse_zdecomp_same_grid|done]. }
  destruct (key =? "bbox")%string.
  { destruct (load opt 1) as [arg|]; [|by cbn]. cbn.
    case_decide; [|by cbn]. destruct_loads.
    intros [= <- <-]. split; [by apply same_grid_fields|done]. }
  destruct (key =? "rotate")%string.
  { destruct (load opt 1) as [arg|]; [|by cbn]. cbn [mbind option_bind].
    case_decide; [|done]. intros Hit.
    change (same_grid m (m', log').1 /\ log `prefix_of` (m', log').2).
    eapply (iterate_partial
              (fun _ (st : GeneratedMesh * list message) =>
                 same_grid m st.1 /\ log `prefix_of` st.2));
      [| |exact Hit]; [split; [apply same_grid_refl|done]|].
    intros k [m1 log1] [m2 log2] _ [Hst Hlog].
    destruct (load _ (0 + k * 2)) as [axis|]; [|by cbn].
    cbn [mbind option_bind].
    destruct (load _ (0 + k * 2 + 1)) as [angle|]; [|by cbn].
    cbn [mbind option_bind].
    pose proof (set_rotation_same_grid axis (strtod angle) m1) as Hrot.
    destruct (set_rotation axis (strtod angle) m1) as [m3 msgs].
    intros [= <- <-]. split.
    - by eapply same_grid_trans.
    - by apply prefix_app_r. }
  destruct (key =? "help")%string.
  { intros [= <- <-]. split; [apply same_grid_refl|by apply prefix_app_r]. }
  destruct (key =? "show")%string.
  { destruct (show_parameters m); [|by cbn]. cbn.
    intros [= <- <-]. split; [apply same_grid_refl|by apply prefix_app_r]. }
  intros [= <- <-]. split; [apply same_grid_refl|by apply prefix_app_r].
Qed.

Lemma parse_options_same_grid (groups : list string) m log m' log' :
  parse_options tokenize groups (m, log) = Some (m', log') ->
  same_grid m m' /\ log `prefix_of` log'.
Proof.
  intros Hparse. unfold parse_options in Hparse.
  destruct (decide (1 <= Z.of_nat (length groups))) as [Hle|Hgt].
  - change (same_grid m (m', log').1 /\ log `prefix_of` (m', log').2).
    eapply (for_range_partial
              (fun _ (st : GeneratedMesh * list message) =>
                 same_grid m st.1 /\ log `prefix_of` st.2));
      [exact Hle| | |exact Hparse]; [split; [apply same_grid_refl|done]|].
    intros i [m1 log1] [m2 log2] _ [Hst Hlog].
    destruct (load groups i); [|by cbn]. cbn [mbind option_bind].
    intros Hopt. apply parse_option_same_grid in Hopt as [Hst' Hlog'].
    split; [by eapply same_grid_trans|by etrans].
  - rewrite for_range_empty in Hparse by lia. injection Hparse as <- <-.
    split; [apply same_grid_refl|done].
Qed.

(** A specification string without options. *)
Lemma GeneratedMesh_of_string_intervals (parameters group t0 t1 t2 : string)
    (proc_count my_proc : Z) :
  tokenize parameters "|+" = [group] ->
  tokenize group "x" = [t0; t1; t2] ->
  GeneratedMesh_of_string tokenize parameters proc_count my_proc
  = m ← GeneratedMesh_of_ints (strtol t0) (strtol t1) (strtol t2)
          proc_count my_proc;
    Some (m, []).
Proof.
  intros Hgroups Htokens.
  unfold GeneratedMesh_of_string, GeneratedMesh_of_ints, member_init.
  rewrite Hgroups. change (load [group] 0) with (Some group).
  cbn [mbind option_bind]. rewrite Htokens.
  rewrite decide_True by done.
  change (load [t0; t1; t2] 0) with (Some t0).
  change (load [t0; t1; t2] 1) with (Some t1).
  change (load [t0; t1; t2] 2) with (Some t2).
  cbn [mbind option_bind].
  unfold initialize. cbn [processorCount numZ myProcessor myStartZ].
  case_decide; [|done]. cbn [mbind option_bind].
  unfold parse_options. rewrite for_range_empty by (simpl; lia).
  case_decide; reflexivity.
Qed.

End Parser.

(** X10.  The option [shell:] followed by letters adds one shell block for
    each letter that names a face ([x] MX, [X] PX, [y] MY, [Y] PY, [z] MZ,
    [Z] PZ), in the order of the letters and without removing duplicates;
    for every other letter it writes an error message and goes on.  Nothing
    else of the mesh changes. *)
Theorem shell_option_appends_blocks `{Double}
    (tokenize : string -> string -> list string) (arg : string)
    (rest : list string) (m : GeneratedMesh) (log : list message) :
  parse_option tokenize ("shell"%string :: arg :: rest) (m, log)
  = Some (set_shellBlocks
            (shellBlocks m ++ omap shell_of_char (list_ascii_of_string arg))
            m,
          log ++ omap shell_error (list_ascii_of_string arg)).
Proof.
  unfold parse_option.
  change (load ("shell"%string :: arg :: rest) 0) with (Some "shell"%string).
  change (load ("shell"%string :: arg :: rest) 1) with (Some arg).
  cbn [mbind option_bind]. cbn [String.eqb Ascii.eqb Bool.eqb].
  by rewrite parse_shell_spec.
Qed.

(** X11.  Whatever the options of a specification string are, processing
    them leaves [numX], [numY], [processorCount], [myProcessor] and the face
    table as they were; the list of shell blocks only grows at its end, and
    so does the text written to the error stream. *)
Theorem parse_options_keeps_grid `{Double}
    (tokenize : string -> string -> list string) (groups : list string)
    (m m' : GeneratedMesh) (log log' : list message) :
  parse_options tokenize groups (m, log) = Some (m', log') ->
  numX m' = numX m /\ numY m' = numY m /\
  processorCount m' = processorCount m /\ myProcessor m' = myProcessor m /\
  faceNodes m' = faceNodes m /\
  shellBlocks m `prefix_of` shellBlocks m' /\
  log `prefix_of` log'.
Proof.
  intros Hparse.
  destruct (parse_options_same_grid tokenize groups m log m' log' Hparse)
    as ((? & ? & ? & ? & ? & ?) & ?).
  done.
Qed.

Lemma parse_options_keeps_grid_witness :
  exists m' log',
    parse_options tokenize_model ["2x2x2"; "shell:xq"; "zdecomp:5"]%string
      (constructed 2 2 2 1 0, [])
    = Some (m', log') /\
    numX m' = 2 /\ numY m' = 2 /\ shellBlocks m' = [MX] /\ numZ m' = 5.
Proof.
  assert (Hparse :
    exists m' log',
      parse_options tokenize_model ["2x2x2"; "shell:xq"; "zdecomp:5"]%string
        (constructed 2 2 2 1 0, [])
      = Some (m', log') /\ shellBlocks m' = [MX] /\ numZ m' = 5).
  { eexists _, _. split; [vm_compute; reflexivity|]. done. }
  destruct Hparse as (m' & log' & Hparse & Hblocks & Hz).
  destruct (parse_options_keeps_grid tokenize_model _ _ m' _ log' Hparse)
    as (Hx & Hy & _).
  exists m', log'. split; [exact Hparse|].
  split; [exact Hx|]. split; [exact Hy|]. done.
Defined.

(** X12.  When the specification string has no options, that is one group
    of three tokens separated by [x], the constructor from a string builds
    the mesh the constructor from integers builds from the three numbers
    [strtol] reads, and it fails when that one fails; nothing is written to
    the error stream. *)
Theorem string_constructor_agrees `{Double}
    (tokenize : string -> string -> list string)
    (parameters group t0 t1 t2 : string) (proc_count my_proc : Z) :
  tokenize parameters "|+"%string = [group] ->
  tokenize group "x"%string = [t0; t1; t2] ->
  INT_MIN <= strtol t0 <= INT_MAX -> INT_MIN <= strtol t1 <= INT_MAX ->
  INT_MIN <= strtol t2 <= INT_MAX ->
  GeneratedMesh_of_string tokenize parameters proc_count my_proc
  = m ← GeneratedMesh_of_ints (strtol t0) (strtol t1) (strtol t2)
          proc_count my_proc;
    Some (m, []).
Proof.
  intros Hgroups Htokens _ _ _.
  exact (GeneratedMesh_of_string_intervals tokenize parameters group
           t0 t1 t2 proc_count my_proc Hgroups Htokens).
Qed.

Lemma string_constructor_agrees_witness :
  GeneratedMesh_of_string (H:=SymbolicDouble) tokenize_model "2x3x4" 2 1
  = m ← GeneratedMesh_of_ints 2 3 4 2 1; Some (m, []).
Proof.
  apply (string_constructor_agrees tokenize_model "2x3x4" "2x3x4"
           "2" "3" "4" 2 1); by vm_compute.
Defined.

(** ** Rotations *)

Section Rotations.
Context `{Double}.
Variable tokenize : string -> string -> list string.
Implicit Types m : GeneratedMesh.

(** What [set_rotation] does. *)
Lemma set_rotation_spec (axis : string) (angle : double) m :
  set_rotation axis angle m
  = match axis_rotation axis angle with
    | Some R => (set_rotmat (mat_mul (rotmat m) R) (set_doRotation true m), [])
    | None => (set_doRotation true m, [InvalidAxis axis])
    end.
Proof.
  unfold set_rotation, axis_rotation.
  destruct (_ || _); [reflexivity|].
  destruct (_ || _); [reflexivity|].
  destruct (_ || _); reflexivity.
Qed.

Lemma rotate_loop (pairs : list (string * string)) :
  forall (seen : list (string * string)) (st : GeneratedMesh * list message),
    iterate (length pairs) (2 * Z.of_nat (length seen)) 2
      (fun ir '(m, log) =>
         axis ← load (flat_pairs (seen ++ pairs)) ir;
         angle ← load (flat_pairs (seen ++ pairs)) (ir + 1);
         let '(m, msgs) := set_rotation axis (strtod angle) m in
         Some (m, log ++ msgs))
      st
    = Some (foldl apply_rotation st pairs).
Proof.
  induction pairs as [|[axis angle] pairs IH]; intros seen [m log]; [done|].
  cbn [iterate length foldl].
  assert (Hlen : Z.of_nat (length (flat_pairs seen))
                 = 2 * Z.of_nat (length seen))
    by (rewrite length_flat_pairs; lia).
  rewrite flat_pairs_app.
  change (flat_pairs ((axis, angle) :: pairs))
    with (axis :: angle :: flat_pairs pairs).
  rewrite <- Hlen.
  rewrite (load_at (flat_pairs seen) (axis :: angle :: flat_pairs pairs)
             (Z.of_nat (length (flat_pairs seen))) 0 axis) by (done || lia).
  cbn [mbind option_bind].
  rewrite (load_at (flat_pairs seen) (axis :: angle :: flat_pairs pairs)
             (Z.of_nat (length (flat_pairs seen)) + 1) 1 angle)
    by (done || lia).
  cbn [mbind option_bind]. unfold apply_rotation at 2.
  destruct (set_rotation axis (strtod angle) m) as [m' msgs].
  specialize (IH (seen ++ [(axis, angle)]) (m', log ++ msgs)).
  rewrite <- (assoc_L (++)) in IH. cbn [app] in IH.
  rewrite flat_pairs_app in IH.
  change (flat_pairs ((axis, angle) :: pairs))
    with (axis :: angle :: flat_pairs pairs) in IH.
  rewrite <- IH. f_equal. rewrite length_app. simpl. lia.
Qed.

End Rotations.

(** X13.  [set_rotation] with a valid axis multiplies the rotation matrix
    on the right by the matrix of the rotation about that axis (for the
    convention [row vector . matrix] of [coordinates]; upper and lower case
    name the same axis), raises [doRotation] and writes nothing; successive
    rotations therefore accumulate in the order of the calls.  With any
    other axis name it writes the error message, and raises [doRotation] as
    well. *)
Theorem set_rotation_multiplies `{Double} (axis : string) (angle : double)
    (m : GeneratedMesh) :
  set_rotation axis angle m
  = match axis_rotation axis angle with
    | Some R => (set_rotmat (mat_mul (rotmat m) R) (set_doRotation true m), [])
    | None => (set_doRotation true m, [InvalidAxis axis])
    end.
Proof. apply set_rotation_spec. Qed.

(** X14.  The option [rotate:] with the tokens [axis, angle, axis, angle,
    ...] applies [set_rotation] to the pairs from left to right, the angle
    read by [strtod], and collects the messages; with an odd number of
    tokens its assertion fails. *)
Theorem rotate_option_in_order `{Double}
    (tokenize : string -> string -> list string) (arg : string)
    (rest : list string) (m : GeneratedMesh) (log : list message) :
  (forall pairs : list (string * string),
     tokenize arg ","%string = flat_pairs pairs ->
     parse_option tokenize ("rotate"%string :: arg :: rest) (m, log)
     = Some (foldl apply_rotation (m, log) pairs)) /\
  (Z.of_nat (length (tokenize arg ","%string)) mod 2 <> 0 ->
   parse_option tokenize ("rotate"%string :: arg :: rest) (m, log) = None).
Proof.
  unfold parse_option.
  change (load ("rotate"%string :: arg :: rest) 0) with (Some "rotate"%string).
  change (load ("rotate"%string :: arg :: rest) 1) with (Some arg).
  cbn [mbind option_bind]. cbn [String.eqb Ascii.eqb Bool.eqb].
  split.
  - intros pairs Htokens. rewrite Htokens, length_flat_pairs.
    rewrite decide_True
      by (rewrite Nat2Z.inj_mul, Z.mul_comm; apply Z.mod_mul; lia).
    replace (2 * length pairs / 2)%nat with (length pairs)
      by (rewrite Nat.mul_comm, Nat.div_mul; lia).
    exact (rotate_loop pairs [] (m, log)).
  - intros Hodd. by rewrite decide_False.
Qed.

Lemma rotate_option_in_order_witness :
  parse_option (H:=SymbolicDouble) tokenize_model ["rotate"; "z,90,w,5"]%string
    (constructed 1 1 1 1 0, [])
  = Some (foldl apply_rotation (constructed 1 1 1 1 0, [])
            [("z", "90"); ("w", "5")]%string).
Proof.
  destruct (rotate_option_in_order (H:=SymbolicDouble) tokenize_model
              "z,90,w,5" [] (constructed 1 1 1 1 0) []) as [Hpairs _].
  apply (Hpairs [("z", "90"); ("w", "5")]%string). reflexivity.
Defined.

(** ** Block numbers *)

Section Blocks.
Context `{Double}.
Implicit Types m : GeneratedMesh.

Lemma block_count_fit m :
  Z.of_nat (length (shellBlocks m)) + 1 < SIZE_MOD ->
  block_count m = Z.of_nat (length (shellBlocks m)) + 1.
Proof. intros Hlen. unfold block_count. apply wrap_small. lia. Qed.

(** The block numbers a shell block can be read at. *)
Lemma load_shell_block m (b : Z) :
  Z.of_nat (length (shellBlocks m)) + 1 < SIZE_MOD ->
  0 <= b < SIZE_MOD -> b <> 1 ->
  is_Some (load (shellBlocks m) (wrap (b - 2)))
  <-> 2 <= b <= Z.of_nat (length (shellBlocks m)) + 1.
Proof.
  intros Hlen Hb Hb1. pose proof SIZE_MOD_pos.
  assert (Hwrap : 0 <= wrap (b - 2) < SIZE_MOD)
    by (apply Z.mod_pos_bound; lia).
  rewrite load_to_nat by lia. rewrite lookup_lt_is_Some.
  destruct (decide (2 <= b)) as [Hge|Hlt].
  - rewrite wrap_small in * by lia. lia.
  - assert (b = 0) as -> by lia.
    assert (wrap (0 - 2) = SIZE_MOD - 2) as -> by done. lia.
Qed.

Lemma element_count_block_defined m (b : Z) :
  Z.of_nat (length (shellBlocks m)) + 1 < SIZE_MOD ->
  0 <= b < SIZE_MOD ->
  (is_Some (element_count_block m b) <-> 1 <= b <= block_count m) /\
  (is_Some (element_count_proc_block m b) <-> 1 <= b <= block_count m) /\
  (is_Some (topology_type m b) <-> 1 <= b <= block_count m).
Proof.
  intros Hlen Hb. pose proof (load_shell_block m b Hlen Hb) as Hload.
  rewrite (block_count_fit m Hlen) in *.
  unfold element_count_block, element_count_proc_block, topology_type.
  rewrite (block_count_fit m Hlen).
  split; [|split].
  - case_decide; [|split; [by intros [? ?]|lia]].
    case_decide; [split; [lia|done]|].
    specialize (Hload ltac:(done)).
    destruct (load _ _); cbn [mbind option_bind].
    + split; [intros _|done]. destruct Hload as [Hload _].
      specialize (Hload ltac:(done)). lia.
    + split; [by intros [? ?]|]. intros Hrange.
      destruct (proj2 Hload ltac:(lia)) as [? [=]].
  - case_decide; [|split; [by intros [? ?]|lia]].
    case_decide; [split; [lia|done]|].
    specialize (Hload ltac:(done)).
    destruct (load _ _); cbn [mbind option_bind].
    + split; [intros _|done]. destruct Hload as [Hload _].
      specialize (Hload ltac:(done)). lia.
    + split; [by intros [? ?]|]. intros Hrange.
      destruct (proj2 Hload ltac:(lia)) as [? [=]].
  - case_decide; [|split; [by intros [? ?]|lia]].
    case_decide; (split; [lia|done]).
Qed.

(** A shell block that was added is the last block. *)
Lemma add_shell_block_last m (loc : ShellLocation) :
  Z.of_nat (length (shellBlocks m)) + 2 < SIZE_MOD ->
  let m' := (add_shell_block loc m).1 in
  let n := (add_shell_block loc m).2 in
  n = block_count m /\ block_count m' = n + 1 /\
  element_count_block m' (n + 1) = Some (shell_element_count m loc) /\
  element_count_proc_block m' (n + 1)
  = Some (shell_element_count_proc m loc) /\
  topology_type m' (n + 1) = Some ("shell4"%string, 4) /\
  (forall b, 1 <= b <= block_count m ->
     element_count_block m' b = element_count_block m b /\
     element_count_proc_block m' b = element_count_proc_block m b /\
     topology_type m' b = topology_type m b).
Proof.
  intros Hlen. cbv zeta. unfold add_shell_block. cbn [fst snd].
  rewrite length_app. cbn [length].
  assert (Hbc : block_count m = Z.of_nat (length (shellBlocks m)) + 1)
    by (apply block_count_fit; lia).
  assert (Hbc' : block_count (set_shellBlocks (shellBlocks m ++ [loc]) m)
                 = Z.of_nat (length (shellBlocks m)) + 2).
  { unfold block_count. cbn [shellBlocks set_shellBlocks].
    rewrite length_app. cbn [length]. rewrite wrap_small by lia. lia. }
  split; [lia|]. split; [lia|].
  unfold element_count_block, element_count_proc_block, topology_type.
  rewrite Hbc, Hbc'. cbn [shellBlocks set_shellBlocks].
  replace (Z.of_nat (length (shellBlocks m) + 1) + 1)
    with (Z.of_nat (length (shellBlocks m)) + 2) by lia.
  replace (Z.of_nat (length (shellBlocks m)) + 2 - 2)
    with (Z.of_nat (length (shellBlocks m))) by lia.
  rewrite (wrap_small (Z.of_nat _)) by lia.
  rewrite (load_at (shellBlocks m) [loc] _ 0 loc) by (done || lia).
  split; [repeat case_decide; (done || lia)|].
  split; [repeat case_decide; (done || lia)|].
  split; [repeat case_decide; (done || lia)|].
  intros b Hb.
  destruct (decide (b = 1)) as [->|Hb1].
  - repeat case_decide; (done || lia).
  - rewrite (wrap_small (b - 2)) by lia.
    rewrite !load_to_nat by lia.
    rewrite lookup_app_l by lia.
    repeat case_decide; (done || lia).
Qed.

End Blocks.

(** X15.  [element_count(b)], [element_count_proc(b)] and
    [topology_type(b)] return a value exactly for the block numbers
    [1 <= b <= block_count()]: a larger number fails their assertion, and
    for [b = 0] the assertion of the two counts holds but they read the
    block list out of its bounds. *)
Theorem block_numbers_defined `{Double} (m : GeneratedMesh) (b : Z) :
  Z.of_nat (length (shellBlocks m)) + 1 < SIZE_MOD ->
  0 <= b < SIZE_MOD ->
  (is_Some (element_count_block m b) <-> 1 <= b <= block_count m) /\
  (is_Some (element_count_proc_block m b) <-> 1 <= b <= block_count m) /\
  (is_Some (topology_type m b) <-> 1 <= b <= block_count m).
Proof. apply element_count_block_defined. Qed.

Lemma block_numbers_defined_witness :
  ~ is_Some (element_count_block (example_ranks 0) 0) /\
  is_Some (element_count_block (example_ranks 0) 3) /\
  ~ is_Some (element_count_block (example_ranks 0) 4).
Proof.
  assert (Hlen : Z.of_nat (length (shellBlocks (example_ranks 0))) + 1
                 < SIZE_MOD) by (by vm_compute).
  split; [|split].
  - destruct (block_numbers_defined (example_ranks 0) 0 Hlen
                ltac:(by vm_compute)) as (Hcount & _).
    intros Hsome. apply Hcount in Hsome. destruct Hsome as [Hle _].
    by vm_compute in Hle.
  - destruct (block_numbers_defined (example_ranks 0) 3 Hlen
                ltac:(by vm_compute)) as (Hcount & _).
    apply Hcount. by vm_compute.
  - destruct (block_numbers_defined (example_ranks 0) 4 Hlen
                ltac:(by vm_compute)) as (Hcount & _).
    intros Hsome. apply Hcount in Hsome. destruct Hsome as [_ Hle].
    by vm_compute in Hle.
Defined.

(** X16.  [add_shell_block(loc)] returns the number of shell blocks after
    the addition, which is the block count before it; the new block is the
    last one, number [block_count()] of the new mesh: a [shell4] block with
    the element counts of its face.  The blocks that were there keep their
    numbers, counts and topology. *)
Theorem add_shell_block_is_last `{Double} (m : GeneratedMesh)
    (loc : ShellLocation) :
  Z.of_nat (length (shellBlocks m)) + 2 < SIZE_MOD ->
  let m' := (add_shell_block loc m).1 in
  let n := (add_shell_block loc m).2 in
  n = block_count m /\ block_count m' = n + 1 /\
  element_count_block m' (n + 1) = Some (shell_element_count m loc) /\
  element_count_proc_block m' (n + 1)
  = Some (shell_element_count_proc m loc) /\
  topology_type m' (n + 1) = Some ("shell4"%string, 4) /\
  (forall b, 1 <= b <= block_count m ->
     element_count_block m' b = element_count_block m b /\
     element_count_proc_block m' b = element_count_proc_block m b /\
     topology_type m' b = topology_type m b).
Proof. apply add_shell_block_last. Qed.

Lemma add_shell_block_is_last_witness :
  (add_shell_block PY (example_ranks 0)).2 = 3 /\
  element_count_block (add_shell_block PY (example_ranks 0)).1 4 = Some 8.
Proof.
  destruct (add_shell_block_is_last (example_ranks 0) PY
              ltac:(by vm_compute)) as (Hn & _ & Hcount & _).
  split; [exact Hn|exact Hcount].
Defined.

(** ** The element identifiers over the ranks *)

Lemma seqZ_concat_slabs (a c : Z) (num : Z -> Z) (n : nat) :
  0 <= c -> (forall r, 0 <= r < Z.of_nat n -> 0 <= num r) ->
  (r ← seqZ 0 (Z.of_nat n);
   seqZ (a + c * sum_Z (num <$> seqZ 0 r)) (c * num r))
  = seqZ a (c * sum_Z (num <$> seqZ 0 (Z.of_nat n))).
Proof.
  intros Hc. induction n as [|n IH]; intros Hnum.
  - simpl. by rewrite Z.mul_0_r.
  - assert (Hpos : 0 <= sum_Z (num <$> seqZ 0 (Z.of_nat n))).
    { apply sum_Z_nonneg, Forall_fmap, Forall_forall.
      intros r Hr%elem_of_seqZ. apply Hnum. lia. }
    pose proof (Hnum (Z.of_nat n) ltac:(lia)) as Hn.
    rewrite seqZ_S, bind_app, IH by (intros; apply Hnum; lia).
    rewrite bind_singleton, fmap_app, sum_Z_app. simpl.
    rewrite !Z.add_0_l, Z.add_0_r, Z.mul_add_distr_l.
    rewrite (seqZ_app a) by nia. done.
Qed.

Lemma bind_seqZ_single {A} (f : Z -> list A) (k n : Z) :
  0 <= k < n -> (forall r, 0 <= r < n -> r <> k -> f r = []) ->
  seqZ 0 n ≫= f = f k.
Proof.
  intros Hk Hf. replace n with (k + (1 + (n - k - 1))) by lia.
  rewrite seqZ_app, seqZ_app by lia. rewrite !bind_app.
  rewrite (bind_ext_in f (fun _ => []) (seqZ 0 k))
    by (intros r Hr%elem_of_seqZ; apply Hf; lia).
  rewrite (bind_ext_in f (fun _ => []) (seqZ (0 + k + 1) _))
    by (intros r Hr%elem_of_seqZ; apply Hf; lia).
  rewrite (seqZ_cons _ 1) by lia. rewrite (seqZ_nil _ (Z.pred 1)) by lia.
  rewrite bind_singleton.
  assert (Hnil : forall l : list Z, l ≫= (fun _ => @nil A) = []).
  { intros l. induction l as [|x l IHl]; [done|].
    by rewrite bind_cons, IHl. }
  rewrite !Hnil, app_nil_r. simpl. done.
Qed.

Section OverRanks.
Context `{Double}.
Variable mesh_of : Z -> GeneratedMesh.
Variables nx ny nz P : Z.
Variable blocks : list ShellLocation.
Hypothesis Hnx : 0 < nx.
Hypothesis Hny : 0 < ny.
Hypothesis Hnz : 0 < nz.
Hypothesis HP : 0 < P <= INT_MAX.
Hypothesis Hranks :
  forall r, 0 <= r < P ->
    numX (mesh_of r) = nx /\ numY (mesh_of r) = ny /\
    numZ (mesh_of r) = nz /\ shellBlocks (mesh_of r) = blocks /\
    processorCount (mesh_of r) = P /\ myProcessor (mesh_of r) = r /\
    0 <= myNumZ (mesh_of r) /\
    myStartZ (mesh_of r)
    = sum_Z ((fun r' => myNumZ (mesh_of r')) <$> seqZ 0 r).
Hypothesis Hcover : sum_Z ((fun r => myNumZ (mesh_of r)) <$> seqZ 0 P) = nz.
Hypothesis Hfit : total_elements nx ny nz blocks <= INT_MAX.

Local Abbreviation num := (fun r => myNumZ (mesh_of r)).

Lemma slab_prefix_bounds r :
  0 <= r < P ->
  0 <= sum_Z (num <$> seqZ 0 r) /\
  sum_Z (num <$> seqZ 0 r) + myNumZ (mesh_of r) <= nz.
Proof.
  intros Hr.
  assert (Hpos : forall a n, 0 <= a -> a + n <= P ->
            0 <= sum_Z (num <$> seqZ a n)).
  { intros a n Ha Hn. apply sum_Z_nonneg, Forall_fmap, Forall_forall.
    intros r' Hr'%elem_of_seqZ. apply Hranks. lia. }
  split; [apply Hpos; lia|].
  rewrite <- Hcover.
  replace (seqZ 0 P) with (seqZ 0 (r + (1 + (P - r - 1))))
    by (f_equal; lia).
  rewrite seqZ_app, seqZ_app by lia. rewrite !fmap_app, !sum_Z_app.
  rewrite (seqZ_cons _ 1) by lia. rewrite (seqZ_nil _ (Z.pred 1)) by lia.
  pose proof (Hpos (0 + r + 1) (P - r - 1) ltac:(lia) ltac:(lia)).
  simpl. rewrite !Z.add_0_l in *. lia.
Qed.

Lemma rank_element_ids_fit r : 0 <= r < P -> element_ids_fit (mesh_of r).
Proof.
  intros Hr. destruct (slab_prefix_bounds r Hr) as [Hs Hle].
  destruct (Hranks r Hr) as (Ex & Ey & Ez & Eb & EP & _ & Hmy & Es).
  unfold element_ids_fit. rewrite Ex, Ey, Ez, Eb, EP, Es.
  repeat split; (done || lia).
Qed.

Lemma hex_ids_over_ranks :
  (r ← seqZ 0 P; block_element_ids (mesh_of r) 1) = seqZ 1 (nx * ny * nz).
Proof.
  rewrite <- Hcover.
  rewrite <- (Z2Nat.id P) by lia.
  rewrite <- (seqZ_concat_slabs 1 (nx * ny) num (Z.to_nat P));
    [|nia|intros r Hr; apply Hranks; lia].
  apply bind_ext_in. intros r Hr%elem_of_seqZ.
  destruct (Hranks r ltac:(lia)) as (Ex & Ey & Ez & Eb & EP & _ & Hmy & Es).
  unfold block_element_ids. rewrite decide_True by done.
  rewrite Ex, Ey, Es. f_equal. ring.
Qed.

Lemma shell_ids_over_ranks (ib : nat) (loc : ShellLocation) :
  blocks !! ib = Some loc ->
  (r ← seqZ 0 P; block_element_ids (mesh_of r) (Z.of_nat ib + 2))
  = seqZ (total_elements nx ny nz (take ib blocks) + 1)
      (shell_count nx ny nz loc).
Proof.
  intros Hloc.
  rewrite (bind_ext_in _
             (fun r => seqZ (total_elements nx ny nz (take ib blocks)
                             + shell_first (mesh_of r) loc + 1)
                         (shell_count_proc (mesh_of r) loc))).
  2:{ intros r Hr%elem_of_seqZ.
      destruct (Hranks r ltac:(lia))
        as (Ex & Ey & Ez & Eb & EP & _ & Hmy & Es).
      unfold block_element_ids, block_start. rewrite decide_False by lia.
      replace (Z.to_nat (Z.of_nat ib + 2 - 2)) with ib by lia.
      by rewrite Eb, Hloc, Ex, Ey, Ez. }
  assert (Hside : forall c,
            0 <= c ->
            (r ← seqZ 0 P;
             seqZ (total_elements nx ny nz (take ib blocks)
                   + myStartZ (mesh_of r) * c + 1)
               (c * myNumZ (mesh_of r)))
            = seqZ (total_elements nx ny nz (take ib blocks) + 1) (c * nz)).
  { intros c Hc. rewrite <- Hcover.
    rewrite <- (Z2Nat.id P) by lia.
    rewrite <- (seqZ_concat_slabs _ c num (Z.to_nat P));
      [|lia|intros r Hr; apply Hranks; lia].
    apply bind_ext_in. intros r Hr%elem_of_seqZ.
    destruct (Hranks r ltac:(lia))
      as (Ex & Ey & Ez & Eb & EP & _ & Hmy & Es).
    rewrite Es. f_equal. ring. }
  destruct loc; unfold shell_first, shell_count_proc, shell_count.
  - rewrite <- (Hside ny) by lia. apply bind_ext_in.
    intros r Hr%elem_of_seqZ.
    by destruct (Hranks r ltac:(lia)) as (_ & -> & _).
  - rewrite <- (Hside ny) by lia. apply bind_ext_in.
    intros r Hr%elem_of_seqZ.
    by destruct (Hranks r ltac:(lia)) as (_ & -> & _).
  - rewrite <- (Hside nx) by lia. apply bind_ext_in.
    intros r Hr%elem_of_seqZ.
    by destruct (Hranks r ltac:(lia)) as (-> & _).
  - rewrite <- (Hside nx) by lia. apply bind_ext_in.
    intros r Hr%elem_of_seqZ.
    by destruct (Hranks r ltac:(lia)) as (-> & _).
  - rewrite (bind_seqZ_single _ 0) by
      (lia || (intros r Hr Hne;
               destruct (Hranks r Hr) as (_ & _ & _ & _ & _ & -> & _);
               by rewrite decide_False by done)).
    destruct (Hranks 0 ltac:(lia)) as (-> & -> & _ & _ & _ & -> & _).
    rewrite decide_True by done. f_equal. lia.
  - rewrite (bind_seqZ_single _ (P - 1)) by
      (lia || (intros r Hr Hne;
               destruct (Hranks r Hr) as (_ & _ & _ & _ & -> & -> & _);
               by rewrite decide_False by done)).
    destruct (Hranks (P - 1) ltac:(lia)) as (-> & -> & _ & _ & -> & -> & _).
    rewrite decide_True by done. f_equal. lia.
Qed.

(** The identifiers of all blocks over all ranks are [1 .. element_count]. *)
Lemma element_ids_over_ranks :
  (b ← seqZ 1 (Z.of_nat (length blocks) + 1);
   r ← seqZ 0 P;
   block_element_ids (mesh_of r) b)
  = seqZ 1 (total_elements nx ny nz blocks).
Proof.
  destruct (shell_count_bounds nx ny nz blocks Hnx Hny Hnz)
    as (Hlocs & _).
  assert (Hgen : forall n : nat, (n <= length blocks)%nat ->
            (b ← seqZ 1 (Z.of_nat n + 1);
             r ← seqZ 0 P;
             block_element_ids (mesh_of r) b)
            = seqZ 1 (total_elements nx ny nz (take n blocks))).
  { induction n as [|n IH]; intros Hn.
    - change (seqZ 1 (Z.of_nat 0 + 1)) with [1].
      rewrite bind_singleton, hex_ids_over_ranks.
      unfold total_elements. rewrite take_0. simpl. f_equal. lia.
    - destruct (lookup_lt_is_Some_2 blocks n) as (loc & Hloc); [lia|].
      rewrite blocks_prefix_succ, IH by lia.
      rewrite shell_ids_over_ranks with (loc := loc) by done.
      destruct (shell_count_bounds nx ny nz (take n blocks) Hnx Hny Hnz)
        as (_ & _ & _ & Hhex).
      assert (total_elements nx ny nz (take (S n) blocks)
              = total_elements nx ny nz (take n blocks)
                + shell_count nx ny nz loc) as ->.
      { unfold total_elements.
        rewrite (take_S_r _ _ _ Hloc), fmap_app, sum_Z_app. simpl. lia. }
      specialize (Hlocs loc).
      rewrite (seqZ_app 1) by nia. f_equal. f_equal. lia. }
  rewrite Hgen by lia. by rewrite firstn_all.
Qed.

(** The nodes of the ranks, counted with the layers that two ranks share. *)
Lemma node_counts_over_ranks :
  (nx + 1) * (ny + 1) * (nz + 1) < SIZE_MOD ->
  sum_Z ((fun r => node_count_proc (mesh_of r)) <$> seqZ 0 P)
  = node_count (mesh_of 0) + (P - 1) * ((nx + 1) * (ny + 1)).
Proof.
  intros Hnodes.
  assert (HS : 0 < (nx + 1) * (ny + 1)) by nia.
  rewrite (sum_Z_fmap_ext _
             (fun r => (nx + 1) * (ny + 1) * (myNumZ (mesh_of r) + 1))).
  2:{ intros r Hr%elem_of_seqZ.
      destruct (slab_prefix_bounds r ltac:(lia)) as [Hs Hle].
      destruct (Hranks r ltac:(lia))
        as (Ex & Ey & Ez & Eb & EP & _ & Hmy & Es).
      unfold node_count_proc. rewrite Ex, Ey. apply wrap_small.
      split; [nia|].
      assert ((nx + 1) * (ny + 1) * (myNumZ (mesh_of r) + 1)
              <= (nx + 1) * (ny + 1) * (nz + 1))
        by (apply Z.mul_le_mono_nonneg_l; lia).
      lia. }
  rewrite sum_Z_fmap_mul, (sum_Z_fmap_add num (fun _ => 1)), Hcover.
  assert (Hones : forall n : nat,
            sum_Z ((fun _ : Z => 1) <$> seqZ 0 (Z.of_nat n)) = Z.of_nat n).
  { induction n as [|n IHn]; [done|].
    rewrite seqZ_S, fmap_app, sum_Z_app, IHn. simpl. lia. }
  rewrite <- (Z2Nat.id P) at 1 by lia. rewrite Hones, Z2Nat.id by lia.
  destruct (Hranks 0 ltac:(lia)) as (Ex & Ey & Ez & _).
  unfold node_count. rewrite Ex, Ey, Ez, wrap_small by lia. ring.
Qed.

(** X17.  In a mesh that is split over [P] ranks, every rank starting where
    the ranks before it end, the element maps of the ranks partition the
    identifiers of the mesh: the maps [element_map(b, map)] of a block [b],
    taken rank after rank, are a run of consecutive identifiers, and these
    runs, taken block after block, are [1 .. element_count()]; so every
    element identifier is in the map of exactly one rank. *)
Theorem element_ids_partition_over_ranks :
  exists ids : Z -> Z -> list Z,
    (forall r b map,
       0 <= r < P -> 1 <= b <= Z.of_nat (length blocks) + 1 ->
       element_map_block (mesh_of r) b map = Some (ids r b)) /\
    (r ← seqZ 0 P; ids r 1) = seqZ 1 (nx * ny * nz) /\
    (forall (ib : nat) (loc : ShellLocation),
       blocks !! ib = Some loc ->
       (r ← seqZ 0 P; ids r (Z.of_nat ib + 2))
       = seqZ (total_elements nx ny nz (take ib blocks) + 1)
           (shell_count nx ny nz loc)) /\
    (b ← seqZ 1 (Z.of_nat (length blocks) + 1); r ← seqZ 0 P; ids r b)
    = seqZ 1 (total_elements nx ny nz blocks) /\
    (forall r, 0 <= r < P ->
       element_count (mesh_of r) = Some (total_elements nx ny nz blocks)).
Proof.
  exists (fun r b => block_element_ids (mesh_of r) b).
  split; [|split; [|split; [|split]]].
  - intros r b map Hr Hb. pose proof (rank_element_ids_fit r Hr) as Hfit'.
    apply element_map_block_spec; [done|].
    by destruct (Hranks r Hr) as (_ & _ & _ & -> & _).
  - apply hex_ids_over_ranks.
  - apply shell_ids_over_ranks.
  - apply element_ids_over_ranks.
  - intros r Hr. pose proof (rank_element_ids_fit r Hr) as Hfit'.
    destruct (element_ids_fit_counts _ Hfit')
      as (? & ? & ? & _ & _ & _ & ? & _).
    rewrite element_count_spec by done.
    by destruct (Hranks r Hr) as (-> & -> & -> & -> & _).
Qed.

(** X18.  The local node counts of the ranks add up to the node count of
    the mesh plus one layer of [(numX+1) * (numY+1)] nodes for each of the
    [P - 1] pairs of ranks that follow each other: the nodes of the layer
    between two ranks are counted by both. *)
Theorem node_counts_with_shared_layers :
  (nx + 1) * (ny + 1) * (nz + 1) < SIZE_MOD ->
  sum_Z ((fun r => node_count_proc (mesh_of r)) <$> seqZ 0 P)
  = node_count (mesh_of 0) + (P - 1) * ((nx + 1) * (ny + 1)) /\
  node_count (mesh_of 0) = (nx + 1) * (ny + 1) * (nz + 1).
Proof.
  intros Hnodes. split; [by apply node_counts_over_ranks|].
  destruct (Hranks 0 ltac:(lia)) as (Ex & Ey & Ez & _).
  unfold node_count. rewrite Ex, Ey, Ez. apply wrap_small. nia.
Qed.

End OverRanks.

Lemma example_ranks_family r :
  0 <= r < 2 ->
  numX (example_ranks r) = 2 /\ numY (example_ranks r) = 2 /\
  numZ (example_ranks r) = 4 /\ shellBlocks (example_ranks r) = [MX; PZ] /\
  processorCount (example_ranks r) = 2 /\ myProcessor (example_ranks r) = r /\
  0 <= myNumZ (example_ranks r) /\
  myStartZ (example_ranks r)
  = sum_Z ((fun r' => myNumZ (example_ranks r')) <$> seqZ 0 r).
Proof.
  intros Hr. assert (r = 0 \/ r = 1) as [-> | ->] by lia;
    repeat split; by vm_compute.
Qed.

Lemma element_ids_partition_over_ranks_witness :
  exists ids : Z -> Z -> list Z,
    element_map_block (example_ranks 0) 2 [] = Some (ids 0 2) /\
    element_map_block (example_ranks 1) 2 [] = Some (ids 1 2) /\
    ids 0 2 ++ ids 1 2 = [17; 18; 19; 20; 21; 22; 23; 24].
Proof.
  destruct (element_ids_partition_over_ranks example_ranks 2 2 4 2 [MX; PZ]
              ltac:(lia) ltac:(lia) ltac:(lia) ltac:(by vm_compute)
              example_ranks_family eq_refl ltac:(by vm_compute))
    as (ids & Hmaps & _ & Hshell & _).
  exists ids.
  split; [apply Hmaps; simpl; lia|]. split; [apply Hmaps; simpl; lia|].
  specialize (Hshell 0%nat MX eq_refl).
  change (seqZ 0 2) with [0; 1] in Hshell.
  rewrite bind_cons, bind_singleton in Hshell. exact Hshell.
Defined.

Lemma node_counts_with_shared_layers_witness :
  sum_Z [node_count_proc (example_ranks 0); node_count_proc (example_ranks 1)]
  = 45 + 9.
Proof.
  destruct (node_counts_with_shared_layers example_ranks 2 2 4 2 [MX; PZ]
              ltac:(lia) ltac:(lia) ltac:(lia) ltac:(by vm_compute)
              example_ranks_family eq_refl ltac:(by vm_compute))
    as [Hsum Hcount].
  change (seqZ 0 2) with [0; 1] in Hsum.
  rewrite Hcount in Hsum. exact Hsum.
Defined.

(** ** The balance of the uniform split *)

(** X19.  The constructor from integers rejects a mesh with fewer intervals
    than processors (its assertion fails); otherwise every rank gets at
    least one interval, a rank never gets fewer intervals than a rank after
    it, and no two ranks differ by more than one interval. *)
Theorem uniform_split_balanced `{Double} (nx ny nz : Z) :
  0 <= nx <= INT_MAX -> 0 <= ny <= INT_MAX -> 0 <= nz <= INT_MAX ->
  (forall P r,
     nz < P <= INT_MAX -> GeneratedMesh_of_ints nx ny nz P r = None) /\
  (forall P r r',
     0 < P <= nz -> 0 <= r <= r' -> r' < P ->
     exists m m',
       GeneratedMesh_of_ints nx ny nz P r = Some m /\
       GeneratedMesh_of_ints nx ny nz P r' = Some m' /\
       1 <= myNumZ m' <= myNumZ m /\ myNumZ m <= myNumZ m' + 1).
Proof.
  intros Hnx Hny Hnz. pose proof int_consts as (? & ? & ? & ?). split.
  - intros P r HP. unfold GeneratedMesh_of_ints, initialize, member_init.
    cbn [processorCount numZ]. rewrite !wrap_small by lia.
    by rewrite decide_False by lia.
  - intros P r r' HP Hr Hr'.
    destruct (GeneratedMesh_of_ints_fields nx ny nz P r)
      as (m & Hm & _ & _ & _ & _ & _ & _ & _ & _ & Hnum); [lia..|].
    destruct (GeneratedMesh_of_ints_fields nx ny nz P r')
      as (m' & Hm' & _ & _ & _ & _ & _ & _ & _ & _ & Hnum'); [lia..|].
    exists m, m'. split; [done|]. split; [done|].
    destruct (uniform_div_mod nz P HP) as (_ & _ & Hq).
    rewrite Hnum, Hnum'. repeat case_decide; lia.
Qed.

Lemma uniform_split_balanced_witness :
  GeneratedMesh_of_ints (H:=SymbolicDouble) 2 2 3 4 0 = None /\
  exists m m',
    GeneratedMesh_of_ints (H:=SymbolicDouble) 2 2 7 3 0 = Some m /\
    GeneratedMesh_of_ints (H:=SymbolicDouble) 2 2 7 3 2 = Some m' /\
    myNumZ m = 3 /\ myNumZ m' = 2.
Proof.
  destruct (uniform_split_balanced (H:=SymbolicDouble) 2 2 3
              ltac:(by vm_compute) ltac:(by vm_compute) ltac:(by vm_compute))
    as [Hnone _].
  split; [apply Hnone; by vm_compute|].
  destruct (uniform_split_balanced (H:=SymbolicDouble) 2 2 7
              ltac:(by vm_compute) ltac:(by vm_compute) ltac:(by vm_compute))
    as [_ Hsome].
  destruct (Hsome 3 0 2 ltac:(lia) ltac:(lia) ltac:(lia))
    as (m & m' & Hm & Hm' & _).
  exists m, m'. split; [exact Hm|]. split; [exact Hm'|].
  vm_compute in Hm, Hm'. injection Hm as <-. injection Hm' as <-.
  split; reflexivity.
Defined.

(** ** The bounding box and the intervals *)

Lemma parse_zdecomp_scale_offset `{Double} (tokens : list string)
    (sx sy sz ox oy oz : double) (m m' : GeneratedMesh) :
  parse_zdecomp tokens m = Some m' ->
  parse_zdecomp tokens (set_offset ox oy oz (set_scale sx sy sz m))
  = Some (set_offset ox oy oz (set_scale sx sy sz m')).
Proof.
  unfold parse_zdecomp.
  cbn [processorCount myProcessor set_offset set_scale].
  case_decide; [|done].
  destruct (for_range 0 _ _ _) as [[num_z Zs]|]; [|done].
  cbn [mbind option_bind].
  destruct (load Zs _); [|done]. cbn [mbind option_bind].
  destruct (for_range 0 _ _ _); [|done]. cbn [mbind option_bind].
  by intros [= <-].
Qed.

(** X20.  [set_bbox] computes the scale factors from the interval counts
    the mesh has when it is called: when a [zdecomp] option follows it, the
    bounding box keeps the Z scale of the old [numZ], whereas in the other
    order it gets the Z scale of the new [numZ]; the decomposition itself is
    the same in both orders. *)
Theorem bbox_uses_current_intervals `{Double} (tokens : list string)
    (xmin ymin zmin xmax ymax zmax : double) (m m1 : GeneratedMesh) :
  parse_zdecomp tokens m = Some m1 ->
  exists m2,
    parse_zdecomp tokens (set_bbox xmin ymin zmin xmax ymax zmax m)
    = Some m2 /\
    numZ m2 = numZ m1 /\ myNumZ m2 = myNumZ m1 /\
    myStartZ m2 = myStartZ m1 /\
    sclZ m2 = d_div (d_sub zmax zmin) (d_of_Z (numZ m)) /\
    sclZ (set_bbox xmin ymin zmin xmax ymax zmax m1)
    = d_div (d_sub zmax zmin) (d_of_Z (numZ m1)) /\
    offZ m2 = zmin /\
    offZ (set_bbox xmin ymin zmin xmax ymax zmax m1) = zmin.
Proof.
  intros Hparse. unfold set_bbox. cbv zeta.
  eexists. split; [by apply parse_zdecomp_scale_offset|]. done.
Qed.

Lemma bbox_uses_current_intervals_witness :
  exists m1 m2,
    parse_zdecomp ["2"; "6"]%string (constructed 2 2 4 2 1) = Some m1 /\
    parse_zdecomp ["2"; "6"]%string
      (set_bbox (H:=SymbolicDouble)
         (DLit 0) (DLit 0) (DLit 0) (DLit 1) (DLit 1) (DLit 8)
         (constructed 2 2 4 2 1))
    = Some m2 /\
    sclZ m2 = DDiv (DSub (DLit 8) (DLit 0)) (DLit 4) /\
    sclZ (set_bbox (H:=SymbolicDouble)
            (DLit 0) (DLit 0) (DLit 0) (DLit 1) (DLit 1) (DLit 8) m1)
    = DDiv (DSub (DLit 8) (DLit 0)) (DLit 8).
Proof.
  assert (Hparse : exists m1,
            parse_zdecomp ["2"; "6"]%string (constructed 2 2 4 2 1) = Some m1
            /\ numZ m1 = 8).
  { eexists. split; [vm_compute; reflexivity|]. done. }
  destruct Hparse as (m1 & Hparse & Hz).
  destruct (bbox_uses_current_intervals (H:=SymbolicDouble) ["2"; "6"]%string
              (DLit 0) (DLit 0) (DLit 0) (DLit 1) (DLit 1) (DLit 8)
              (constructed 2 2 4 2 1) m1 Hparse)
    as (m2 & Hparse2 & _ & _ & _ & Hscale & Hscale' & _).
  exists m1, m2. split; [exact Hparse|]. split; [exact Hparse2|].
  split; [exact Hscale|]. rewrite Hscale'. cbn. by rewrite Hz.
Defined.
